(** * FVENS: the finite-volume spatial discretization, embedded in Rocq

    A shallow embedding of [src/spatial/aspatial.cpp] (classes [Spatial],
    [FlowFV_base], [FlowFV]) and of the factories of
    [src/utilities/afactory.cpp].

    - [a_real] is C++ [double]: the kernel's binary64 floats, so every
      definition below can be run on concrete meshes and states.
    - [amat::Array2d], [MVector] and the Eigen maps over raw arrays are lists
      of rows; [GradArray] is a list of NDIM x NVARS matrices.
    - The OpenMP pragmas are read sequentially: loops run in index order.
    - C++ exceptions ([std::map::at]) and failed [assert]s are the [Throw]
      outcomes of the [result] monad.
    - Classes whose bodies live in other translation units (mesh, gas
      physics, numerical fluxes, boundary conditions, gradient schemes,
      reconstructions) are records of functions: the interfaces the engine
      is written against, with members that always return. Module
      [Throwing] reads the residual evaluation once more with members that
      may throw.
    - A PETSc [Vec] is its local array together with the statuses of the
      calls made on it; [CHKERRQ] returns a non-zero status at once. *)

From Stdlib Require Import ZArith String List.
From Stdlib Require Import Floats.PrimFloat.
From stdpp Require Import base option list gmap strings.

Local Open Scope float_scope.
#[local] Set Warnings "-inexact-float".

(** ** Scalars and arrays *)

Abbreviation a_real := float.
Definition StatusCode : Type := Z.

Definition NDIM : nat := 2.
Definition NVARS : nat := 4.

#[global] Instance a_real_inhabited : Inhabited float := populate 0.

Abbreviation Array2d := (list (list a_real)).
Abbreviation MVector := (list (list a_real)).
Abbreviation GradArray := (list (list (list a_real))).

(** [fabs] and [std::max] of <cmath> / <algorithm>. *)
Definition fabs (x : a_real) : a_real := PrimFloat.abs x.
Definition std_max (a b : a_real) : a_real := if (a <? b) then b else a.

(** Conversion of a C++ [int] count to [double]. *)
Definition double_of_int (n : nat) : a_real := Nat.iter n (fun x => x + 1) 0.

(** [a(i,j)], a pointer [&a(i,0)] to row [i], and [g[c](j,i)]. *)
Definition row (a : Array2d) (i : nat) : list a_real := a !!! i.
Definition at2 (a : Array2d) (i j : nat) : a_real := (a !!! i) !!! j.
Definition at3 (g : GradArray) (c j i : nat) : a_real := ((g !!! c) !!! j) !!! i.

(** A loop [for(i = 0; i < n; i++) a[i] = f(i)] that fills a fresh array. *)
Definition tabulate {A : Type} (n : nat) (f : nat -> A) : list A :=
  map f (seq 0 n).

(** A loop [for(i = lo; i < hi; i++)] over an accumulator. *)
Definition for_range {S : Type} (lo hi : nat) (body : S -> nat -> S) (s : S) : S :=
  fold_left body (seq lo (hi - lo)) s.

Definition zeros (n : nat) : list a_real := replicate n 0.
Definition zeros2 (r c : nat) : Array2d := replicate r (zeros c).

(** ** Exceptions *)

(** The error kinds of the specification. *)
Inductive error_kind : Type :=
  | config_invalid
  | numeric_invalid
  | unphysical_state
  | mesh_inconsistent.

Inductive exn : Type :=
  | std_out_of_range             (* thrown by [std::map::at] *)
  | assertion_failure            (* a failed [assert] *)
  | thrown (k : error_kind).     (* thrown by a collaborator, by the kind
                                    under which its failure is reported *)

Inductive result (A : Type) : Type :=
  | Ok (a : A)
  | Throw (e : exn).
Arguments Ok {A} a.
Arguments Throw {A} e.

#[global] Instance result_ret : MRet result := fun A a => Ok a.
#[global] Instance result_bind : MBind result := fun A B f r =>
  match r with
  | Ok a => f a
  | Throw e => Throw e
  end.

(** A sequential loop whose body may throw. *)
Fixpoint foldM {S A : Type} (body : S -> A -> result S) (l : list A) (s : S)
  : result S :=
  match l with
  | [] => Ok s
  | x :: l' =>
      match body s x with
      | Ok s' => foldM body l' s'
      | Throw e => Throw e
      end
  end.

(** The kind under which each exception is reported: an undeclared
    boundary marker is a configuration error; a failed assertion has no
    kind of its own. *)
Definition error_kind_of (e : exn) : option error_kind :=
  match e with
  | std_out_of_range => Some config_invalid
  | assertion_failure => None
  | thrown k => Some k
  end.

Definition fails_with {A : Type} (k : error_kind) (r : result A) : Prop :=
  exists e, r = Throw e /\ error_kind_of e = Some k.

(** ** The collaborators of the engine *)

(** [UMesh2dh]: the accessors the engine calls. Faces [0 .. gnbface-1] are
    boundary faces; [ginpoel c i] is node [i] of cell [c]; [gintfac f 0]
    and [gintfac f 1] are the left and right cells of face [f] (at a
    boundary face the right cell is a ghost cell, numbered from [gnelem]
    on), [gintfac f 2] and [gintfac f 3] its nodes; [gfacemetric f 0],
    [gfacemetric f 1] the unit normal and [gfacemetric f 2] the length. *)
Record UMesh2dh : Type := {
  gnelem : nat;
  gnbface : nat;
  gnaface : nat;
  gnnofa : nat;
  gnnode : nat -> nat;
  ginpoel : nat -> nat -> nat;
  gintfac : nat -> nat -> nat;
  gfacemetric : nat -> nat -> a_real;
  gnormal : nat -> list a_real;
  garea : nat -> a_real;
  gintfacbtags : nat -> nat -> Z;
  gperiodicmap : nat -> nat;
  gcoords : nat -> nat -> a_real
}.

(** [IdealGasPhysics]: in/out array parameters are arguments and results. *)
Record IdealGasPhysics : Type := {
  g : a_real;
  Pr : a_real;
  getFreestreamPressure : a_real;
  getConstantViscosityCoeff : a_real;
  getPressureFromConserved : list a_real -> a_real;
  getSoundSpeedFromConserved : list a_real -> a_real;
  getViscosityCoeffFromConserved : list a_real -> a_real;
  getThermalConductivityFromViscosity : a_real -> a_real;
  getPrimitiveFromConserved : list a_real -> list a_real;
  getConservedFromPrimitive : list a_real -> list a_real;
  getPrimitive2FromConserved : list a_real -> list a_real;
  getTemperature : a_real -> a_real -> a_real;
  getGradTemperature : a_real -> a_real -> a_real -> a_real -> a_real;
  getStressTensor : a_real -> Array2d -> Array2d -> Array2d;
  getJacobianPrimitive2WrtConserved : list a_real -> list a_real -> list a_real;
  getJacobianSutherlandViscosityWrtConserved :
    list a_real -> list a_real -> list a_real;
  getJacobianThermCondWrtConservedFromJacobianSutherViscWrtConserved :
    list a_real -> list a_real -> list a_real;
  getJacobianStress :
    a_real -> list a_real -> Array2d -> GradArray -> Array2d -> GradArray ->
    Array2d * GradArray
}.

(** [InviscidFlux]: both outputs are assigned, never accumulated; a
    Jacobian is a row-major NVARS x NVARS array. *)
Record InviscidFlux : Type := {
  get_flux : list a_real -> list a_real -> list a_real -> list a_real;
  get_jacobian :
    list a_real -> list a_real -> list a_real -> list a_real * list a_real
}.

(** [FlowBC]: ghost state, and ghost state with its Jacobian. *)
Record FlowBC : Type := {
  computeGhostState : list a_real -> list a_real -> list a_real;
  computeGhostStateAndJacobian :
    list a_real -> list a_real -> list a_real * list a_real
}.

Record GradientScheme : Type := {
  compute_gradients : MVector -> Array2d -> GradArray -> GradArray
}.

(** [SolutionReconstruction::compute_face_values (u, ug, grads, ufl, ufr)]:
    the new contents of the two face arrays. *)
Record SolutionReconstruction : Type := {
  compute_face_values :
    MVector -> Array2d -> GradArray -> Array2d -> Array2d -> Array2d * Array2d
}.

(** The members of [FlowPhysicsConfig] that the engine reads. *)
Record FlowPhysicsConfig : Type := {
  viscous_sim : bool;
  aoa : a_real;
  periodic_id : Z
}.

(** [cos] and [sin] of <cmath>. *)
Record cmath : Type := {
  cos : a_real -> a_real;
  sin : a_real -> a_real
}.

(** ** Class [Spatial<scalar, nvars>] *)

(** The constructor of [Spatial]: the centres [rc] of the real cells and of
    the ghost cells, and the Gauss points [gr] of the faces. *)
Definition NGAUSS : nat := 1.

Section Spatial_constructor.
Context (m : UMesh2dh).

Definition cell_centres : Array2d :=
  for_range 0 (gnelem m) (fun rc ielem =>
      <[ielem := tabulate NDIM (fun idim =>
          for_range 0 (gnnode m ielem) (fun c inode =>
              c + gcoords m (ginpoel m ielem inode) idim) 0
          / double_of_int (gnnode m ielem))]> rc)
    (zeros2 (gnelem m + gnbface m) NDIM).

Definition compute_ghost_cell_coords_about_midpoint (rc rchg : Array2d) : Array2d :=
  for_range 0 (gnbface m) (fun rchg iface =>
      let ielem := gintfac m iface 0 in
      let ip1 := gintfac m iface 2 in
      let ip2 := gintfac m iface 3 in
      let midpoint := tabulate NDIM (fun idim =>
        0.5 * (gcoords m ip1 idim + gcoords m ip2 idim)) in
      <[iface := tabulate NDIM (fun idim =>
          2 * midpoint !!! idim - at2 rc ielem idim)]> rchg)
    rchg.

Definition Spatial_rc : Array2d :=
  let rc := cell_centres in
  let rchg :=
    compute_ghost_cell_coords_about_midpoint rc (zeros2 (gnbface m) NDIM) in
  for_range 0 (gnbface m) (fun rc iface =>
      <[gintfac m iface 1 := tabulate NDIM (fun idim => at2 rchg iface idim)]> rc)
    rc.

Definition Spatial_gr : GradArray :=
  tabulate (gnaface m) (fun ied =>
    let x1 := gcoords m (gintfac m ied 2) 0 in
    let y1 := gcoords m (gintfac m ied 2) 1 in
    let x2 := gcoords m (gintfac m ied 3) 0 in
    let y2 := gcoords m (gintfac m ied 3) 1 in
    tabulate NGAUSS (fun ig =>
      [x1 + (double_of_int ig + 1.0) / (double_of_int NGAUSS + 1.0) * (x2 - x1);
       y1 + (double_of_int ig + 1.0) / (double_of_int NGAUSS + 1.0) * (y2 - y1)])).

End Spatial_constructor.

Section Spatial.
Context (m : UMesh2dh) (rc : Array2d).

Definition dimDotProduct (u v : list a_real) : a_real :=
  for_range 0 NDIM (fun dot i => dot + u !!! i * v !!! i) 0.

(** The loops that open the three face-gradient functions: the vector
    from the left to the right cell centre, its length, and its
    normalization. *)
Definition centre_difference (iface : nat) : list a_real :=
  let lelem := gintfac m iface 0 in
  let relem := gintfac m iface 1 in
  tabulate NDIM (fun i => at2 rc relem i - at2 rc lelem i).

Definition centre_distance (iface : nat) : a_real :=
  PrimFloat.sqrt
    (fold_left (fun dist d => dist + d * d) (centre_difference iface) 0).

Definition centre_direction (iface : nat) : list a_real :=
  map (fun d => d / centre_distance iface) (centre_difference iface).

Definition getFaceGradient_modifiedAverage (nvars : nat) (iface : nat)
    (ucl ucr : list a_real) (gradl gradr : Array2d) : Array2d :=
  let dist := centre_distance iface in
  let dr := centre_direction iface in
  let column (i : nat) : list a_real :=
    let davg := tabulate NDIM (fun j => 0.5 * (at2 gradl j i + at2 gradr j i)) in
    let corr := (ucr !!! i - ucl !!! i) / dist in
    let ddr := dimDotProduct davg dr in
    tabulate NDIM (fun j => davg !!! j - ddr * dr !!! j + corr * dr !!! j) in
  tabulate NDIM (fun j => tabulate nvars (fun i => column i !!! j)).

(** Returns [(grad, dgradl, dgradr)]. *)
Definition getFaceGradientAndJacobian_thinLayer (nvars : nat) (iface : nat)
    (ucl ucr dul dur : list a_real) : Array2d * GradArray * GradArray :=
  let dist := centre_distance iface in
  let dr := centre_direction iface in
  let corr (i : nat) := (ucr !!! i - ucl !!! i) / dist in
  (tabulate NDIM (fun j => tabulate nvars (fun i => corr i * dr !!! j)),
   tabulate NDIM (fun j => tabulate nvars (fun i => tabulate nvars (fun k =>
     - (dul !!! (i * nvars + k)%nat) / dist * dr !!! j))),
   tabulate NDIM (fun j => tabulate nvars (fun i => tabulate nvars (fun k =>
     dur !!! (i * nvars + k)%nat / dist * dr !!! j)))).

End Spatial.

(** ** Row-major NVARS x NVARS blocks and the PETSc matrix *)

(** The Eigen expressions of [compute_jacobian] on fixed-size row-major
    matrices, over their data arrays. The coefficient of a product is
    summed in index order. *)
Definition block_size : nat := (NVARS * NVARS)%nat.

Definition mat_sub (a b : list a_real) : list a_real :=
  tabulate block_size (fun k => a !!! k - b !!! k).

Definition mat_mul (a b : list a_real) : list a_real :=
  tabulate block_size (fun idx =>
    let i := (idx / NVARS)%nat in
    let j := (idx mod NVARS)%nat in
    for_range 1 NVARS
      (fun s k => s + a !!! (i * NVARS + k)%nat * b !!! (k * NVARS + j)%nat)
      (a !!! (i * NVARS)%nat * b !!! j)).

(** [s * M] and [M *= s]. *)
Definition scalar_times (s : a_real) (a : list a_real) : list a_real :=
  tabulate block_size (fun k => s * a !!! k).
Definition times_scalar (a : list a_real) (s : a_real) : list a_real :=
  tabulate block_size (fun k => a !!! k * s).

(** A PETSc [Mat], observed through the calls
    [MatSetValuesBlocked(A, 1, &i, 1, &j, v, ADD_VALUES)] made on it, in
    order. *)
Abbreviation Mat := (list (nat * nat * list a_real)).

Definition MatSetValuesBlocked (A : Mat) (i j : nat) (v : list a_real) : Mat :=
  A ++ [(i, j, v)].

(** A PETSc [Vec] as the engine sees it: the local array, NVARS
    consecutive entries per cell, and the status (0 on success) that the
    access calls return on it. *)
Record Vec : Type := {
  local_array : list a_real;
  VecGetLocalSize_status : StatusCode;
  VecGetArray_status : StatusCode;       (* VecGetArray, VecGetArrayRead *)
  VecRestoreArray_status : StatusCode    (* VecRestoreArray, VecRestoreArrayRead *)
}.

(** The pointer [&uarr[c * NVARS]], read as the NVARS entries of cell [c]. *)
Definition cell (uarr : list a_real) (c : nat) : list a_real :=
  tabulate NVARS (fun j => uarr !!! (c * NVARS + j)%nat).

(** ** Classes [FlowFV_base<scalar>] and [FlowFV<secondOrderRequested, constVisc>] *)

Record FlowFV : Type := {
  m : UMesh2dh;
  rc : Array2d;
  pconfig : FlowPhysicsConfig;
  physics : IdealGasPhysics;
  inviflux : InviscidFlux;
  jflux : InviscidFlux;
  gradcomp : GradientScheme;
  lim : SolutionReconstruction;
  bcs : gmap Z FlowBC;
  secondOrderRequested : bool;
  constVisc : bool
}.

(** The assignment [a(i,j) = v] on a two-dimensional array. *)
Definition set2 (a : Array2d) (i j : nat) (v : a_real) : Array2d :=
  alter (fun r => <[j := v]> r) i a.

Section FlowFV.
Context (E : FlowFV).

Local Abbreviation msh := (m E).
Local Abbreviation phy := (physics E).

Definition is_periodic (ied : nat) : bool :=
  Z.eqb (gintfacbtags msh ied 0) (periodic_id (pconfig E)).

Definition compute_boundary_state (ied : nat) (ins : list a_real)
  : result (list a_real) :=
  let n := gnormal msh ied in
  match bcs E !! gintfacbtags msh ied 0 with
  | Some bc => Ok (computeGhostState bc ins n)
  | None => Throw std_out_of_range
  end.

Definition compute_boundary_Jacobian (ied : nat) (ins : list a_real)
  : result (list a_real * list a_real) :=
  let n := gnormal msh ied in
  match bcs E !! gintfacbtags msh ied 0 with
  | Some bc => Ok (computeGhostStateAndJacobian bc ins n)
  | None => Throw std_out_of_range
  end.

Definition compute_boundary_states (ins bs : Array2d) : result Array2d :=
  foldM (fun bs ied =>
      gs ← compute_boundary_state ied (row ins ied);
      let bs := <[ied := gs]> bs in
      mret (if is_periodic ied then
              <[ied := tabulate NVARS (fun i => at2 ins (gperiodicmap msh ied) i)]> bs
            else bs))
    (seq 0 (gnbface msh)) bs.

Definition flowDirectionVector (lm : cmath) (aoa : a_real) : list a_real :=
  <[1%nat := sin lm aoa]> (<[0%nat := cos lm aoa]> (zeros NDIM)).

(** The locals that [computeSurfaceData] carries around its face loop. *)
Record surface_state : Type := {
  facecoun : nat;
  totallen : a_real;
  Cdf : a_real;
  Cdp : a_real;
  Cl : a_real;
  output : MVector
}.

Definition surface_face (u : MVector) (grad : GradArray) (av flownormal : list a_real)
    (pinf : a_real) (s : surface_state) (iface : nat) : surface_state :=
  let lelem := gintfac msh iface 0 in
  let n := tabulate NDIM (fun j => gfacemetric msh iface j) in
  let len := gfacemetric msh iface 2 in
  let totallen := totallen s + len in
  let ijp := [gintfac msh iface 2; gintfac msh iface 3] in
  let coord := tabulate NDIM (fun j =>
    for_range 0 (gnnofa msh) (fun c inofa => c + gcoords msh (ijp !!! inofa) j) 0
      / double_of_int (gnnofa msh)) in
  let output :=
    for_range 0 NDIM (fun o j => set2 o (facecoun s) j (coord !!! j)) (output s) in
  let output := set2 output (facecoun s) NDIM
    ((getPressureFromConserved phy (row u lelem) - pinf) * 2.0) in
  let muhat := getViscosityCoeffFromConserved phy (row u lelem) in
  let gradu (i j : nat) : a_real :=
    (at3 grad lelem j (i + 1) * at2 u lelem 0 - at2 u lelem (i + 1) * at3 grad lelem j 0)
      / (at2 u lelem 0 * at2 u lelem 0) in
  let tauw :=
    muhat * ((2.0 * gradu 0%nat 0%nat * n !!! 0%nat
              + (gradu 0%nat 1%nat + gradu 1%nat 0%nat) * n !!! 1%nat) * n !!! 1%nat
             + ((gradu 1%nat 0%nat + gradu 0%nat 1%nat) * n !!! 0%nat
                + 2.0 * gradu 1%nat 1%nat * n !!! 1%nat) * (- n !!! 0%nat)) in
  let output := set2 output (facecoun s) (NDIM + 1) (2.0 * tauw) in
  let ndotf := n !!! 0%nat * av !!! 0%nat + n !!! 1%nat * av !!! 1%nat in
  let ndotnf :=
    n !!! 0%nat * flownormal !!! 0%nat + n !!! 1%nat * flownormal !!! 1%nat in
  let tdotf := n !!! 1%nat * av !!! 0%nat - n !!! 0%nat * av !!! 1%nat in
  {| facecoun := S (facecoun s);
     totallen := totallen;
     Cdf := Cdf s + at2 output (facecoun s) (NDIM + 1) * tdotf * len;
     Cdp := Cdp s + at2 output (facecoun s) NDIM * ndotf * len;
     Cl := Cl s + at2 output (facecoun s) NDIM * ndotnf * len;
     output := output |}.

Definition surface_loop (lm : cmath) (u : MVector) (grad : GradArray)
    (iwbcm : Z) (out : MVector) : surface_state :=
  let av := flowDirectionVector lm (aoa (pconfig E)) in
  let pinf := getFreestreamPressure phy in
  let flownormal := [- av !!! 1%nat; av !!! 0%nat] in
  for_range 0 (gnbface msh) (fun s iface =>
      if Z.eqb (gintfacbtags msh iface 0) iwbcm
      then surface_face u grad av flownormal pinf s iface
      else s)
    {| facecoun := 0; totallen := 0; Cdf := 0; Cdp := 0; Cl := 0; output := out |}.

(** Returns the tuple [(Cl, Cdp, Cdf)] and the contents of [output]. *)
Definition computeSurfaceData (lm : cmath) (u : MVector) (grad : GradArray)
    (iwbcm : Z) (out : MVector) : (a_real * a_real * a_real) * MVector :=
  let s := surface_loop lm u grad iwbcm out in
  ((Cl s / totallen s, Cdp s / totallen s, Cdf s / totallen s), output s).

(** The copy [gradl[j][i] = grads[elem](j,i)] into a raw NDIM x NVARS array. *)
Definition cell_gradient (grads : GradArray) (elem : nat) : Array2d :=
  tabulate NDIM (fun j => tabulate NVARS (fun i => at3 grads elem j i)).

(** The loop that replaces the pressure gradient by the temperature
    gradient in the last column. *)
Definition temperature_gradient (uc : list a_real) (grad : Array2d) : Array2d :=
  for_range 0 NDIM (fun gr j =>
      set2 gr j (NVARS - 1)
        (getGradTemperature phy (uc !!! 0%nat) (at2 gr j 0)
           (uc !!! (NVARS - 1)%nat) (at2 gr j (NVARS - 1))))
    grad.

(** The viscosity coefficient at a face, by the [constVisc] switch. *)
Definition face_viscosity (ul ur : list a_real) : a_real :=
  if constVisc E then getConstantViscosityCoeff phy
  else 0.5 * (getViscosityCoeffFromConserved phy ul
              + getViscosityCoeffFromConserved phy ur).

(** [ucell_r] is the null pointer at a boundary face. Returns [vflux]. *)
Definition computeViscousFlux (iface : nat) (ucell_l : list a_real)
    (ucell_r : option (list a_real)) (ug : Array2d) (grads : GradArray)
    (ul ur : Array2d) : list a_real :=
  let lelem := gintfac msh iface 0 in
  let relem := gintfac msh iface 1 in
  let ucl := tabulate NVARS (fun i => ucell_l !!! i) in
  let gradl := zeros2 NDIM NVARS in
  let gradr := zeros2 NDIM NVARS in
  let '(ucl, ucr, gradl, gradr) :=
    if (iface <? gnbface msh)%nat then
      if secondOrderRequested E then
        let ucr := tabulate NVARS (fun i => at2 ug iface i) in
        let gradl := cell_gradient grads lelem in
        let ucl := getPrimitiveFromConserved phy ucl in
        let gradl := temperature_gradient ucl gradl in
        let gradr := tabulate NDIM (fun j => tabulate NVARS (fun i => at2 gradl j i)) in
        (ucl, ucr, gradl, gradr)
      else
        (ucl, tabulate NVARS (fun i => at2 ur iface i), gradl, gradr)
    else
      let ucr := tabulate NVARS (fun i => default [] ucell_r !!! i) in
      if secondOrderRequested E then
        let gradl := cell_gradient grads lelem in
        let gradr := cell_gradient grads relem in
        let ucl := getPrimitiveFromConserved phy ucl in
        let ucr := getPrimitiveFromConserved phy ucr in
        (ucl, ucr, temperature_gradient ucl gradl, temperature_gradient ucr gradr)
      else
        (ucl, ucr, gradl, gradr) in
  let '(ucl, ucr) :=
    if secondOrderRequested E then
      (<[(NVARS - 1)%nat :=
           getTemperature phy (ucl !!! 0%nat) (ucl !!! (NVARS - 1)%nat)]> ucl,
       <[(NVARS - 1)%nat :=
           getTemperature phy (ucr !!! 0%nat) (ucr !!! (NVARS - 1)%nat)]> ucr)
    else
      (getPrimitive2FromConserved phy ucl, getPrimitive2FromConserved phy ucr) in
  let grad :=
    getFaceGradient_modifiedAverage msh (rc E) NVARS iface ucl ucr gradl gradr in
  let muRe := face_viscosity (row ul iface) (row ur iface) in
  let kdiff := getThermalConductivityFromViscosity phy muRe in
  let stress := getStressTensor phy muRe grad (zeros2 NDIM NDIM) in
  let vavg := tabulate NDIM (fun j =>
    0.5 * (at2 ul iface (j + 1) / at2 ul iface 0
           + at2 ur iface (j + 1) / at2 ur iface 0)) in
  let momentum (i : nat) :=
    for_range 0 NDIM (fun v j => v - at2 stress i j * gfacemetric msh iface j) 0 in
  let energy :=
    for_range 0 NDIM (fun v i =>
        let comp :=
          for_range 0 NDIM (fun c j => c + at2 stress i j * vavg !!! j) 0
          + kdiff * at2 grad i (NVARS - 1) in
        v - comp * gfacemetric msh iface i)
      0 in
  0 :: tabulate NDIM momentum ++ [energy].

(** Accumulates into [dvfi] and [dvfj]; returns their new contents. The
    local [vflux] of the source is never read and is left out. *)
Definition computeViscousFluxJacobian (iface : nat) (ul ur dvfi dvfj : list a_real)
  : list a_real * list a_real :=
  let upl := getPrimitive2FromConserved phy ul in
  let upr := getPrimitive2FromConserved phy ur in
  let dupl := getJacobianPrimitive2WrtConserved phy ul (zeros block_size) in
  let dupr := getJacobianPrimitive2WrtConserved phy ur (zeros block_size) in
  let '(grad, dgradl, dgradr) :=
    getFaceGradientAndJacobian_thinLayer msh (rc E) NVARS iface upl upr dupl dupr in
  let muRe := face_viscosity ul ur in
  let kdiff := getThermalConductivityFromViscosity phy muRe in
  let '(dmul, dmur, dkdl, dkdr) :=
    if constVisc E then (zeros NVARS, zeros NVARS, zeros NVARS, zeros NVARS)
    else
      let dmul := getJacobianSutherlandViscosityWrtConserved phy ul (zeros NVARS) in
      let dmur := getJacobianSutherlandViscosityWrtConserved phy ur (zeros NVARS) in
      let dmul := tabulate NVARS (fun k => dmul !!! k * 0.5) in
      let dmur := tabulate NVARS (fun k => dmur !!! k * 0.5) in
      (dmul, dmur,
       getJacobianThermCondWrtConservedFromJacobianSutherViscWrtConserved phy dmul
         (zeros NVARS),
       getJacobianThermCondWrtConservedFromJacobianSutherViscWrtConserved phy dmur
         (zeros NVARS)) in
  let dstress0 : GradArray := replicate NDIM (replicate NDIM (zeros NVARS)) in
  let '(stress, dstressl) :=
    getJacobianStress phy muRe dmul grad dgradl (zeros2 NDIM NDIM) dstress0 in
  let '(stress, dstressr) :=
    getJacobianStress phy muRe dmur grad dgradr stress dstress0 in
  let n (j : nat) := gfacemetric msh iface j in
  let d :=
    for_range 0 NDIM (fun d i =>
        for_range 0 NDIM (fun d j =>
            for_range 0 NVARS (fun '(dvfi, dvfj) k =>
                (alter (fun x => x + at3 dstressl i j k * n j)
                   ((i + 1) * NVARS + k)%nat dvfi,
                 alter (fun x => x - at3 dstressr i j k * n j)
                   ((i + 1) * NVARS + k)%nat dvfj))
              d)
          d)
      (dvfi, dvfj) in
  let vavg := tabulate NDIM (fun j =>
    0.5 * (ul !!! (j + 1)%nat / ul !!! 0%nat + ur !!! (j + 1)%nat / ur !!! 0%nat)) in
  let dvavg (u : list a_real) : Array2d :=
    tabulate NDIM (fun j =>
      <[(j + 1)%nat := 0.5 / u !!! 0%nat]>
        (<[0%nat := -0.5 * u !!! (j + 1)%nat / (u !!! 0%nat * u !!! 0%nat)]>
           (zeros NVARS))) in
  let dvavgl := dvavg ul in
  let dvavgr := dvavg ur in
  for_range 0 NDIM (fun d i =>
      let dcomp (dstress dgrad : GradArray) (dvavg : Array2d) (dkd : list a_real)
          (k : nat) : a_real :=
        for_range 0 NDIM (fun c j =>
            c + (at3 dstress i j k * vavg !!! j + at2 stress i j * at2 dvavg j k))
          0
        + (dkd !!! k * at2 grad i (NVARS - 1) + kdiff * at3 dgrad i (NVARS - 1) k) in
      for_range 0 NVARS (fun '(dvfi, dvfj) k =>
          (alter (fun x => x + dcomp dstressl dgradl dvavgl dkdl k * n i)
             ((NVARS - 1) * NVARS + k)%nat dvfi,
           alter (fun x => x - dcomp dstressr dgradr dvavgr dkdr k * n i)
             ((NVARS - 1) * NVARS + k)%nat dvfj))
        d)
    d.

(** *** [compute_residual] *)

(** Lines 906-913: the cell-centred state of the boundary cell is the
    left state of each boundary face. Freshly sized arrays hold zeros. *)
Definition boundary_left_states (u : MVector) : Array2d :=
  for_range 0 (gnbface msh) (fun ul ied =>
      <[ied := tabulate NVARS (fun ivar => at2 u (gintfac msh ied 0) ivar)]> ul)
    (zeros2 (gnaface msh) NVARS).

(** Lines 926-939: cell states in primitive variables. *)
Definition primitive_cell_states (u : MVector) : MVector :=
  for_range 0 (gnelem msh) (fun a iel =>
      <[iel := getPrimitiveFromConserved phy (row u iel)]> a)
    (zeros2 (gnelem msh) NVARS).

(** Lines 932-935: the ghost states, converted in place. *)
Definition primitive_ghost_states (ug : Array2d) : Array2d :=
  for_range 0 (gnbface msh) (fun a iface =>
      alter (getPrimitiveFromConserved phy) iface a) ug.

(** Lines 943-944: gradients and face values, in primitive variables.
    [uleft] and [uright] are passed by reference and keep their
    [gnaface] rows. *)
Definition reconstructed_face_values (u : MVector) (ug uleft uright : Array2d)
  : Array2d * Array2d * GradArray :=
  let up := primitive_cell_states u in
  let grads :=
    compute_gradients (gradcomp E) up ug (replicate (gnelem msh) (zeros2 NDIM NVARS)) in
  let fv := compute_face_values (lim E) up ug grads uleft uright in
  (tabulate (gnaface msh) (fun f => row (fst fv) f),
   tabulate (gnaface msh) (fun f => row (snd fv) f),
   grads).

(** Lines 916-961, after the ghost states [ug] of the cell-centred values
    have been computed. *)
Definition second_order_face_states (u : MVector) (ug uleft uright : Array2d)
  : Array2d * Array2d * Array2d * GradArray :=
  let nbf := gnbface msh in
  let naf := gnaface msh in
  let ug := primitive_ghost_states ug in
  let '(uleft, uright, grads) := reconstructed_face_values u ug uleft uright in
  let uleft :=
    for_range nbf naf (fun a iface =>
        alter (getConservedFromPrimitive phy) iface a) uleft in
  let uright :=
    for_range nbf naf (fun a iface =>
        alter (getConservedFromPrimitive phy) iface a) uright in
  let uleft :=
    for_range 0 nbf (fun a iface =>
        alter (getConservedFromPrimitive phy) iface a) uleft in
  (ug, uleft, uright, grads).

(** Lines 962-978. *)
Definition first_order_face_states (u : MVector) (ug uleft uright : Array2d)
  : Array2d * Array2d * Array2d * GradArray :=
  let nbf := gnbface msh in
  let naf := gnaface msh in
  let uleft :=
    for_range nbf naf (fun ul ied =>
        <[ied := tabulate NVARS (fun ivar => at2 u (gintfac msh ied 0) ivar)]> ul)
      uleft in
  let uright :=
    for_range nbf naf (fun ur ied =>
        <[ied := tabulate NVARS (fun ivar => at2 u (gintfac msh ied 1) ivar)]> ur)
      uright in
  (ug, uleft, uright, []).

(** Lines 888-981: the ghost states [ug], the face states [uleft] and
    [uright] that the flux loop reads, and the cell gradients. *)
Definition face_states (u : MVector)
  : result (Array2d * Array2d * Array2d * GradArray) :=
  let ug := zeros2 (gnbface msh) NVARS in
  let uleft := boundary_left_states u in
  let uright := zeros2 (gnaface msh) NVARS in
  '(ug, uleft, uright, grads) ←
    (if secondOrderRequested E then
       ug ← compute_boundary_states uleft ug;
       mret (second_order_face_states u ug uleft uright)
     else
       mret (first_order_face_states u ug uleft uright));
  uright ← compute_boundary_states uleft uright;
  mret (ug, uleft, uright, grads).

(** The face-integrated flux of the loop body (lines 996-1020). *)
Definition face_fluxes (u : MVector) (ug : Array2d) (grads : GradArray)
    (uleft uright : Array2d) (ied : nat) : list a_real :=
  let n := [gfacemetric msh ied 0; gfacemetric msh ied 1] in
  let len := gfacemetric msh ied 2 in
  let lelem := gintfac msh ied 0 in
  let relem := gintfac msh ied 1 in
  let fluxes := get_flux (inviflux E) (row uleft ied) (row uright ied) n in
  let fluxes := tabulate NVARS (fun ivar => fluxes !!! ivar * len) in
  if viscous_sim (pconfig E) then
    let urt := if (ied <? gnbface msh)%nat then None else Some (row u relem) in
    let vflux := computeViscousFlux ied (row u lelem) urt ug grads uleft uright in
    tabulate NVARS (fun ivar => fluxes !!! ivar + vflux !!! ivar * len)
  else fluxes.

(** [specradi] and [specradj] of the loop body (lines 1037-1063). *)
Definition spectral_radii (uleft uright : Array2d) (ied : nat) : a_real * a_real :=
  let n := [gfacemetric msh ied 0; gfacemetric msh ied 1] in
  let len := gfacemetric msh ied 2 in
  let lelem := gintfac msh ied 0 in
  let relem := gintfac msh ied 1 in
  let ci := getSoundSpeedFromConserved phy (row uleft ied) in
  let cj := getSoundSpeedFromConserved phy (row uright ied) in
  let vni :=
    (at2 uleft ied 1 * n !!! 0%nat + at2 uleft ied 2 * n !!! 1%nat) / at2 uleft ied 0 in
  let vnj :=
    (at2 uright ied 1 * n !!! 0%nat + at2 uright ied 2 * n !!! 1%nat)
    / at2 uright ied 0 in
  let specradi := (fabs vni + ci) * len in
  let specradj := (fabs vnj + cj) * len in
  if viscous_sim (pconfig E) then
    let mui :=
      if constVisc E then getConstantViscosityCoeff phy
      else getViscosityCoeffFromConserved phy (row uleft ied) in
    let muj :=
      if constVisc E then getConstantViscosityCoeff phy
      else getViscosityCoeffFromConserved phy (row uright ied) in
    let coi := std_max (4.0 / (3 * at2 uleft ied 0)) (g phy / at2 uleft ied 0) in
    let coj := std_max (4.0 / (3 * at2 uright ied 0)) (g phy / at2 uright ied 0) in
    (specradi + coi * mui / Pr phy * len * len / garea msh lelem,
     if (relem <? gnelem msh)%nat
     then specradj + coj * muj / Pr phy * len * len / garea msh relem
     else specradj)
  else (specradi, specradj).

(** [residual(elem,ivar) -= fluxes[ivar]] and [+=], for all [ivar]. *)
Definition subtract_fluxes (fluxes : list a_real) (elem : nat) (residual : MVector)
  : MVector :=
  for_range 0 NVARS (fun r ivar =>
      alter (alter (fun x => x - fluxes !!! ivar) ivar) elem r)
    residual.

Definition add_fluxes (fluxes : list a_real) (elem : nat) (residual : MVector)
  : MVector :=
  for_range 0 NVARS (fun r ivar =>
      alter (alter (fun x => x + fluxes !!! ivar) ivar) elem r)
    residual.

(** One iteration of the face loop, on [(residual, integ)]. *)
Definition residual_face (u : MVector) (ug : Array2d) (grads : GradArray)
    (uleft uright : Array2d) (gettimesteps : bool)
    (st : MVector * list a_real) (ied : nat) : MVector * list a_real :=
  let lelem := gintfac msh ied 0 in
  let relem := gintfac msh ied 1 in
  let fluxes := face_fluxes u ug grads uleft uright ied in
  let residual := subtract_fluxes fluxes lelem (fst st) in
  let residual :=
    if (relem <? gnelem msh)%nat then add_fluxes fluxes relem residual
    else residual in
  let integ :=
    if gettimesteps then
      let specrad := spectral_radii uleft uright ied in
      let integ := alter (fun x => x + fst specrad) lelem (snd st) in
      if (relem <? gnelem msh)%nat
      then alter (fun x => x + snd specrad) relem integ
      else integ
    else snd st in
  (residual, integ).

(** [uarr] and [rarr] are seen through the [gnelem] x NVARS Eigen maps
    the function builds over them. Returns the status, the residual
    array and [dtm]. *)
Definition compute_residual (uarr rarr : MVector) (gettimesteps : bool)
    (dtm : list a_real) : result (StatusCode * MVector * list a_real) :=
  let integ :=
    for_range 0 (gnelem msh) (fun a iel => <[iel := 0]> a) (zeros (gnelem msh)) in
  '(ug, uleft, uright, grads) ← face_states uarr;
  let st :=
    for_range 0 (gnaface msh)
      (residual_face uarr ug grads uleft uright gettimesteps) (rarr, integ) in
  let dtm :=
    if gettimesteps then
      for_range 0 (gnelem msh) (fun d iel =>
          <[iel := garea msh iel / snd st !!! iel]> d)
        dtm
    else dtm in
  mret (0%Z, fst st, dtm).

(** *** [compute_jacobian] *)

Definition with_viscous_jacobian (iface : nat) (ul ur : list a_real)
    (lr : list a_real * list a_real) : list a_real * list a_real :=
  if viscous_sim (pconfig E)
  then computeViscousFluxJacobian iface ul ur (fst lr) (snd lr)
  else lr.

(** The body of the boundary-face loop (lines 1103-1139). *)
Definition jacobian_boundary_face (uarr : list a_real) (A : Mat) (iface : nat)
  : result Mat :=
  let lelem := gintfac msh iface 0 in
  let n := [gfacemetric msh iface 0; gfacemetric msh iface 1] in
  let len := gfacemetric msh iface 2 in
  '(uface, drdl) ← compute_boundary_Jacobian iface (cell uarr lelem);
  let lr := get_jacobian (jflux E) (cell uarr lelem) uface n in
  let lr := with_viscous_jacobian iface (cell uarr lelem) uface lr in
  let left := scalar_times (- len) (mat_sub (fst lr) (mat_mul (snd lr) drdl)) in
  mret (MatSetValuesBlocked A lelem lelem left).

(** The body of the interior-face loop (lines 1142-1184). *)
Definition jacobian_interior_face (uarr : list a_real) (A : Mat) (iface : nat) : Mat :=
  let lelem := gintfac msh iface 0 in
  let relem := gintfac msh iface 1 in
  let n := [gfacemetric msh iface 0; gfacemetric msh iface 1] in
  let len := gfacemetric msh iface 2 in
  let lu := get_jacobian (jflux E) (cell uarr lelem) (cell uarr relem) n in
  let lu := with_viscous_jacobian iface (cell uarr lelem) (cell uarr relem) lu in
  let L := times_scalar (fst lu) len in
  let U := times_scalar (snd lu) len in
  let A := MatSetValuesBlocked A relem lelem L in
  let A := MatSetValuesBlocked A lelem relem U in
  let L := times_scalar L (-1.0) in
  let U := times_scalar U (-1.0) in
  let A := MatSetValuesBlocked A lelem lelem L in
  MatSetValuesBlocked A relem relem U.

(** [CHKERRQ] returns a non-zero status at once; the statuses of the
    [MatSetValuesBlocked] calls are overwritten and never looked at. The
    boundary faces come first, then the interior faces. *)
Definition compute_jacobian (uvec : Vec) (A : Mat) : result (StatusCode * Mat) :=
  let ierr := VecGetLocalSize_status uvec in
  if negb (ierr =? 0)%Z then mret (ierr, A)
  else
    let locnelem := length (local_array uvec) in
    if negb (locnelem mod NVARS =? 0)%nat then Throw assertion_failure
    else
      let locnelem := (locnelem / NVARS)%nat in
      if negb (locnelem =? gnelem msh)%nat then Throw assertion_failure
      else
        let ierr := VecGetArray_status uvec in
        if negb (ierr =? 0)%Z then mret (ierr, A)
        else
          let uarr := local_array uvec in
          A ← foldM (jacobian_boundary_face uarr) (seq 0 (gnbface msh)) A;
          let A :=
            for_range (gnbface msh) (gnaface msh) (jacobian_interior_face uarr) A in
          mret (VecRestoreArray_status uvec, A).

End FlowFV.

(** ** The factories of [afactory.cpp] *)

(** The objects a factory allocates; a null pointer is [None]. What a
    factory prints on [std::cout] is returned with the pointer. *)
Inductive InviscidFluxObject : Type :=
  | VanLeerFlux (p : IdealGasPhysics)
  | RoeFlux (p : IdealGasPhysics)
  | HLLFlux (p : IdealGasPhysics)
  | HLLCFlux (p : IdealGasPhysics)
  | LocalLaxFriedrichsFlux (p : IdealGasPhysics)
  | AUSMFlux (p : IdealGasPhysics)
  | AUSMPlusFlux (p : IdealGasPhysics).

Inductive GradientSchemeObject : Type :=
  | WeightedLeastSquaresGradients (m : UMesh2dh) (rc : Array2d)
  | GreenGaussGradients (m : UMesh2dh) (rc : Array2d)
  | ZeroGradients (m : UMesh2dh) (rc : Array2d).

Definition endl : string := String (Ascii.ascii_of_nat 10) EmptyString.

Definition create_mutable_inviscidflux (type : string) (p : IdealGasPhysics)
  : result (option InviscidFluxObject * string) :=
  if String.eqb type "VANLEER" then
    Ok (Some (VanLeerFlux p), " InviscidFluxFactory: Using Van Leer fluxes." ++ endl)%string
  else if String.eqb type "ROE" then
    Ok (Some (RoeFlux p), " InviscidFluxFactory: Using Roe fluxes." ++ endl)%string
  else if String.eqb type "HLL" then
    Ok (Some (HLLFlux p), " InviscidFluxFactory: Using HLL fluxes." ++ endl)%string
  else if String.eqb type "HLLC" then
    Ok (Some (HLLCFlux p), " InviscidFluxFactory: Using HLLC fluxes." ++ endl)%string
  else if String.eqb type "LLF" then
    Ok (Some (LocalLaxFriedrichsFlux p),
        " InviscidFluxFactory: Using LLF fluxes." ++ endl)%string
  else if String.eqb type "AUSM" then
    Ok (Some (AUSMFlux p), " InviscidFluxFactory: Using AUSM fluxes." ++ endl)%string
  else if String.eqb type "AUSMPLUS" then
    Ok (Some (AUSMPlusFlux p), " InviscidFluxFactory: Using AUSM+ fluxes." ++ endl)%string
  else
    Ok (None, " InviscidFluxFactory: ! Flux scheme not available!" ++ endl)%string.

Definition create_const_inviscidflux (type : string) (p : IdealGasPhysics)
  : result (option InviscidFluxObject * string) :=
  create_mutable_inviscidflux type p.

Definition create_mutable_gradientscheme (type : string) (m : UMesh2dh)
    (rc : Array2d) : result (GradientSchemeObject * string) :=
  if String.eqb type "LEASTSQUARES" then
    Ok (WeightedLeastSquaresGradients m rc,
        " GradientSchemeFactory: Weighted least-squares gradients will be used."
          ++ endl)%string
  else if String.eqb type "GREENGAUSS" then
    Ok (GreenGaussGradients m rc,
        " GradientSchemeFactory: Green-Gauss gradients will be used." ++ endl)%string
  else
    Ok (ZeroGradients m rc,
        " GradientSchemeFactory: No gradient computation." ++ endl)%string.

Definition create_const_gradientscheme (type : string) (m : UMesh2dh)
    (rc : Array2d) : result (GradientSchemeObject * string) :=
  create_mutable_gradientscheme type m rc.

(** The flux names the factory recognizes, and the gradient-scheme names
    it tells apart. *)
Definition recognized_fluxes : list string :=
  ["VANLEER"; "ROE"; "HLL"; "HLLC"; "LLF"; "AUSM"; "AUSMPLUS"]%string.

(** ** A runnable engine: a periodic channel of three cells

    The numerical components that are defined outside aspatial.cpp and
    afactory.cpp are written out from the specification, so that the
    engine can be run on a concrete mesh. *)

Module Channel.

Definition gamma : a_real := 1.4.
Definition Minf : a_real := 0.5.

Definition pressure (u : list a_real) : a_real :=
  (gamma - 1) * (u !!! 3%nat
                 - 0.5 * (u !!! 1%nat * u !!! 1%nat + u !!! 2%nat * u !!! 2%nat)
                   / u !!! 0%nat).

Definition temperature (rho p : a_real) : a_real := gamma * Minf * Minf * p / rho.

Definition prim_from_cons (u : list a_real) : list a_real :=
  [u !!! 0%nat; u !!! 1%nat / u !!! 0%nat; u !!! 2%nat / u !!! 0%nat; pressure u].

Definition cons_from_prim (p : list a_real) : list a_real :=
  [p !!! 0%nat; p !!! 0%nat * p !!! 1%nat; p !!! 0%nat * p !!! 2%nat;
   p !!! 3%nat / (gamma - 1)
   + 0.5 * p !!! 0%nat * (p !!! 1%nat * p !!! 1%nat + p !!! 2%nat * p !!! 2%nat)].

Definition prim2_from_cons (u : list a_real) : list a_real :=
  [u !!! 0%nat; u !!! 1%nat / u !!! 0%nat; u !!! 2%nat / u !!! 0%nat;
   temperature (u !!! 0%nat) (pressure u)].

Definition speed_of_sound (u : list a_real) : a_real :=
  PrimFloat.sqrt (gamma * pressure u / u !!! 0%nat).

Definition stress_tensor (mu : a_real) (grad : Array2d) : Array2d :=
  let dv (i j : nat) := at2 grad j (i + 1) in
  let div := dv 0%nat 0%nat + dv 1%nat 1%nat in
  tabulate NDIM (fun i => tabulate NDIM (fun j =>
    mu * (dv i j + dv j i - (if (i =? j)%nat then 2.0 / 3.0 * div else 0)))).

(** Modelled from the spec: class [IdealGasPhysics] (physics/aphysics.hpp)
    is missing from the sources. The values of the gas model of the
    specification; its failure with numeric-invalid on a speed of sound
    of a state with rho <= 0 or p <= 0 is that of
    [FailingChannel.ideal_gas], whose members may throw. The values are
    the conversions between conserved (rho, rho u, rho v, rho E) and
    primitive (rho, u, v, p) or (rho, u, v, T) variables, the speed of
    sound, a constant viscosity, the thermal conductivity
    mu gamma / (Pr (gamma - 1)), the stress tensor
    mu (grad v + grad v^T - 2/3 tr(grad v) I), a free-stream pressure
    1/gamma. The Jacobians of the viscous terms, which an inviscid run
    never calls, hand back their output arrays untouched. *)
Definition ideal_gas : IdealGasPhysics := {|
  g := gamma;
  Pr := 0.72;
  getFreestreamPressure := 1 / gamma;
  getConstantViscosityCoeff := 0.01;
  getPressureFromConserved := pressure;
  getSoundSpeedFromConserved := speed_of_sound;
  getViscosityCoeffFromConserved := fun _ => 0.01;
  getThermalConductivityFromViscosity := fun mu => mu * gamma / (0.72 * (gamma - 1));
  getPrimitiveFromConserved := prim_from_cons;
  getConservedFromPrimitive := cons_from_prim;
  getPrimitive2FromConserved := prim2_from_cons;
  getTemperature := temperature;
  getGradTemperature := fun rho drho p dp =>
    gamma * Minf * Minf * (dp * rho - p * drho) / (rho * rho);
  getStressTensor := fun mu grad _ => stress_tensor mu grad;
  getJacobianPrimitive2WrtConserved := fun _ jac => jac;
  getJacobianSutherlandViscosityWrtConserved := fun _ dmu => dmu;
  getJacobianThermCondWrtConservedFromJacobianSutherViscWrtConserved :=
    fun _ dk => dk;
  getJacobianStress := fun _ _ _ _ stress dstress => (stress, dstress)
|}.

Definition normal_velocity (u n : list a_real) : a_real :=
  (u !!! 1%nat * n !!! 0%nat + u !!! 2%nat * n !!! 1%nat) / u !!! 0%nat.

Definition euler_flux (u n : list a_real) : list a_real :=
  let vn := normal_velocity u n in
  let p := pressure u in
  [u !!! 0%nat * vn;
   u !!! 1%nat * vn + p * n !!! 0%nat;
   u !!! 2%nat * vn + p * n !!! 1%nat;
   (u !!! 3%nat + p) * vn].

Definition euler_flux_jacobian (u n : list a_real) : list a_real :=
  let vx := u !!! 1%nat / u !!! 0%nat in
  let vy := u !!! 2%nat / u !!! 0%nat in
  let nx := n !!! 0%nat in
  let ny := n !!! 1%nat in
  let vn := vx * nx + vy * ny in
  let q2 := vx * vx + vy * vy in
  let H := (u !!! 3%nat + pressure u) / u !!! 0%nat in
  let g1 := gamma - 1 in
  [0; nx; ny; 0;
   0.5 * g1 * q2 * nx - vx * vn; vn + vx * nx - g1 * vx * nx;
     vx * ny - g1 * vy * nx; g1 * nx;
   0.5 * g1 * q2 * ny - vy * vn; vy * nx - g1 * vx * ny;
     vn + vy * ny - g1 * vy * ny; g1 * ny;
   (0.5 * g1 * q2 - H) * vn; H * nx - g1 * vx * vn; H * ny - g1 * vy * vn;
     gamma * vn].

Definition lambda_max (ul ur n : list a_real) : a_real :=
  std_max (fabs (normal_velocity ul n) + speed_of_sound ul)
          (fabs (normal_velocity ur n) + speed_of_sound ur).

Definition identity_block : list a_real :=
  tabulate block_size (fun k => if (k / NVARS =? k mod NVARS)%nat then 1 else 0).

(** Modelled from the spec: class [LocalLaxFriedrichsFlux] is declared in
    anumericalflux.hpp; its member functions are missing from the sources. The
    Rusanov flux 1/2 (F(uL) + F(uR)) - 1/2 lambda_max (uR - uL) with
    lambda_max the larger of |vn| + c over the two states, and its
    Jacobian with lambda_max frozen; as the header says, [dfdl] is the
    negative of the derivative with respect to the left state. *)
Definition LLF : InviscidFlux := {|
  get_flux := fun ul ur n =>
    let lam := lambda_max ul ur n in
    tabulate NVARS (fun k =>
      0.5 * (euler_flux ul n !!! k + euler_flux ur n !!! k)
      - 0.5 * lam * (ur !!! k - ul !!! k));
  get_jacobian := fun ul ur n =>
    let lam := lambda_max ul ur n in
    (tabulate block_size (fun k =>
       - (0.5 * euler_flux_jacobian ul n !!! k + 0.5 * lam * identity_block !!! k)),
     tabulate block_size (fun k =>
       0.5 * euler_flux_jacobian ur n !!! k - 0.5 * lam * identity_block !!! k))
|}.

(** Modelled from the spec: the boundary-condition classes are declared
    in abc.hpp; their member functions are missing from the sources. Slip wall:
    the velocity is reflected about the face, density and energy are
    kept. *)
Definition Slipwall : FlowBC :=
  let ghost (u n : list a_real) : list a_real :=
    let vnm := u !!! 1%nat * n !!! 0%nat + u !!! 2%nat * n !!! 1%nat in
    [u !!! 0%nat; u !!! 1%nat - 2 * vnm * n !!! 0%nat;
     u !!! 2%nat - 2 * vnm * n !!! 1%nat; u !!! 3%nat] in
  {| computeGhostState := ghost;
     computeGhostStateAndJacobian := fun u n =>
       let nx := n !!! 0%nat in
       let ny := n !!! 1%nat in
       (ghost u n,
        [1; 0; 0; 0;
         0; 1 - 2 * nx * nx; - (2 * nx * ny); 0;
         0; - (2 * nx * ny); 1 - 2 * ny * ny; 0;
         0; 0; 0; 1]) |}.

(** Modelled from the spec: extrapolation, the ghost state is the interior
    state (abc.hpp declares the class; its member functions are missing
    from the sources). *)
Definition Extrapolation : FlowBC :=
  {| computeGhostState := fun u _ => tabulate NVARS (fun k => u !!! k);
     computeGhostStateAndJacobian := fun u _ =>
       (tabulate NVARS (fun k => u !!! k), identity_block) |}.

Definition face_midpoint (m : UMesh2dh) (ied : nat) : list a_real :=
  tabulate NDIM (fun j =>
    0.5 * (gcoords m (gintfac m ied 2) j + gcoords m (gintfac m ied 3) j)).

Definition distance (a b : list a_real) : a_real :=
  PrimFloat.sqrt
    (for_range 0 NDIM (fun s j => s + (a !!! j - b !!! j) * (a !!! j - b !!! j)) 0).

(** Modelled from the spec: class [GreenGaussGradients] is declared in
    agradientschemes.hpp; its member functions are missing from the sources. The
    gradient in cell c is 1/|c| times the sum over its faces of
    phi_f n_f l_f, with phi_f the inverse-distance weighted average of the
    two cell values at the face (cell and ghost at a boundary face). *)
Definition GreenGauss (m : UMesh2dh) (rc : Array2d) : GradientScheme := {|
  compute_gradients := fun unk unkg _ =>
    let face_value (ied i : nat) : a_real :=
      let lelem := gintfac m ied 0 in
      let relem := gintfac m ied 1 in
      let dl := distance (face_midpoint m ied) (row rc lelem) in
      let dr := distance (face_midpoint m ied) (row rc relem) in
      let phir :=
        if (ied <? gnbface m)%nat then at2 unkg ied i else at2 unk relem i in
      (at2 unk lelem i / dl + phir / dr) / (1 / dl + 1 / dr) in
    tabulate (gnelem m) (fun c => tabulate NDIM (fun j => tabulate NVARS (fun i =>
      for_range 0 (gnaface m) (fun s ied =>
          let t := face_value ied i * gfacemetric m ied j * gfacemetric m ied 2 in
          if (gintfac m ied 0 =? c)%nat then s + t
          else if (gintfac m ied 1 =? c)%nat then s - t
          else s)
        0
      / garea m c)))
|}.

(** Modelled from the spec: class [LinearUnlimitedReconstruction], which
    is missing from the sources: the left face value is
    u_cL + grad u_cL . (r_f - r_cL), and symmetrically on the right of an
    interior face; [gr] holds the Gauss point r_f of each face. *)
Definition LinearUnlimited (m : UMesh2dh) (rc : Array2d) (gr : GradArray)
  : SolutionReconstruction := {|
  compute_face_values := fun u _ grads ufl ufr =>
    let extrapolate (elem ied : nat) : list a_real :=
      tabulate NVARS (fun i =>
        at2 u elem i
        + for_range 0 NDIM (fun s j =>
              s + at3 grads elem j i * (at3 gr ied 0 j - at2 rc elem j)) 0) in
    (for_range 0 (gnaface m) (fun a ied =>
         <[ied := extrapolate (gintfac m ied 0) ied]> a) ufl,
     for_range (gnbface m) (gnaface m) (fun a ied =>
         <[ied := extrapolate (gintfac m ied 1) ied]> a) ufr)
|}.

(** Three unit square cells in a row. Faces 0-7 are the boundary, taken
    counter-clockwise from the bottom of cell 0; faces 3 (right end) and
    7 (left end) carry the periodic marker 4 and are paired; the others
    are slip walls, marker 2. Faces 8 and 9 are interior. *)
Definition nodes : Array2d :=
  [[0; 0]; [1; 0]; [2; 0]; [3; 0]; [3; 1]; [2; 1]; [1; 1]; [0; 1]].

Definition inpoel : list (list nat) :=
  [[0; 1; 6; 7]; [1; 2; 5; 6]; [2; 3; 4; 5]]%nat.

Definition intfac : list (list nat) :=
  [[0; 3; 0; 1]; [1; 4; 1; 2]; [2; 5; 2; 3]; [2; 6; 3; 4];
   [2; 7; 4; 5]; [1; 8; 5; 6]; [0; 9; 6; 7]; [0; 10; 7; 0];
   [0; 1; 1; 6]; [1; 2; 2; 5]]%nat.

Definition facemetric : Array2d :=
  [[0; -1; 1]; [0; -1; 1]; [0; -1; 1]; [1; 0; 1];
   [0; 1; 1]; [0; 1; 1]; [0; 1; 1]; [-1; 0; 1];
   [1; 0; 1]; [1; 0; 1]].

Definition btags : list Z := [2; 2; 2; 4; 2; 2; 2; 4]%Z.

Definition periodicmap : list nat := [0; 0; 0; 7; 0; 0; 0; 3]%nat.

Definition mesh : UMesh2dh := {|
  gnelem := 3;
  gnbface := 8;
  gnaface := 10;
  gnnofa := 2;
  gnnode := fun _ => 4%nat;
  ginpoel := fun c i => (inpoel !!! c) !!! i;
  gintfac := fun f k => (intfac !!! f) !!! k;
  gfacemetric := fun f k => at2 facemetric f k;
  gnormal := fun f => [at2 facemetric f 0; at2 facemetric f 1];
  garea := fun _ => 1;
  gintfacbtags := fun f _ => btags !!! f;
  gperiodicmap := fun f => periodicmap !!! f;
  gcoords := fun p k => at2 nodes p k
|}.

(** The registry: a slip wall under marker 2; the periodic marker 4 needs
    an entry as well, whose ghost state the engine then overwrites. *)
Definition registry : gmap Z FlowBC :=
  <[4%Z := Extrapolation]> (<[2%Z := Slipwall]> ∅).

Definition engine (order2 : bool) : FlowFV := {|
  m := mesh;
  rc := Spatial_rc mesh;
  pconfig := {| viscous_sim := false; aoa := 0; periodic_id := 4 |};
  physics := ideal_gas;
  inviflux := LLF;
  jflux := LLF;
  gradcomp := GreenGauss mesh (Spatial_rc mesh);
  lim := LinearUnlimited mesh (Spatial_rc mesh) (Spatial_gr mesh);
  bcs := registry;
  secondOrderRequested := order2;
  constVisc := true
|}.

(** A stand-in for <cmath>: the Taylor polynomials of degree 9 and 8. *)
Definition libm : cmath := {|
  cos := fun x =>
    let x2 := x * x in
    1 - x2 / 2 * (1 - x2 / 12 * (1 - x2 / 30 * (1 - x2 / 56)));
  sin := fun x =>
    let x2 := x * x in
    x * (1 - x2 / 6 * (1 - x2 / 20 * (1 - x2 / 42 * (1 - x2 / 72))))
|}.

(** Cell states (rho, rho u, rho v, rho E): a flow along the channel
    whose density doubles from cell to cell, and the same field with a
    negative density in cell 0. *)
Definition u0 : MVector := [[1; 0.5; 0; 2.5]; [2; 1; 0; 5]; [4; 2; 0; 10]].
Definition u_negative : MVector := [[-1; 0.5; 0; 2.5]; [2; 1; 0; 5]; [4; 2; 0; 10]].

(** The ghost states, face states and gradients of an evaluation at [u0]. *)
Definition states (order2 : bool) : Array2d * Array2d * Array2d * GradArray :=
  match face_states (engine order2) u0 with
  | Ok s => s
  | Throw _ => ([], [], [], [])
  end.
Definition uright_of (order2 : bool) : Array2d := snd (fst (states order2)).
Definition grads_of (order2 : bool) : GradArray := snd (states order2).

(** A uniform flow along the channel. *)
Definition u_uniform : MVector := replicate 3 [1; 0.5; 0; 2.5].

(** The PETSc vector of a field of cell states, every call on it
    succeeding. *)
Definition vec (u : MVector) : Vec := {|
  local_array := concat u;
  VecGetLocalSize_status := 0%Z;
  VecGetArray_status := 0%Z;
  VecRestoreArray_status := 0%Z
|}.

Definition r_zero : MVector := zeros2 3 NVARS.
Definition r_one : MVector := replicate 3 (replicate NVARS 1).

End Channel.

(** ** The statements of the specification, in its own words *)

(** *** Modified-average face gradient (spec 4.6.2) *)

Section Face_gradient_spec.
Context (m : UMesh2dh) (rc : Array2d) (iface : nat).

(** The distance d between the centres of the two cells of the face. *)
Definition centroid_distance : a_real :=
  let dx := at2 rc (gintfac m iface 1) 0 - at2 rc (gintfac m iface 0) 0 in
  let dy := at2 rc (gintfac m iface 1) 1 - at2 rc (gintfac m iface 0) 1 in
  PrimFloat.sqrt (0 + dx * dx + dy * dy).

(** Component j of the unit vector e from the left to the right centre. *)
Definition unit_direction (j : nat) : a_real :=
  (at2 rc (gintfac m iface 1) j - at2 rc (gintfac m iface 0) j) / centroid_distance.

(** g_avg: the arithmetic mean of the two cell gradients of variable i. *)
Definition average_gradient (gradl gradr : Array2d) (i j : nat) : a_real :=
  0.5 * (at2 gradl j i + at2 gradr j i).

(** corr = (phi_R - phi_L) / d. *)
Definition compact_difference (ucl ucr : list a_real) (i : nat) : a_real :=
  (ucr !!! i - ucl !!! i) / centroid_distance.

(** g_face_j = g_avg_j - (g_avg . e) e_j + corr e_j. *)
Definition modified_average (ucl ucr : list a_real) (gradl gradr : Array2d)
    (i j : nat) : a_real :=
  let g_avg := average_gradient gradl gradr i in
  let along := 0 + g_avg 0%nat * unit_direction 0 + g_avg 1%nat * unit_direction 1 in
  g_avg j - along * unit_direction j + compact_difference ucl ucr i * unit_direction j.

End Face_gradient_spec.

(** *** Ghost states of a residual evaluation (spec 3, 4.3, 4.6.1) *)

Section Ghost_state_spec.
Context (E : FlowFV) (u : MVector) (ug uleft uright : Array2d).

(** The cell-centred conserved state of the left cell of face [f]. *)
Definition left_cell_state (f : nat) : list a_real :=
  tabulate NVARS (fun ivar => at2 u (gintfac (m E) f 0) ivar).

(** The left face values of the reconstruction, in primitive variables. *)
Definition reconstructed_left_values : Array2d :=
  fst (fst (reconstructed_face_values E u ug (boundary_left_states E u)
              (zeros2 (gnaface (m E)) NVARS))).

(** The ghost state that the boundary treatment of face [f] derives from
    an array [ins] of left states: the ghost state of the boundary
    condition [bc] at row [f], or, on a periodic face, the copy of the row
    of the paired face. *)
Definition ghost_state_from (bc : FlowBC) (ins : Array2d) (f : nat) : list a_real :=
  if is_periodic E f
  then tabulate NVARS (fun i => at2 ins (gperiodicmap (m E) f) i)
  else computeGhostState bc (row ins f) (gnormal (m E) f).

(** The ghost states of a periodic face [f], paired with face
    [gperiodicmap f]: the right state of the flux is the left face state
    of the paired face. In a first-order run that is the state of the
    paired face's left cell. In a second-order run the ghost state [ug]
    of the gradient computation is that cell state (in primitive
    variables), and the left face state of the paired face is its
    reconstructed value. *)
Definition periodic_ghost_states (f i : nat) : Prop :=
  let pf := gperiodicmap (m E) f in
  at2 uright f i = at2 uleft pf i /\
  if secondOrderRequested E then
    row ug f = getPrimitiveFromConserved (physics E) (left_cell_state pf) /\
    row uleft pf
    = getConservedFromPrimitive (physics E) (row reconstructed_left_values pf)
  else
    at2 uright f i = at2 u (gintfac (m E) pf 0) i.

End Ghost_state_spec.

(** *** Boundary faces of a second-order evaluation (spec 4.6.1) *)

Section Second_order_spec.
Context (E : FlowFV) (u : MVector).

(** The left states before the reconstruction: the state of the left
    cell at a boundary face, zeros elsewhere. *)
Definition cell_left_states : Array2d :=
  tabulate (gnaface (m E)) (fun f =>
    if (f <? gnbface (m E))%nat then left_cell_state E u f else zeros NVARS).

(** The boundary treatment of face [f] on the left states [ins], with the
    boundary condition registered under the marker of the face. *)
Definition registered_treatment (ins : Array2d) (f : nat) : list a_real :=
  match bcs E !! gintfacbtags (m E) f 0 with
  | Some bc => ghost_state_from E bc ins f
  | None => zeros NVARS
  end.

(** The ghost states of the gradient computation: the boundary treatment
    of the cell states, in primitive variables. *)
Definition gradient_ghost_states : Array2d :=
  tabulate (gnbface (m E)) (fun f =>
    getPrimitiveFromConserved (physics E) (registered_treatment cell_left_states f)).

(** The cell states in primitive variables. *)
Definition primitive_cells : MVector :=
  tabulate (gnelem (m E)) (fun c => getPrimitiveFromConserved (physics E) (row u c)).

(** The gradients of the primitive variables, and the limited face values
    that the reconstruction derives from them. *)
Definition cell_gradients : GradArray :=
  compute_gradients (gradcomp E) primitive_cells gradient_ghost_states
    (replicate (gnelem (m E)) (zeros2 NDIM NVARS)).

Definition limited_face_values : Array2d * Array2d :=
  compute_face_values (lim E) primitive_cells gradient_ghost_states cell_gradients
    cell_left_states (zeros2 (gnaface (m E)) NVARS).

(** The reconstructed left value of each face, back in conserved
    variables. *)
Definition reconstructed_left_states : Array2d :=
  tabulate (gnaface (m E)) (fun f =>
    getConservedFromPrimitive (physics E) (row (fst limited_face_values) f)).

(** The inviscid numerical flux through boundary face [f], integrated
    over the face: its left state is the reconstructed left value, its
    right state the boundary treatment of the reconstructed left values
    with the boundary condition [bc]. *)
Definition boundary_inviscid_flux (bc : FlowBC) (f : nat) : list a_real :=
  let ul := row reconstructed_left_states f in
  let ur := ghost_state_from E bc reconstructed_left_states f in
  let flux :=
    get_flux (inviflux E) ul ur [gfacemetric (m E) f 0; gfacemetric (m E) f 1] in
  tabulate NVARS (fun ivar => flux !!! ivar * gfacemetric (m E) f 2).

End Second_order_spec.

(** *** Residual accumulation and local time steps (spec 4.6.1) *)

Section Residual_spec.
Context (E : FlowFV) (u : MVector) (ug : Array2d) (grads : GradArray)
  (uleft uright : Array2d).

(** (|vn| + c) l, for the state [us] on its side of face [f]. *)
Definition convective_radius (us : list a_real) (f : nat) : a_real :=
  (fabs ((us !!! 1%nat * gfacemetric (m E) f 0 + us !!! 2%nat * gfacemetric (m E) f 1)
         / us !!! 0%nat)
   + getSoundSpeedFromConserved (physics E) us)
  * gfacemetric (m E) f 2.

(** max(4/(3 rho), gamma/rho) mu/Pr l^2/|Omega_c|, for cell [c]. *)
Definition viscous_stiffness (us : list a_real) (f c : nat) : a_real :=
  let mu :=
    if constVisc E then getConstantViscosityCoeff (physics E)
    else getViscosityCoeffFromConserved (physics E) us in
  std_max (4.0 / (3 * us !!! 0%nat)) (g (physics E) / us !!! 0%nat)
  * mu / Pr (physics E) * gfacemetric (m E) f 2 * gfacemetric (m E) f 2
  / garea (m E) c.

(** What face [f] adds to the integrator of an incident cell [c]. *)
Definition spectral_radius (us : list a_real) (f c : nat) : a_real :=
  if viscous_sim (pconfig E)
  then convective_radius us f + viscous_stiffness us f c
  else convective_radius us f.

(** Face [f] is incident to cell [c] on its left, and on its right when
    the right cell is a real cell. *)
Definition left_of (f c : nat) : bool := (gintfac (m E) f 0 =? c)%nat.
Definition right_of (f c : nat) : bool :=
  (gintfac (m E) f 1 <? gnelem (m E))%nat && (gintfac (m E) f 1 =? c)%nat.

Definition face_radii (c f : nat) : list a_real :=
  (if left_of f c then [spectral_radius (row uleft f) f c] else [])
  ++ (if right_of f c then [spectral_radius (row uright f) f c] else []).

(** The integral s[c]: the contributions of the faces incident to [c],
    summed from zero in face order. *)
Definition spectral_radius_integral (c : nat) : a_real :=
  fold_left (fun s x => s + x) (flat_map (face_radii c) (seq 0 (gnaface (m E)))) 0.

(** Subtracting and adding the integrated flux of a face to a row of the
    residual, variable by variable. *)
Definition minus_fluxes (fluxes row : list a_real) : list a_real :=
  for_range 0 NVARS (fun r ivar => alter (fun x => x - fluxes !!! ivar) ivar r) row.
Definition plus_fluxes (fluxes row : list a_real) : list a_real :=
  for_range 0 NVARS (fun r ivar => alter (fun x => x + fluxes !!! ivar) ivar r) row.

Definition face_increments (c f : nat) : list (list a_real -> list a_real) :=
  (if left_of f c then [minus_fluxes (face_fluxes E u ug grads uleft uright f)]
   else [])
  ++ (if right_of f c then [plus_fluxes (face_fluxes E u ug grads uleft uright f)]
      else []).

(** Row [c] of the residual after the face loop, from its contents
    [row0] before the call: the increments of the incident faces, applied
    in face order. *)
Definition accumulated_row (c : nat) (row0 : list a_real) : list a_real :=
  fold_left (fun r upd => upd r)
    (flat_map (face_increments c) (seq 0 (gnaface (m E)))) row0.

End Residual_spec.

(** *** Surface coefficients (spec 4.6.4) *)

Section Surface_spec.
Context (E : FlowFV) (lm : cmath) (u : MVector) (grad : GradArray) (iwbcm : Z).

(** The boundary faces that carry the marker, in face order. *)
Definition wall_faces : list nat :=
  List.filter (fun f => Z.eqb (gintfacbtags (m E) f 0) iwbcm)
    (seq 0 (gnbface (m E))).

(** The unit vector along the free stream, (cos alpha, sin alpha), and the
    unit vector normal to it, (-sin alpha, cos alpha). *)
Definition flow_direction : list a_real :=
  [cos lm (aoa (pconfig E)); sin lm (aoa (pconfig E))].
Definition flow_normal : list a_real :=
  [- sin lm (aoa (pconfig E)); cos lm (aoa (pconfig E))].

Definition face_length (f : nat) : a_real := gfacemetric (m E) f 2.

(** Cp = 2 (p - p_inf), from the state of the left cell. *)
Definition pressure_coefficient (f : nat) : a_real :=
  (getPressureFromConserved (physics E) (row u (gintfac (m E) f 0))
   - getFreestreamPressure (physics E)) * 2.0.

(** The derivative along direction [j] of velocity component [i] in the
    left cell, by the quotient rule on momentum over density. *)
Definition velocity_gradient (f i j : nat) : a_real :=
  let c := gintfac (m E) f 0 in
  (at3 grad c j (i + 1) * at2 u c 0 - at2 u c (i + 1) * at3 grad c j 0)
  / (at2 u c 0 * at2 u c 0).

(** tau_w with the tangent t = (n_y, -n_x), and Cf = 2 tau_w. *)
Definition wall_shear_stress (f : nat) : a_real :=
  let nx := gfacemetric (m E) f 0 in
  let ny := gfacemetric (m E) f 1 in
  let du := velocity_gradient f in
  getViscosityCoeffFromConserved (physics E) (row u (gintfac (m E) f 0))
  * ((2.0 * du 0%nat 0%nat * nx + (du 0%nat 1%nat + du 1%nat 0%nat) * ny) * ny
     + ((du 1%nat 0%nat + du 0%nat 1%nat) * nx + 2.0 * du 1%nat 1%nat * ny) * (- nx)).

Definition friction_coefficient (f : nat) : a_real := 2.0 * wall_shear_stress f.

(** The projections n . f, n . f_perp and t . f of a face. *)
Definition normal_along_flow (f : nat) : a_real :=
  gfacemetric (m E) f 0 * flow_direction !!! 0%nat
  + gfacemetric (m E) f 1 * flow_direction !!! 1%nat.
Definition normal_across_flow (f : nat) : a_real :=
  gfacemetric (m E) f 0 * flow_normal !!! 0%nat
  + gfacemetric (m E) f 1 * flow_normal !!! 1%nat.
Definition tangent_along_flow (f : nat) : a_real :=
  gfacemetric (m E) f 1 * flow_direction !!! 0%nat
  - gfacemetric (m E) f 0 * flow_direction !!! 1%nat.

(** A sum over the wall faces, in face order, starting from [s0]. *)
Definition wall_sum (term : nat -> a_real) (faces : list nat) (s0 : a_real) : a_real :=
  fold_left (fun s f => s + term f) faces s0.

Definition total_wall_length : a_real := wall_sum face_length wall_faces 0.

Definition lift_coefficient : a_real :=
  wall_sum (fun f => pressure_coefficient f * normal_across_flow f * face_length f)
    wall_faces 0
  / total_wall_length.
Definition pressure_drag_coefficient : a_real :=
  wall_sum (fun f => pressure_coefficient f * normal_along_flow f * face_length f)
    wall_faces 0
  / total_wall_length.
Definition friction_drag_coefficient : a_real :=
  wall_sum (fun f => friction_coefficient f * tangent_along_flow f * face_length f)
    wall_faces 0
  / total_wall_length.

End Surface_spec.

(** *** Jacobian blocks (spec 4.6.3) *)

Section Jacobian_spec.
Context (E : FlowFV) (uarr : list a_real).

Definition face_normal (f : nat) : list a_real :=
  [gfacemetric (m E) f 0; gfacemetric (m E) f 1].

(** The two flux Jacobians of a face between the states [ul] and [ur]:
    those of the inviscid Jacobian flux and, in a viscous simulation,
    what the viscous flux Jacobian makes of them. *)
Definition flux_jacobians (f : nat) (ul ur : list a_real)
  : list a_real * list a_real :=
  let LU := get_jacobian (jflux E) ul ur (face_normal f) in
  if viscous_sim (pconfig E)
  then computeViscousFluxJacobian E f ul ur (fst LU) (snd LU)
  else LU.

(** Entry (i, j) of a row-major NVARS x NVARS block; the block that has
    given entries, row after row; and entry (i, j) of the product of two
    blocks. *)
Definition entry (b : list a_real) (i j : nat) : a_real := b !!! (NVARS * i + j)%nat.

Definition block (e : nat -> nat -> a_real) : list a_real :=
  flat_map (fun i => map (e i) (seq 0 NVARS)) (seq 0 NVARS).

Definition product_entry (a b : list a_real) (i j : nat) : a_real :=
  entry a i 0 * entry b 0 j + entry a i 1 * entry b 1 j
  + entry a i 2 * entry b 2 j + entry a i 3 * entry b 3 j.

(** -l (L - R . duG/duI) at a boundary face with boundary condition [bc]:
    L and R are the flux Jacobians between the state of the left cell and
    its ghost state, duG/duI is the Jacobian of the ghost state. *)
Definition boundary_block (bc : FlowBC) (f : nat) : list a_real :=
  let ui := cell uarr (gintfac (m E) f 0) in
  let ghost := computeGhostStateAndJacobian bc ui (gnormal (m E) f) in
  let LR := flux_jacobians f ui (fst ghost) in
  block (fun i j =>
    - gfacemetric (m E) f 2
    * (entry (fst LR) i j - product_entry (snd LR) (snd ghost) i j)).

(** L and U of an interior face, every entry scaled by the face length. *)
Definition lower_block (f : nat) : list a_real :=
  let LU := flux_jacobians f (cell uarr (gintfac (m E) f 0))
              (cell uarr (gintfac (m E) f 1)) in
  block (fun i j => entry (fst LU) i j * gfacemetric (m E) f 2).
Definition upper_block (f : nat) : list a_real :=
  let LU := flux_jacobians f (cell uarr (gintfac (m E) f 0))
              (cell uarr (gintfac (m E) f 1)) in
  block (fun i j => entry (snd LU) i j * gfacemetric (m E) f 2).

(** -B: every entry of B multiplied by -1.0. *)
Definition negated (b : list a_real) : list a_real :=
  block (fun i j => entry b i j * (-1.0)).

(** A[R,L] += L; A[L,R] += U; A[L,L] += -L; A[R,R] += -U. *)
Definition interior_blocks (f : nat) : list (nat * nat * list a_real) :=
  let lelem := gintfac (m E) f 0 in
  let relem := gintfac (m E) f 1 in
  [(relem, lelem, lower_block f);
   (lelem, relem, upper_block f);
   (lelem, lelem, negated (lower_block f));
   (relem, relem, negated (upper_block f))].

(** What an assembly adds to the matrix it is given: one block per
    boundary face, then four per interior face, in face order. *)
Definition jacobian_additions (A0 A : Mat) : Prop :=
  (forall f, (f < gnbface (m E))%nat ->
     exists bc, bcs E !! gintfacbtags (m E) f 0 = Some bc /\
       A !! (length A0 + f)%nat
       = Some (gintfac (m E) f 0, gintfac (m E) f 0, boundary_block bc f)) /\
  (forall f d, (gnbface (m E) <= f < gnaface (m E))%nat -> (d < 4)%nat ->
     A !! (length A0 + gnbface (m E) + 4 * (f - gnbface (m E)) + d)%nat
     = interior_blocks f !! d) /\
  (forall k, (k < length A0)%nat -> A !! k = A0 !! k) /\
  length A
  = (length A0 + gnbface (m E) + 4 * (gnaface (m E) - gnbface (m E)))%nat.

End Jacobian_spec.

(** *** Preconditions of the engine *)

(** Every boundary face has a boundary condition registered under its
    marker, so that no lookup in the registry throws. *)
Definition has_boundary_condition (E : FlowFV) (f : nat) : bool :=
  match bcs E !! gintfacbtags (m E) f 0 with
  | Some _ => true
  | None => false
  end.

Definition markers_registered (E : FlowFV) : bool :=
  forallb (has_boundary_condition E) (seq 0 (gnbface (m E))).

(** Rows of at least NDIM + 2 entries, as many as [computeSurfaceData]
    writes per wall face. *)
Definition wide_rows (a : Array2d) : Prop :=
  forall k r, a !! k = Some r -> (NDIM + 2 <= length r)%nat.

(** ** More of [FlowFV_base] and [FlowFV] *)

Section FlowFV_gradients.
Context (E : FlowFV).

(** [getGradients] (lines 332-344): the ghost states are those of
    [compute_boundary_state] on the conserved state of the left cell, for
    every boundary face; [grads] is handed to the gradient scheme by
    reference. *)
Definition getGradients (u : MVector) (grads : GradArray) : result GradArray :=
  ug ← foldM (fun ug iface =>
          let lelem := gintfac (m E) iface 0 in
          gs ← compute_boundary_state E iface (row u lelem);
          mret (<[iface := gs]> ug))
        (seq 0 (gnbface (m E))) (zeros2 (gnbface (m E)) NVARS);
  mret (compute_gradients (gradcomp E) u ug grads).

(** [computeViscousFluxApproximateJacobian] (lines 846-880): the same
    amount is taken off every diagonal entry of both blocks. The
    normalized direction [dr] of the source is computed and not used. *)
Definition computeViscousFluxApproximateJacobian (iface : nat)
    (ul ur dvfi dvfj : list a_real) : list a_real * list a_real :=
  let muRe := face_viscosity E ul ur in
  let rho := 0.5 * (ul !!! 0%nat + ur !!! 0%nat) in
  let dist := centre_distance (m E) (rc E) iface in
  for_range 0 NVARS (fun '(dvfi, dvfj) i =>
      (alter (fun x => x - muRe / (rho * dist)) (i * NVARS + i)%nat dvfi,
       alter (fun x => x - muRe / (rho * dist)) (i * NVARS + i)%nat dvfj))
    (dvfi, dvfj).

End FlowFV_gradients.

(** [initializeUnknowns] (lines 273-295), on the local array of the PETSc
    vector, NVARS consecutive entries per cell; [uinf] is the free-stream
    state held by the engine. *)
Definition initializeUnknowns (uinf : list a_real) (u : list a_real)
  : result (StatusCode * list a_real) :=
  let locsize := length u in
  if negb (locsize mod NVARS =? 0)%nat then Throw assertion_failure
  else
    let locsize := (locsize / NVARS)%nat in
    let uloc :=
      for_range 0 locsize (fun uloc i =>
          for_range 0 NVARS (fun uloc j =>
              <[(i * NVARS + j)%nat := uinf !!! j]> uloc)
            uloc)
        u in
    mret (0%Z, uloc).

(** ** The reconstruction factory of [afactory.cpp] *)

Inductive ReconstructionObject : Type :=
  | LinearUnlimitedReconstruction (m : UMesh2dh) (rc : Array2d) (gr : GradArray)
  | WENOReconstruction (m : UMesh2dh) (rc : Array2d) (gr : GradArray)
      (param : a_real)
  | MUSCLVanAlbada (m : UMesh2dh) (rc : Array2d) (gr : GradArray)
  | BarthJespersenLimiter (m : UMesh2dh) (rc : Array2d) (gr : GradArray)
  | VenkatakrishnanLimiter (m : UMesh2dh) (rc : Array2d) (gr : GradArray)
      (param : a_real).

Definition create_mutable_reconstruction (type : string) (m : UMesh2dh)
    (rc : Array2d) (gr : GradArray) (param : a_real)
  : result (option ReconstructionObject * string) :=
  if String.eqb type "NONE" then
    Ok (Some (LinearUnlimitedReconstruction m rc gr),
        " ReconstructionFactory: Unlimited linear reconstruction selected."
          ++ endl)%string
  else if String.eqb type "WENO" then
    Ok (Some (WENOReconstruction m rc gr param),
        " ReconstructionFactory: WENO reconstruction selected." ++ endl)%string
  else if String.eqb type "VANALBADA" then
    Ok (Some (MUSCLVanAlbada m rc gr),
        " ReconstructionFactory: Van Albada MUSCL reconstruction selected."
          ++ endl)%string
  else if String.eqb type "BARTHJESPERSEN" then
    Ok (Some (BarthJespersenLimiter m rc gr),
        " ReconstructionFactory: Barth-Jespersen linear reconstruction selected."
          ++ endl)%string
  else if String.eqb type "VENKATAKRISHNAN" then
    Ok (Some (VenkatakrishnanLimiter m rc gr param),
        " ReconstructionFactory: Venkatakrishnan linear reconstruction selected."
          ++ endl)%string
  else
    Ok (None, " !ReconstructionFactory: Invalid reconstruction!!" ++ endl)%string.

Definition create_const_reconstruction (type : string) (m : UMesh2dh)
    (rc : Array2d) (gr : GradArray) (param : a_real)
  : result (option ReconstructionObject * string) :=
  create_mutable_reconstruction type m rc gr param.

(** The reconstruction names the factory recognizes. *)
Definition recognized_reconstructions : list string :=
  ["NONE"; "WENO"; "VANALBADA"; "BARTHJESPERSEN"; "VENKATAKRISHNAN"]%string.

(** ** Engines that differ in some of their members *)

(** The engine [E] with another registry of boundary conditions. *)
Definition with_bcs (E : FlowFV) (b : gmap Z FlowBC) : FlowFV := {|
  m := m E; rc := rc E; pconfig := pconfig E; physics := physics E;
  inviflux := inviflux E; jflux := jflux E; gradcomp := gradcomp E; lim := lim E;
  bcs := b;
  secondOrderRequested := secondOrderRequested E; constVisc := constVisc E
|}.

(** The engine [E] with another gradient scheme and reconstruction. *)
Definition with_reconstruction (E : FlowFV) (gs : GradientScheme)
    (l : SolutionReconstruction) : FlowFV := {|
  m := m E; rc := rc E; pconfig := pconfig E; physics := physics E;
  inviflux := inviflux E; jflux := jflux E; gradcomp := gs; lim := l;
  bcs := bcs E;
  secondOrderRequested := secondOrderRequested E; constVisc := constVisc E
|}.

(** The engine [E] with another periodic marker and another periodic map
    of the mesh. *)
Definition with_periodicity (E : FlowFV) (pid : Z) (pmap : nat -> nat) : FlowFV := {|
  m := {| gnelem := gnelem (m E); gnbface := gnbface (m E);
          gnaface := gnaface (m E); gnnofa := gnnofa (m E);
          gnnode := gnnode (m E); ginpoel := ginpoel (m E);
          gintfac := gintfac (m E); gfacemetric := gfacemetric (m E);
          gnormal := gnormal (m E); garea := garea (m E);
          gintfacbtags := gintfacbtags (m E); gperiodicmap := pmap;
          gcoords := gcoords (m E) |};
  rc := rc E;
  pconfig := {| viscous_sim := viscous_sim (pconfig E); aoa := aoa (pconfig E);
                periodic_id := pid |};
  physics := physics E;
  inviflux := inviflux E; jflux := jflux E; gradcomp := gradcomp E; lim := lim E;
  bcs := bcs E;
  secondOrderRequested := secondOrderRequested E; constVisc := constVisc E
|}.

(** ** Geometry of the constructor of [Spatial] *)

(** The mean of the nodes of cell [c], coordinate [idim]: the sum in node
    order, divided by the number of nodes. *)
Definition node_mean (m : UMesh2dh) (c idim : nat) : a_real :=
  for_range 0 (gnnode m c) (fun s inode => s + gcoords m (ginpoel m c inode) idim) 0
  / double_of_int (gnnode m c).

(** The reflection of the centre of the left cell of boundary face [f]
    about the midpoint of the face. *)
Definition reflected_centre (m : UMesh2dh) (f : nat) : list a_real :=
  tabulate NDIM (fun idim =>
    2 * (0.5 * (gcoords m (gintfac m f 2) idim + gcoords m (gintfac m f 3) idim))
    - node_mean m (gintfac m f 0) idim).

(** What [computeViscousFluxApproximateJacobian] does to a diagonal entry:
    mu / (rho d) is taken off, with rho the mean density of the two
    states and d the distance between the two cell centres. *)
Definition diagonal_shift (E : FlowFV) (iface : nat) (ul ur : list a_real)
    (x : a_real) : a_real :=
  x - face_viscosity E ul ur
      / (0.5 * (ul !!! 0%nat + ur !!! 0%nat) * centre_distance (m E) (rc E) iface).

(** * The residual evaluation with collaborators that throw

    The gas model, the fluxes, the boundary conditions, the gradient
    schemes and the reconstructions are C++ code behind calls that may
    throw, and the engine catches nothing. [Throwing] reads
    [compute_residual], its callees and [assemble_residual] once more,
    with every such call either returning or throwing, in the order in
    which the source makes the calls. With collaborators that always
    return it is the evaluation above ([returning_compute_residual]). *)

Module Throwing.

(** The members of [IdealGasPhysics] that a residual evaluation calls. *)
Record IdealGasPhysics : Type := {
  g : a_real;
  Pr : a_real;
  getConstantViscosityCoeff : result a_real;
  getSoundSpeedFromConserved : list a_real -> result a_real;
  getViscosityCoeffFromConserved : list a_real -> result a_real;
  getThermalConductivityFromViscosity : a_real -> result a_real;
  getPrimitiveFromConserved : list a_real -> result (list a_real);
  getConservedFromPrimitive : list a_real -> result (list a_real);
  getPrimitive2FromConserved : list a_real -> result (list a_real);
  getTemperature : a_real -> a_real -> result a_real;
  getGradTemperature : a_real -> a_real -> a_real -> a_real -> result a_real;
  getStressTensor : a_real -> Array2d -> Array2d -> result Array2d
}.

Record InviscidFlux : Type := {
  get_flux : list a_real -> list a_real -> list a_real -> result (list a_real)
}.

Record FlowBC : Type := {
  computeGhostState : list a_real -> list a_real -> result (list a_real)
}.

Record GradientScheme : Type := {
  compute_gradients : MVector -> Array2d -> GradArray -> result GradArray
}.

Record SolutionReconstruction : Type := {
  compute_face_values :
    MVector -> Array2d -> GradArray -> Array2d -> Array2d ->
    result (Array2d * Array2d)
}.

Record FlowFV : Type := {
  m : UMesh2dh;
  rc : Array2d;
  pconfig : FlowPhysicsConfig;
  physics : IdealGasPhysics;
  inviflux : InviscidFlux;
  gradcomp : GradientScheme;
  lim : SolutionReconstruction;
  bcs : gmap Z FlowBC;
  secondOrderRequested : bool;
  constVisc : bool
}.

Section FlowFV.
Context (E : FlowFV).

Local Abbreviation msh := (m E).
Local Abbreviation phy := (physics E).

Definition is_periodic (ied : nat) : bool :=
  Z.eqb (gintfacbtags msh ied 0) (periodic_id (pconfig E)).

Definition compute_boundary_state (ied : nat) (ins : list a_real)
  : result (list a_real) :=
  let n := gnormal msh ied in
  match bcs E !! gintfacbtags msh ied 0 with
  | Some bc => computeGhostState bc ins n
  | None => Throw std_out_of_range
  end.

Definition compute_boundary_states (ins bs : Array2d) : result Array2d :=
  foldM (fun bs ied =>
      gs ← compute_boundary_state ied (row ins ied);
      let bs := <[ied := gs]> bs in
      mret (if is_periodic ied then
              <[ied := tabulate NVARS (fun i => at2 ins (gperiodicmap msh ied) i)]> bs
            else bs))
    (seq 0 (gnbface msh)) bs.

(** *** [computeViscousFlux] *)

(** One step of the loops that replace the pressure gradient by the
    temperature gradient. *)
Definition temperature_gradient_step (uc : list a_real) (gr : Array2d) (j : nat)
  : result Array2d :=
  t ← getGradTemperature phy (uc !!! 0%nat) (at2 gr j 0)
         (uc !!! (NVARS - 1)%nat) (at2 gr j (NVARS - 1));
  mret (set2 gr j (NVARS - 1) t).

(** The viscosity coefficient at a face. The source adds the two
    coefficients in one expression; the left one is taken to be
    evaluated first. *)
Definition face_viscosity (ul ur : list a_real) : result a_real :=
  if constVisc E then getConstantViscosityCoeff phy
  else
    mul ← getViscosityCoeffFromConserved phy ul;
    mur ← getViscosityCoeffFromConserved phy ur;
    mret (0.5 * (mul + mur)).

Definition computeViscousFlux (iface : nat) (ucell_l : list a_real)
    (ucell_r : option (list a_real)) (ug : Array2d) (grads : GradArray)
    (ul ur : Array2d) : result (list a_real) :=
  let lelem := gintfac msh iface 0 in
  let relem := gintfac msh iface 1 in
  let ucl := tabulate NVARS (fun i => ucell_l !!! i) in
  let gradl := zeros2 NDIM NVARS in
  let gradr := zeros2 NDIM NVARS in
  '(ucl, ucr, gradl, gradr) ←
    (if (iface <? gnbface msh)%nat then
       if secondOrderRequested E then
         let ucr := tabulate NVARS (fun i => at2 ug iface i) in
         let gradl := cell_gradient grads lelem in
         ucl ← getPrimitiveFromConserved phy ucl;
         gradl ← foldM (temperature_gradient_step ucl) (seq 0 NDIM) gradl;
         let gradr := tabulate NDIM (fun j => tabulate NVARS (fun i => at2 gradl j i)) in
         mret (ucl, ucr, gradl, gradr)
       else
         mret (ucl, tabulate NVARS (fun i => at2 ur iface i), gradl, gradr)
     else
       let ucr := tabulate NVARS (fun i => default [] ucell_r !!! i) in
       if secondOrderRequested E then
         let gradl := cell_gradient grads lelem in
         let gradr := cell_gradient grads relem in
         ucl ← getPrimitiveFromConserved phy ucl;
         ucr ← getPrimitiveFromConserved phy ucr;
         '(gradl, gradr) ←
           foldM (fun '(gradl, gradr) j =>
               gradl ← temperature_gradient_step ucl gradl j;
               gradr ← temperature_gradient_step ucr gradr j;
               mret (gradl, gradr))
             (seq 0 NDIM) (gradl, gradr);
         mret (ucl, ucr, gradl, gradr)
       else
         mret (ucl, ucr, gradl, gradr));
  '(ucl, ucr) ←
    (if secondOrderRequested E then
       tl ← getTemperature phy (ucl !!! 0%nat) (ucl !!! (NVARS - 1)%nat);
       let ucl := <[(NVARS - 1)%nat := tl]> ucl in
       tr ← getTemperature phy (ucr !!! 0%nat) (ucr !!! (NVARS - 1)%nat);
       mret (ucl, <[(NVARS - 1)%nat := tr]> ucr)
     else
       ucl ← getPrimitive2FromConserved phy ucl;
       ucr ← getPrimitive2FromConserved phy ucr;
       mret (ucl, ucr));
  let grad :=
    getFaceGradient_modifiedAverage msh (rc E) NVARS iface ucl ucr gradl gradr in
  muRe ← face_viscosity (row ul iface) (row ur iface);
  kdiff ← getThermalConductivityFromViscosity phy muRe;
  stress ← getStressTensor phy muRe grad (zeros2 NDIM NDIM);
  let vavg := tabulate NDIM (fun j =>
    0.5 * (at2 ul iface (j + 1) / at2 ul iface 0
           + at2 ur iface (j + 1) / at2 ur iface 0)) in
  let momentum (i : nat) :=
    for_range 0 NDIM (fun v j => v - at2 stress i j * gfacemetric msh iface j) 0 in
  let energy :=
    for_range 0 NDIM (fun v i =>
        let comp :=
          for_range 0 NDIM (fun c j => c + at2 stress i j * vavg !!! j) 0
          + kdiff * at2 grad i (NVARS - 1) in
        v - comp * gfacemetric msh iface i)
      0 in
  mret (0 :: tabulate NDIM momentum ++ [energy]).

(** *** [compute_residual] *)

Definition boundary_left_states (u : MVector) : Array2d :=
  for_range 0 (gnbface msh) (fun ul ied =>
      <[ied := tabulate NVARS (fun ivar => at2 u (gintfac msh ied 0) ivar)]> ul)
    (zeros2 (gnaface msh) NVARS).

(** Lines 932-939: ghost states converted in place, then the cell states. *)
Definition primitive_ghost_states (ug : Array2d) : result Array2d :=
  foldM (fun a iface =>
      p ← getPrimitiveFromConserved phy (row a iface);
      mret (<[iface := p]> a))
    (seq 0 (gnbface msh)) ug.

Definition primitive_cell_states (u : MVector) : result MVector :=
  foldM (fun a iel =>
      p ← getPrimitiveFromConserved phy (row u iel);
      mret (<[iel := p]> a))
    (seq 0 (gnelem msh)) (zeros2 (gnelem msh) NVARS).

(** Lines 916-961, after the ghost states [ug] of the cell-centred values
    have been computed. In the loop over the interior faces the left
    state of a face is converted before its right state. *)
Definition second_order_face_states (u : MVector) (ug uleft uright : Array2d)
  : result (Array2d * Array2d * Array2d * GradArray) :=
  let nbf := gnbface msh in
  let naf := gnaface msh in
  ug ← primitive_ghost_states ug;
  up ← primitive_cell_states u;
  grads ← compute_gradients (gradcomp E) up ug
             (replicate (gnelem msh) (zeros2 NDIM NVARS));
  fv ← compute_face_values (lim E) up ug grads uleft uright;
  let uleft := tabulate naf (fun f => row (fst fv) f) in
  let uright := tabulate naf (fun f => row (snd fv) f) in
  '(uleft, uright) ←
    foldM (fun '(uleft, uright) iface =>
        l ← getConservedFromPrimitive phy (row uleft iface);
        r ← getConservedFromPrimitive phy (row uright iface);
        mret (<[iface := l]> uleft, <[iface := r]> uright))
      (seq nbf (naf - nbf)) (uleft, uright);
  uleft ←
    foldM (fun uleft iface =>
        l ← getConservedFromPrimitive phy (row uleft iface);
        mret (<[iface := l]> uleft))
      (seq 0 nbf) uleft;
  mret (ug, uleft, uright, grads).

Definition first_order_face_states (u : MVector) (ug uleft uright : Array2d)
  : Array2d * Array2d * Array2d * GradArray :=
  let nbf := gnbface msh in
  let naf := gnaface msh in
  let uleft :=
    for_range nbf naf (fun ul ied =>
        <[ied := tabulate NVARS (fun ivar => at2 u (gintfac msh ied 0) ivar)]> ul)
      uleft in
  let uright :=
    for_range nbf naf (fun ur ied =>
        <[ied := tabulate NVARS (fun ivar => at2 u (gintfac msh ied 1) ivar)]> ur)
      uright in
  (ug, uleft, uright, []).

Definition face_states (u : MVector)
  : result (Array2d * Array2d * Array2d * GradArray) :=
  let ug := zeros2 (gnbface msh) NVARS in
  let uleft := boundary_left_states u in
  let uright := zeros2 (gnaface msh) NVARS in
  '(ug, uleft, uright, grads) ←
    (if secondOrderRequested E then
       ug ← compute_boundary_states uleft ug;
       second_order_face_states u ug uleft uright
     else
       mret (first_order_face_states u ug uleft uright));
  uright ← compute_boundary_states uleft uright;
  mret (ug, uleft, uright, grads).

Definition face_fluxes (u : MVector) (ug : Array2d) (grads : GradArray)
    (uleft uright : Array2d) (ied : nat) : result (list a_real) :=
  let n := [gfacemetric msh ied 0; gfacemetric msh ied 1] in
  let len := gfacemetric msh ied 2 in
  let lelem := gintfac msh ied 0 in
  let relem := gintfac msh ied 1 in
  fluxes ← get_flux (inviflux E) (row uleft ied) (row uright ied) n;
  let fluxes := tabulate NVARS (fun ivar => fluxes !!! ivar * len) in
  if viscous_sim (pconfig E) then
    let urt := if (ied <? gnbface msh)%nat then None else Some (row u relem) in
    vflux ← computeViscousFlux ied (row u lelem) urt ug grads uleft uright;
    mret (tabulate NVARS (fun ivar => fluxes !!! ivar + vflux !!! ivar * len))
  else mret fluxes.

Definition spectral_radii (uleft uright : Array2d) (ied : nat)
  : result (a_real * a_real) :=
  let n := [gfacemetric msh ied 0; gfacemetric msh ied 1] in
  let len := gfacemetric msh ied 2 in
  let lelem := gintfac msh ied 0 in
  let relem := gintfac msh ied 1 in
  ci ← getSoundSpeedFromConserved phy (row uleft ied);
  cj ← getSoundSpeedFromConserved phy (row uright ied);
  let vni :=
    (at2 uleft ied 1 * n !!! 0%nat + at2 uleft ied 2 * n !!! 1%nat) / at2 uleft ied 0 in
  let vnj :=
    (at2 uright ied 1 * n !!! 0%nat + at2 uright ied 2 * n !!! 1%nat)
    / at2 uright ied 0 in
  let specradi := (fabs vni + ci) * len in
  let specradj := (fabs vnj + cj) * len in
  if viscous_sim (pconfig E) then
    mui ← (if constVisc E then getConstantViscosityCoeff phy
           else getViscosityCoeffFromConserved phy (row uleft ied));
    muj ← (if constVisc E then getConstantViscosityCoeff phy
           else getViscosityCoeffFromConserved phy (row uright ied));
    let coi := std_max (4.0 / (3 * at2 uleft ied 0)) (g phy / at2 uleft ied 0) in
    let coj := std_max (4.0 / (3 * at2 uright ied 0)) (g phy / at2 uright ied 0) in
    mret (specradi + coi * mui / Pr phy * len * len / garea msh lelem,
          if (relem <? gnelem msh)%nat
          then specradj + coj * muj / Pr phy * len * len / garea msh relem
          else specradj)
  else mret (specradi, specradj).

Definition residual_face (u : MVector) (ug : Array2d) (grads : GradArray)
    (uleft uright : Array2d) (gettimesteps : bool)
    (st : MVector * list a_real) (ied : nat) : result (MVector * list a_real) :=
  let lelem := gintfac msh ied 0 in
  let relem := gintfac msh ied 1 in
  fluxes ← face_fluxes u ug grads uleft uright ied;
  let residual := subtract_fluxes fluxes lelem (fst st) in
  let residual :=
    if (relem <? gnelem msh)%nat then add_fluxes fluxes relem residual
    else residual in
  if gettimesteps then
    specrad ← spectral_radii uleft uright ied;
    let integ := alter (fun x => x + fst specrad) lelem (snd st) in
    mret (residual,
          if (relem <? gnelem msh)%nat
          then alter (fun x => x + snd specrad) relem integ
          else integ)
  else mret (residual, snd st).

Definition compute_residual (uarr rarr : MVector) (gettimesteps : bool)
    (dtm : list a_real) : result (StatusCode * MVector * list a_real) :=
  let integ :=
    for_range 0 (gnelem msh) (fun a iel => <[iel := 0]> a) (zeros (gnelem msh)) in
  '(ug, uleft, uright, grads) ← face_states uarr;
  st ← foldM (residual_face uarr ug grads uleft uright gettimesteps)
         (seq 0 (gnaface msh)) (rarr, integ);
  let dtm :=
    if gettimesteps then
      for_range 0 (gnelem msh) (fun d iel =>
          <[iel := garea msh iel / snd st !!! iel]> d)
        dtm
    else dtm in
  mret (0%Z, fst st, dtm).

(** *** [assemble_residual] *)

(** The Eigen map of [n] rows of NVARS entries over a raw array, and the
    raw array after the rows of a map over it have been written. *)
Definition mapped (n : nat) (a : list a_real) : MVector := tabulate n (cell a).

Definition written_back (residual : MVector) (rarr : list a_real) : list a_real :=
  for_range 0 (length residual) (fun a i =>
      for_range 0 NVARS (fun a j =>
          <[(i * NVARS + j)%nat := at2 residual i j]> a)
        a)
    rarr.

Definition with_array (v : Vec) (a : list a_real) : Vec := {|
  local_array := a;
  VecGetLocalSize_status := VecGetLocalSize_status v;
  VecGetArray_status := VecGetArray_status v;
  VecRestoreArray_status := VecRestoreArray_status v
|}.

(** [CHKERRQ] returns a non-zero status at once, with the residual vector
    and [dtm] as they were. The status of [compute_residual] is dropped,
    and so are those of the two calls that restore the arrays: the
    status returned at the end is that of [VecGetArray]. *)
Definition assemble_residual (uvec rvec : Vec) (gettimesteps : bool)
    (dtm : list a_real) : result (StatusCode * Vec * list a_real) :=
  let ierr := VecGetLocalSize_status uvec in
  if negb (ierr =? 0)%Z then mret (ierr, rvec, dtm)
  else
    let locnelem := length (local_array uvec) in
    if negb (locnelem mod NVARS =? 0)%nat then Throw assertion_failure
    else
      let locnelem := (locnelem / NVARS)%nat in
      if negb (locnelem =? gnelem msh)%nat then Throw assertion_failure
      else
        let ierr := VecGetArray_status uvec in
        if negb (ierr =? 0)%Z then mret (ierr, rvec, dtm)
        else
          let ierr := VecGetArray_status rvec in
          if negb (ierr =? 0)%Z then mret (ierr, rvec, dtm)
          else
            '(_, residual, dtm) ←
              compute_residual (mapped (gnelem msh) (local_array uvec))
                (mapped (gnelem msh) (local_array rvec)) gettimesteps dtm;
            mret (ierr,
                  with_array rvec (written_back residual (local_array rvec)), dtm).

End FlowFV.

End Throwing.

(** The engine [E], whose collaborators are functions and so always
    return, as an engine of [Throwing]. *)
Definition returning_physics (p : IdealGasPhysics) : Throwing.IdealGasPhysics := {|
  Throwing.g := g p;
  Throwing.Pr := Pr p;
  Throwing.getConstantViscosityCoeff := Ok (getConstantViscosityCoeff p);
  Throwing.getSoundSpeedFromConserved := fun u => Ok (getSoundSpeedFromConserved p u);
  Throwing.getViscosityCoeffFromConserved := fun u =>
    Ok (getViscosityCoeffFromConserved p u);
  Throwing.getThermalConductivityFromViscosity := fun mu =>
    Ok (getThermalConductivityFromViscosity p mu);
  Throwing.getPrimitiveFromConserved := fun u => Ok (getPrimitiveFromConserved p u);
  Throwing.getConservedFromPrimitive := fun u => Ok (getConservedFromPrimitive p u);
  Throwing.getPrimitive2FromConserved := fun u => Ok (getPrimitive2FromConserved p u);
  Throwing.getTemperature := fun rho pr => Ok (getTemperature p rho pr);
  Throwing.getGradTemperature := fun rho drho pr dp =>
    Ok (getGradTemperature p rho drho pr dp);
  Throwing.getStressTensor := fun mu grad stress => Ok (getStressTensor p mu grad stress)
|}.

Definition returning (E : FlowFV) : Throwing.FlowFV := {|
  Throwing.m := m E;
  Throwing.rc := rc E;
  Throwing.pconfig := pconfig E;
  Throwing.physics := returning_physics (physics E);
  Throwing.inviflux :=
    {| Throwing.get_flux := fun ul ur n => Ok (get_flux (inviflux E) ul ur n) |};
  Throwing.gradcomp :=
    {| Throwing.compute_gradients := fun u ug grads =>
         Ok (compute_gradients (gradcomp E) u ug grads) |};
  Throwing.lim :=
    {| Throwing.compute_face_values := fun u ug grads ufl ufr =>
         Ok (compute_face_values (lim E) u ug grads ufl ufr) |};
  Throwing.bcs :=
    (fun bc => {| Throwing.computeGhostState := fun ins n =>
                    Ok (computeGhostState bc ins n) |}) <$> bcs E;
  Throwing.secondOrderRequested := secondOrderRequested E;
  Throwing.constVisc := constVisc E
|}.

(** ** The channel with the gas model that fails *)

Module FailingChannel.

(** Modelled from the spec: class [IdealGasPhysics] (physics/aphysics.hpp)
    is missing from the sources. The gas model of the specification
    "fails with numeric-invalid if rho <= 0 or p <= 0 on a call that
    would evaluate sqrt p or log p". The speed of sound
    sqrt (gamma p / rho) is the operation of [Channel.ideal_gas] that
    takes a square root; the other operations return its values. *)
Definition getSoundSpeedFromConserved (u : list a_real) : result a_real :=
  if (u !!! 0%nat <=? 0) || (Channel.pressure u <=? 0)
  then Throw (thrown numeric_invalid)
  else Ok (Channel.speed_of_sound u).

Definition ideal_gas : Throwing.IdealGasPhysics := {|
  Throwing.g := Channel.gamma;
  Throwing.Pr := 0.72;
  Throwing.getConstantViscosityCoeff := Ok 0.01;
  Throwing.getSoundSpeedFromConserved := getSoundSpeedFromConserved;
  Throwing.getViscosityCoeffFromConserved := fun _ => Ok 0.01;
  Throwing.getThermalConductivityFromViscosity := fun mu =>
    Ok (mu * Channel.gamma / (0.72 * (Channel.gamma - 1)));
  Throwing.getPrimitiveFromConserved := fun u => Ok (Channel.prim_from_cons u);
  Throwing.getConservedFromPrimitive := fun p => Ok (Channel.cons_from_prim p);
  Throwing.getPrimitive2FromConserved := fun u => Ok (Channel.prim2_from_cons u);
  Throwing.getTemperature := fun rho p => Ok (Channel.temperature rho p);
  Throwing.getGradTemperature := fun rho drho p dp =>
    Ok (Channel.gamma * Channel.Minf * Channel.Minf * (dp * rho - p * drho)
        / (rho * rho));
  Throwing.getStressTensor := fun mu grad _ => Ok (Channel.stress_tensor mu grad)
|}.

(** Modelled from the spec: the Rusanov flux of [Channel.LLF], whose
    lambda_max, the larger of |vn| + c over the two states, calls the
    speed of sound of the gas model for the left state and then for the
    right state (the member functions of [LocalLaxFriedrichsFlux] are
    missing from the sources). *)
Definition LLF : Throwing.InviscidFlux := {|
  Throwing.get_flux := fun ul ur n =>
    cl ← getSoundSpeedFromConserved ul;
    cr ← getSoundSpeedFromConserved ur;
    let lam := std_max (fabs (Channel.normal_velocity ul n) + cl)
                       (fabs (Channel.normal_velocity ur n) + cr) in
    mret (tabulate NVARS (fun k =>
      0.5 * (Channel.euler_flux ul n !!! k + Channel.euler_flux ur n !!! k)
      - 0.5 * lam * (ur !!! k - ul !!! k)))
|}.

(** The channel engine with this gas model and flux; its boundary
    conditions, gradient scheme and reconstruction are those of
    [Channel.engine], which always return. *)
Definition engine (order2 : bool) : Throwing.FlowFV := {|
  Throwing.m := Channel.mesh;
  Throwing.rc := Spatial_rc Channel.mesh;
  Throwing.pconfig := pconfig (Channel.engine order2);
  Throwing.physics := ideal_gas;
  Throwing.inviflux := LLF;
  Throwing.gradcomp := Throwing.gradcomp (returning (Channel.engine order2));
  Throwing.lim := Throwing.lim (returning (Channel.engine order2));
  Throwing.bcs := Throwing.bcs (returning (Channel.engine order2));
  Throwing.secondOrderRequested := order2;
  Throwing.constVisc := true
|}.

End FailingChannel.

(** ** Which exceptions leave a call *)

(** Every exception that the outcome [r] may be satisfies [Q]. *)
Definition throws_only {A : Type} (Q : exn -> Prop) (r : result A) : Prop :=
  forall e, r = Throw e -> Q e.

(** Every exception that a collaborator of [E] throws satisfies [P],
    whatever the call and its arguments. *)
Definition collaborators_throw (P : exn -> Prop) (E : Throwing.FlowFV) : Prop :=
  let phy := Throwing.physics E in
  throws_only P (Throwing.getConstantViscosityCoeff phy) /\
  (forall u, throws_only P (Throwing.getSoundSpeedFromConserved phy u)) /\
  (forall u, throws_only P (Throwing.getViscosityCoeffFromConserved phy u)) /\
  (forall mu, throws_only P (Throwing.getThermalConductivityFromViscosity phy mu)) /\
  (forall u, throws_only P (Throwing.getPrimitiveFromConserved phy u)) /\
  (forall u, throws_only P (Throwing.getConservedFromPrimitive phy u)) /\
  (forall u, throws_only P (Throwing.getPrimitive2FromConserved phy u)) /\
  (forall rho p, throws_only P (Throwing.getTemperature phy rho p)) /\
  (forall rho drho p dp,
     throws_only P (Throwing.getGradTemperature phy rho drho p dp)) /\
  (forall mu grad stress, throws_only P (Throwing.getStressTensor phy mu grad stress)) /\
  (forall ul ur n, throws_only P (Throwing.get_flux (Throwing.inviflux E) ul ur n)) /\
  (forall u ug grads,
     throws_only P (Throwing.compute_gradients (Throwing.gradcomp E) u ug grads)) /\
  (forall u ug grads ufl ufr,
     throws_only P
       (Throwing.compute_face_values (Throwing.lim E) u ug grads ufl ufr)) /\
  (forall k bc ins n, Throwing.bcs E !! k = Some bc ->
     throws_only P (Throwing.computeGhostState bc ins n)).

(** * Properties *)

(** One step of the [result] monad: a bind on a known outcome. *)
Ltac result_step :=
  cbv beta iota delta [mbind mret result_bind result_ret].

(** Two floats that the comparison tells apart are different. *)
Lemma float_neq (x y : float) :
  PrimFloat.eqb x y = false -> PrimFloat.eqb y y = true -> x <> y.
Proof. intros Hxy Hyy ->. congruence. Qed.

(** ** The channel engine at work *)

Example channel_cell_centres :
  Spatial_rc Channel.mesh
  = [[0.5; 0.5]; [1.5; 0.5]; [2.5; 0.5];
     [0.5; -0.5]; [1.5; -0.5]; [2.5; -0.5]; [3.5; 0.5];
     [2.5; 1.5]; [1.5; 1.5]; [0.5; 1.5]; [-0.5; 0.5]].
Proof. vm_compute. reflexivity. Qed.

Example channel_gauss_points :
  Spatial_gr Channel.mesh
  = [[[0.5; 0]]; [[1.5; 0]]; [[2.5; 0]]; [[3; 0.5]]; [[2.5; 1]]; [[1.5; 1]];
     [[0.5; 1]]; [[0; 0.5]]; [[1; 0.5]]; [[2; 0.5]]].
Proof. vm_compute. reflexivity. Qed.

(** A uniform flow along the periodic channel is steady: from a zeroed
    array the residual comes back zero, first and second order alike. *)
Example uniform_flow_is_steady :
  forall order2 : bool,
    exists dtm,
      compute_residual (Channel.engine order2) Channel.u_uniform Channel.r_zero
        true [0; 0; 0]
      = Ok (0%Z, Channel.r_zero, dtm).
Proof. intros [|]; eexists; vm_compute; reflexivity. Qed.

Example modified_average_on_face_8 :
  getFaceGradient_modifiedAverage Channel.mesh (Spatial_rc Channel.mesh) NVARS 8
    [1; 0.5; 0; 1] [2; 0.5; 0; 1.5]
    [[1; 0; 0; 0.25]; [0; 0; 0; 0]] [[3; 0; 0; 0.75]; [0; 0; 0; 0]]
  = [[1; 0; 0; 0.5]; [0; 0; 0; 0]].
Proof. vm_compute. reflexivity. Qed.

(** ** Arrays and loops *)

Lemma tabulate_length {A : Type} (n : nat) (f : nat -> A) :
  length (tabulate n f) = n.
Proof. unfold tabulate. now rewrite length_map, length_seq. Qed.

Lemma tabulate_lookup {A : Type} (n : nat) (f : nat -> A) (i : nat) :
  (i < n)%nat -> tabulate n f !! i = Some (f i).
Proof.
  intros Hi. unfold tabulate.
  rewrite list_lookup_fmap, lookup_seq_lt by assumption. reflexivity.
Qed.

Lemma tabulate_lookup_total {A : Type} `{Inhabited A} (n : nat) (f : nat -> A)
    (i : nat) :
  (i < n)%nat -> tabulate n f !!! i = f i.
Proof.
  intros Hi. apply list_lookup_total_correct. now apply tabulate_lookup.
Qed.

Lemma at2_tabulate (r c : nat) (f : nat -> nat -> a_real) (i j : nat) :
  (i < r)%nat -> (j < c)%nat ->
  at2 (tabulate r (fun i => tabulate c (f i))) i j = f i j.
Proof.
  intros Hi Hj. unfold at2.
  rewrite (tabulate_lookup_total r _ i Hi).
  now rewrite (tabulate_lookup_total c _ j Hj).
Qed.

(** ** C6: the modified-average face gradient *)

Lemma centre_distance_spec (m : UMesh2dh) (rc : Array2d) (iface : nat) :
  centre_distance m rc iface = centroid_distance m rc iface.
Proof. reflexivity. Qed.

Lemma centre_direction_spec (m : UMesh2dh) (rc : Array2d) (iface j : nat) :
  (j < NDIM)%nat ->
  centre_direction m rc iface !!! j = unit_direction m rc iface j.
Proof.
  intros Hj. unfold NDIM in Hj.
  destruct j as [|[|j]]; [reflexivity | reflexivity | lia].
Qed.

(** C6. For every face, every variable [i] and every direction [j], the
    face gradient that [getFaceGradient_modifiedAverage] stores in
    [grad[j][i]] is the mean of the two cell gradients with its component
    along the unit centre-to-centre direction e removed and replaced by the
    compact difference (phi_R - phi_L)/d along e:
    g_avg_j - (g_avg . e) e_j + corr e_j. *)
Theorem modified_average_face_gradient (m : UMesh2dh) (rc : Array2d)
    (nvars iface : nat) (ucl ucr : list a_real) (gradl gradr : Array2d)
    (i j : nat) :
  (i < nvars)%nat -> (j < NDIM)%nat ->
  at2 (getFaceGradient_modifiedAverage m rc nvars iface ucl ucr gradl gradr) j i
  = modified_average m rc iface ucl ucr gradl gradr i j.
Proof.
  intros Hi Hj. unfold getFaceGradient_modifiedAverage.
  rewrite at2_tabulate by assumption.
  rewrite tabulate_lookup_total by assumption.
  rewrite tabulate_lookup_total by assumption.
  rewrite centre_direction_spec by assumption.
  rewrite centre_distance_spec.
  unfold modified_average, compact_difference, average_gradient.
  unfold dimDotProduct, for_range, NDIM. cbn [seq fold_left Nat.sub].
  rewrite !tabulate_lookup_total by (unfold NDIM; lia).
  rewrite (centre_direction_spec m rc iface 0) by (unfold NDIM; lia).
  rewrite (centre_direction_spec m rc iface 1) by (unfold NDIM; lia).
  reflexivity.
Qed.

Lemma modified_average_face_gradient_witness :
  at2 (getFaceGradient_modifiedAverage Channel.mesh (Spatial_rc Channel.mesh) NVARS 8
         [1; 0.5; 0; 1] [2; 0.5; 0; 1.5]
         [[1; 0; 0; 0.25]; [0; 0; 0; 0]] [[3; 0; 0; 0.75]; [0; 0; 0; 0]]) 0 3
  = modified_average Channel.mesh (Spatial_rc Channel.mesh) 8
      [1; 0.5; 0; 1] [2; 0.5; 0; 1.5]
      [[1; 0; 0; 0.25]; [0; 0; 0; 0]] [[3; 0; 0; 0.75]; [0; 0; 0; 0]] 3 0.
Proof.
  apply modified_average_face_gradient; unfold NVARS, NDIM; lia.
Defined.

(** ** Loops that write one array entry per iteration *)

Lemma for_range_insert_lookup {A : Type} (f : nat -> A) (lo hi : nat)
    (a0 : list A) (k : nat) :
  for_range lo hi (fun a i => <[i := f i]> a) a0 !! k
  = if decide ((lo <= k < hi)%nat /\ (k < length a0)%nat) then Some (f k)
    else a0 !! k.
Proof.
  unfold for_range.
  assert (forall n lo (a0 : list A),
    fold_left (fun a i => <[i := f i]> a) (seq lo n) a0 !! k
    = if decide ((lo <= k < lo + n)%nat /\ (k < length a0)%nat) then Some (f k)
      else a0 !! k) as Hgen.
  { clear. induction n as [|n IH]; intros lo a0; simpl.
    - case_decide; [lia | reflexivity].
    - rewrite IH, length_insert, list_lookup_insert.
      repeat case_decide; destruct_and?; subst; try reflexivity; lia. }
  rewrite Hgen. repeat case_decide; try reflexivity; lia.
Qed.

Lemma for_range_insert_length {A : Type} (f : nat -> A) (lo hi : nat)
    (a0 : list A) :
  length (for_range lo hi (fun a i => <[i := f i]> a) a0) = length a0.
Proof.
  unfold for_range. generalize (hi - lo)%nat as n. intros n. revert lo a0.
  induction n as [|n IH]; intros lo a0; simpl; [reflexivity|].
  now rewrite IH, length_insert.
Qed.

Lemma for_range_alter_lookup {A : Type} (f : A -> A) (lo hi : nat)
    (a0 : list A) (k : nat) :
  for_range lo hi (fun a i => alter f i a) a0 !! k
  = if decide (lo <= k < hi)%nat then f <$> a0 !! k else a0 !! k.
Proof.
  unfold for_range.
  assert (forall n lo (a0 : list A),
    fold_left (fun a i => alter f i a) (seq lo n) a0 !! k
    = if decide (lo <= k < lo + n)%nat then f <$> a0 !! k else a0 !! k) as Hgen.
  { clear. induction n as [|n IH]; intros lo a0; simpl.
    - case_decide; [lia | reflexivity].
    - rewrite IH, list_lookup_alter.
      repeat case_decide; destruct_and?; subst; try reflexivity; lia. }
  rewrite Hgen. repeat case_decide; try reflexivity; lia.
Qed.

Lemma zeros2_length (r c : nat) : length (zeros2 r c) = r.
Proof. apply length_replicate. Qed.

Lemma row_lookup (a : Array2d) (i : nat) (r : list a_real) :
  a !! i = Some r -> row a i = r.
Proof. intros H. unfold row. now apply list_lookup_total_correct. Qed.

Lemma at2_lookup (a : Array2d) (i j : nat) (r : list a_real) :
  a !! i = Some r -> at2 a i j = r !!! j.
Proof. intros H. unfold at2. now rewrite (list_lookup_total_correct _ _ _ H). Qed.

Lemma markers_registered_spec (E : FlowFV) :
  markers_registered E = true ->
  forall f, (f < gnbface (m E))%nat ->
    is_Some (bcs E !! gintfacbtags (m E) f 0).
Proof.
  intros Hreg f Hf. unfold markers_registered in Hreg.
  rewrite forallb_forall in Hreg.
  specialize (Hreg f). unfold has_boundary_condition in Hreg.
  destruct (bcs E !! gintfacbtags (m E) f 0); [eexists; reflexivity|].
  discriminate Hreg. apply in_seq. lia.
Qed.

(** ** Ghost states: [compute_boundary_states] *)

Section Boundary_states.
Context (E : FlowFV).

(** The row that [compute_boundary_states] leaves for boundary face [f]:
    the copy of row [gperiodicmap f] of the input on a periodic face, the
    ghost state of the registered boundary condition otherwise. *)
Lemma boundary_states_rows (ins : Array2d) (n lo : nat) (bs bs' : Array2d) :
  foldM (fun bs ied =>
      gs ← compute_boundary_state E ied (row ins ied);
      let bs := <[ied := gs]> bs in
      mret (if is_periodic E ied then
              <[ied := tabulate NVARS (fun i =>
                  at2 ins (gperiodicmap (m E) ied) i)]> bs
            else bs))
    (seq lo n) bs = Ok bs' ->
  length bs' = length bs /\
  forall k,
    ((lo <= k < lo + n)%nat -> (k < length bs)%nat ->
     exists bc, bcs E !! gintfacbtags (m E) k 0 = Some bc /\
       bs' !! k = Some
         (if is_periodic E k
          then tabulate NVARS (fun i => at2 ins (gperiodicmap (m E) k) i)
          else computeGhostState bc (row ins k) (gnormal (m E) k))) /\
    (~ (lo <= k < lo + n)%nat -> bs' !! k = bs !! k).
Proof.
  revert lo bs. induction n as [|n IH]; intros lo bs; simpl.
  - intros [= <-]. split; [reflexivity|]. intros k. split; [lia | reflexivity].
  - unfold compute_boundary_state at 1.
    destruct (bcs E !! gintfacbtags (m E) lo 0) as [bc|] eqn:Hbc; simpl;
      [|discriminate].
    intros Hfold. apply IH in Hfold as [Hlen Hrows].
    assert (forall (x : Array2d),
      length (if is_periodic E lo
              then <[lo := tabulate NVARS (fun i =>
                      at2 ins (gperiodicmap (m E) lo) i)]> x
              else x) = length x) as Hl.
    { intros x. destruct (is_periodic E lo); [apply length_insert | reflexivity]. }
    split; [now rewrite Hlen, Hl, length_insert|].
    intros k. split.
    + intros Hk Hkl. destruct (decide (k = lo)) as [->|Hne].
      * exists bc. split; [assumption|].
        destruct (Hrows lo) as [_ Hout]. rewrite Hout by lia.
        destruct (is_periodic E lo).
        -- rewrite list_lookup_insert_eq; [reflexivity|].
           now rewrite length_insert.
        -- now rewrite list_lookup_insert_eq.
      * destruct (Hrows k) as [Hin _]. apply Hin; [lia|].
        now rewrite Hl, length_insert.
    + intros Hk. destruct (Hrows k) as [_ Hout]. rewrite Hout by lia.
      destruct (is_periodic E lo);
        rewrite ?list_lookup_insert_ne by lia; reflexivity.
Qed.

Lemma compute_boundary_states_rows (ins bs bs' : Array2d) :
  compute_boundary_states E ins bs = Ok bs' ->
  length bs' = length bs /\
  forall k,
    ((k < gnbface (m E))%nat -> (k < length bs)%nat ->
     exists bc, bcs E !! gintfacbtags (m E) k 0 = Some bc /\
       bs' !! k = Some
         (if is_periodic E k
          then tabulate NVARS (fun i => at2 ins (gperiodicmap (m E) k) i)
          else computeGhostState bc (row ins k) (gnormal (m E) k))) /\
    ((gnbface (m E) <= k)%nat -> bs' !! k = bs !! k).
Proof.
  intros H. apply boundary_states_rows in H as [Hlen Hrows].
  split; [assumption|]. intros k. destruct (Hrows k) as [Hin Hout].
  split; [intros; apply Hin; lia | intros; apply Hout; lia].
Qed.

(** With a boundary condition registered for every boundary face the loop
    runs to its end. *)
Lemma compute_boundary_states_returns (ins bs : Array2d) :
  (forall f, (f < gnbface (m E))%nat ->
     is_Some (bcs E !! gintfacbtags (m E) f 0)) ->
  exists bs', compute_boundary_states E ins bs = Ok bs'.
Proof.
  intros Hreg. unfold compute_boundary_states.
  assert (forall n lo (bs : Array2d),
    (forall f, (lo <= f < lo + n)%nat ->
       is_Some (bcs E !! gintfacbtags (m E) f 0)) ->
    exists bs',
      foldM (fun bs ied =>
          gs ← compute_boundary_state E ied (row ins ied);
          let bs := <[ied := gs]> bs in
          mret (if is_periodic E ied then
                  <[ied := tabulate NVARS (fun i =>
                      at2 ins (gperiodicmap (m E) ied) i)]> bs
                else bs))
        (seq lo n) bs = Ok bs') as Hgen.
  { clear. induction n as [|n IH]; intros lo bs Hreg; simpl.
    - eexists. reflexivity.
    - unfold compute_boundary_state at 1.
      destruct (Hreg lo) as [bc ->]; [lia|]. simpl.
      apply IH. intros f Hf. apply Hreg. lia. }
  apply Hgen. intros f Hf. apply Hreg. lia.
Qed.

End Boundary_states.

(** ** Face states: the phases of [compute_residual] before the flux loop *)

Section Face_states.
Context (E : FlowFV).

Local Abbreviation msh := (m E).
Local Abbreviation phy := (physics E).

Lemma boundary_left_states_length (u : MVector) :
  length (boundary_left_states E u) = gnaface msh.
Proof.
  unfold boundary_left_states.
  now rewrite for_range_insert_length, zeros2_length.
Qed.

Lemma boundary_left_states_lookup (u : MVector) (f : nat) :
  (f < gnbface msh)%nat -> (gnbface msh <= gnaface msh)%nat ->
  boundary_left_states E u !! f
  = Some (tabulate NVARS (fun ivar => at2 u (gintfac msh f 0) ivar)).
Proof.
  intros Hf Hle. unfold boundary_left_states.
  rewrite for_range_insert_lookup, zeros2_length.
  case_decide; [reflexivity | lia].
Qed.

Lemma first_order_face_states_spec (u : MVector) (ug uleft uright : Array2d) :
  exists uleft' uright',
    first_order_face_states E u ug uleft uright = (ug, uleft', uright', [])
    /\ length uright' = length uright
    /\ forall f, (f < gnbface msh)%nat -> uleft' !! f = uleft !! f.
Proof.
  eexists _, _. split; [reflexivity|]. split.
  - apply for_range_insert_length.
  - intros f Hf. rewrite for_range_insert_lookup.
    case_decide; [lia | reflexivity].
Qed.

Lemma second_order_face_states_spec (u : MVector) (ugc uleft0 uright0 : Array2d) :
  let ug := primitive_ghost_states E ugc in
  let recon := reconstructed_face_values E u ug uleft0 uright0 in
  exists uleft uright,
    second_order_face_states E u ugc uleft0 uright0 = (ug, uleft, uright, snd recon)
    /\ length uright = gnaface msh
    /\ forall f, (f < gnbface msh)%nat -> (gnbface msh <= gnaface msh)%nat ->
         uleft !! f
         = Some (getConservedFromPrimitive phy (row (fst (fst recon)) f)).
Proof.
  intros ug recon. unfold second_order_face_states. fold ug. fold recon.
  destruct recon as [[rl rr] rg] eqn:Hrecon.
  eexists _, _. split; [reflexivity|]. split.
  - unfold for_range. generalize (seq (gnbface msh) (gnaface msh - gnbface msh)).
    unfold reconstructed_face_values in Hrecon. injection Hrecon as <- <- <-.
    intros l. 
    assert (forall (a : Array2d),
      length (fold_left (fun a iface =>
                alter (getConservedFromPrimitive phy) iface a) l a)
      = length a) as Hlen.
    { induction l as [|x l IH]; intros a; simpl; [reflexivity|].
      now rewrite IH, length_alter. }
    now rewrite Hlen, tabulate_length.
  - intros f Hf Hle. simpl.
    rewrite for_range_alter_lookup. case_decide; [|lia].
    rewrite for_range_alter_lookup. case_decide; [lia|].
    unfold reconstructed_face_values in Hrecon. injection Hrecon as <- <- <-.
    rewrite tabulate_lookup by lia. simpl.
    unfold row. rewrite (tabulate_lookup_total (gnaface msh)) by lia.
    reflexivity.
Qed.

Lemma face_states_inv (u : MVector) (ug uleft uright : Array2d) (grads : GradArray) :
  face_states E u = Ok (ug, uleft, uright, grads) ->
  exists uright0,
    compute_boundary_states E uleft uright0 = Ok uright /\
    if secondOrderRequested E then
      exists ugc,
        compute_boundary_states E (boundary_left_states E u)
          (zeros2 (gnbface msh) NVARS) = Ok ugc /\
        second_order_face_states E u ugc (boundary_left_states E u)
          (zeros2 (gnaface msh) NVARS) = (ug, uleft, uright0, grads)
    else
      first_order_face_states E u (zeros2 (gnbface msh) NVARS)
        (boundary_left_states E u) (zeros2 (gnaface msh) NVARS)
      = (ug, uleft, uright0, grads).
Proof.
  unfold face_states. destruct (secondOrderRequested E).
  - destruct (compute_boundary_states E _ (zeros2 (gnbface msh) NVARS))
      as [ugc|e] eqn:Hugc; result_step; [|discriminate].
    destruct (second_order_face_states E u ugc (boundary_left_states E u)
                (zeros2 (gnaface msh) NVARS)) as [[[ug1 ul1] ur1] gr1] eqn:H2.
    result_step.
    destruct (compute_boundary_states E ul1 ur1) as [ur2|e] eqn:Hur; result_step;
      [|discriminate].
    intros [= <- <- <- <-]. exists ur1. split; [assumption|].
    exists ugc. split; [reflexivity | assumption].
  - result_step.
    destruct (first_order_face_states E u (zeros2 (gnbface msh) NVARS)
                (boundary_left_states E u) (zeros2 (gnaface msh) NVARS))
      as [[[ug1 ul1] ur1] gr1] eqn:H1.
    result_step.
    destruct (compute_boundary_states E ul1 ur1) as [ur2|e] eqn:Hur; result_step;
      [|discriminate].
    intros [= <- <- <- <-]. exists ur1. split; [assumption | reflexivity].
Qed.

Lemma face_states_returns (u : MVector) :
  (forall f, (f < gnbface msh)%nat ->
     is_Some (bcs E !! gintfacbtags msh f 0)) ->
  exists s, face_states E u = Ok s.
Proof.
  intros Hreg. unfold face_states. destruct (secondOrderRequested E).
  - destruct (compute_boundary_states_returns E (boundary_left_states E u)
                (zeros2 (gnbface msh) NVARS) Hreg) as [ugc ->].
    result_step.
    destruct (second_order_face_states E u ugc (boundary_left_states E u)
                (zeros2 (gnaface msh) NVARS)) as [[[ug1 ul1] ur1] gr1].
    result_step.
    destruct (compute_boundary_states_returns E ul1 ur1 Hreg) as [ur2 ->].
    result_step. eexists. reflexivity.
  - result_step.
    destruct (first_order_face_states E u (zeros2 (gnbface msh) NVARS)
                (boundary_left_states E u) (zeros2 (gnaface msh) NVARS))
      as [[[ug1 ul1] ur1] gr1].
    result_step.
    destruct (compute_boundary_states_returns E ul1 ur1 Hreg) as [ur2 ->].
    result_step. eexists. reflexivity.
Qed.

End Face_states.

(** ** C4: ghost states of periodic faces *)

Lemma tabulate_ext {A : Type} (n : nat) (f g : nat -> A) :
  (forall i, (i < n)%nat -> f i = g i) -> tabulate n f = tabulate n g.
Proof.
  intros H. unfold tabulate. apply map_ext_in. intros i Hi.
  apply in_seq in Hi. apply H. lia.
Qed.

Lemma periodic_face_states (E : FlowFV) (u : MVector)
    (ug uleft uright : Array2d) (grads : GradArray) (f i : nat) :
  face_states E u = Ok (ug, uleft, uright, grads) ->
  (f < gnbface (m E))%nat -> (gnbface (m E) <= gnaface (m E))%nat ->
  is_periodic E f = true ->
  (gperiodicmap (m E) f < gnbface (m E))%nat ->
  (i < NVARS)%nat ->
  periodic_ghost_states E u ug uleft uright f i.
Proof.
  intros Hfs Hf Hle Hper Hpf Hi. unfold periodic_ghost_states.
  set (pf := gperiodicmap (m E) f) in *.
  apply face_states_inv in Hfs as (uright0 & Hur & Hphase).
  pose proof (compute_boundary_states_rows E _ _ _ Hur) as [_ Hr].
  destruct (Hr f) as [Hrf _].
  assert (length uright0 = gnaface (m E)) as Hlen0.
  { destruct (secondOrderRequested E).
    - destruct Hphase as (ugc & _ & Hso).
      destruct (second_order_face_states_spec E u ugc (boundary_left_states E u)
                  (zeros2 (gnaface (m E)) NVARS)) as (ul' & ur' & Heq & Hlen & _).
      rewrite Hso in Heq. assert (uright0 = ur') as -> by congruence.
      exact Hlen.
    - destruct (first_order_face_states_spec E u (zeros2 (gnbface (m E)) NVARS)
                  (boundary_left_states E u) (zeros2 (gnaface (m E)) NVARS))
        as (ul' & ur' & Heq & Hlen & _).
      rewrite Hphase in Heq. assert (uright0 = ur') as -> by congruence.
      now rewrite Hlen, zeros2_length. }
  destruct Hrf as (bc & _ & Hrow); [assumption | lia|].
  rewrite Hper in Hrow. fold pf in Hrow.
  assert (at2 uright f i = at2 uleft pf i) as Hright.
  { rewrite (at2_lookup _ _ _ _ Hrow). now apply tabulate_lookup_total. }
  split; [assumption|].
  destruct (secondOrderRequested E).
  - destruct Hphase as (ugc & Hugc & Hso).
    destruct (second_order_face_states_spec E u ugc (boundary_left_states E u)
                (zeros2 (gnaface (m E)) NVARS)) as (ul' & ur' & Heq & _ & Hleft).
    rewrite Hso in Heq.
    assert (ug = primitive_ghost_states E ugc) as -> by congruence.
    assert (ul' = uleft) as -> by congruence.
    split.
    + pose proof (compute_boundary_states_rows E _ _ _ Hugc) as [_ Hg].
      destruct (Hg f) as [Hgf _].
      destruct Hgf as (bc' & _ & Hrowg); [assumption | now rewrite zeros2_length|].
      rewrite Hper in Hrowg. fold pf in Hrowg.
      apply row_lookup. unfold primitive_ghost_states.
      rewrite for_range_alter_lookup. case_decide; [|lia].
      rewrite Hrowg. simpl. f_equal. f_equal. unfold left_cell_state.
      apply tabulate_ext. intros k Hk.
      rewrite (at2_lookup _ _ _ _ (boundary_left_states_lookup E u pf Hpf Hle)).
      now apply tabulate_lookup_total.
    + apply row_lookup. unfold reconstructed_left_values. now apply Hleft.
  - destruct (first_order_face_states_spec E u (zeros2 (gnbface (m E)) NVARS)
                (boundary_left_states E u) (zeros2 (gnaface (m E)) NVARS))
      as (ul' & ur' & Heq & _ & Hleft).
    rewrite Hphase in Heq. assert (ul' = uleft) as -> by congruence.
    rewrite Hright.
    rewrite (at2_lookup uleft pf i _
               (eq_trans (Hleft pf Hpf) (boundary_left_states_lookup E u pf Hpf Hle))).
    now apply tabulate_lookup_total.
Qed.

(** C4, as the code has it. On a mesh whose boundary markers are all
    registered the face states are computed, and on a periodic boundary
    face [f] whose paired face is a boundary face the right state of the
    flux is the left face state of the paired face: the state of the
    paired face's left cell in a first-order run, and its reconstructed
    left face value in a second-order run, where the ghost state of the
    gradient computation is the paired cell state. *)
Theorem periodic_ghost_state (E : FlowFV) (u : MVector) (f i : nat) :
  markers_registered E = true ->
  (f < gnbface (m E))%nat -> (gnbface (m E) <= gnaface (m E))%nat ->
  is_periodic E f = true ->
  (gperiodicmap (m E) f < gnbface (m E))%nat ->
  (i < NVARS)%nat ->
  exists ug uleft uright grads,
    face_states E u = Ok (ug, uleft, uright, grads) /\
    periodic_ghost_states E u ug uleft uright f i.
Proof.
  intros Hreg Hf Hle Hper Hpf Hi.
  destruct (face_states_returns E u (markers_registered_spec E Hreg))
    as [[[[ug ul] ur] gr] Hfs].
  exists ug, ul, ur, gr. split; [assumption|].
  now apply (periodic_face_states E u ug ul ur gr).
Qed.

Lemma periodic_ghost_state_witness :
  exists ug uleft uright grads,
    face_states (Channel.engine true) Channel.u0 = Ok (ug, uleft, uright, grads) /\
    periodic_ghost_states (Channel.engine true) Channel.u0 ug uleft uright 7 0.
Proof.
  apply (periodic_ghost_state (Channel.engine true) Channel.u0 7 0).
  - vm_compute. reflexivity.
  - cbn. lia.
  - cbn. lia.
  - reflexivity.
  - cbn. lia.
  - unfold NVARS. lia.
Defined.

(** C4, as stated, fails in a second-order run: on the channel, face 7 is
    periodic and paired with face 3, whose left cell is cell 2; the right
    state of face 7 has density 3.75, the reconstructed value at face 3,
    where cell 2 has density 4. *)
Lemma periodic_ghost_is_not_the_cell_state :
  face_states (Channel.engine true) Channel.u0 = Ok (Channel.states true) /\
  is_periodic (Channel.engine true) 7 = true /\
  gintfac Channel.mesh (gperiodicmap Channel.mesh 7) 0 = 2%nat /\
  at2 (Channel.uright_of true) 7 0 = 3.75 /\
  at2 Channel.u0 2 0 = 4 /\
  at2 (Channel.uright_of true) 7 0
  <> at2 Channel.u0 (gintfac Channel.mesh (gperiodicmap Channel.mesh 7) 0) 0.
Proof.
  do 5 (split; [vm_compute; reflexivity|]).
  apply float_neq; vm_compute; reflexivity.
Qed.

(** ** The face loop of [compute_residual] *)

Lemma alter_alter {A : Type} (f h : A -> A) (i : nat) (l : list A) :
  alter f i (alter h i l) = alter (fun x => f (h x)) i l.
Proof.
  apply list_eq. intros j. destruct (decide (i = j)) as [->|Hne].
  - rewrite !list_lookup_alter_eq. now destruct (l !! j).
  - now rewrite !list_lookup_alter_ne by assumption.
Qed.

Section Face_loop.
Context (E : FlowFV) (u : MVector) (ug : Array2d) (grads : GradArray)
  (uleft uright : Array2d).

Lemma subtract_fluxes_row (fluxes : list a_real) (elem : nat) (r : MVector) :
  subtract_fluxes fluxes elem r = alter (minus_fluxes fluxes) elem r.
Proof.
  unfold subtract_fluxes, minus_fluxes, for_range, NVARS.
  cbn [seq fold_left Nat.sub]. now rewrite !alter_alter.
Qed.

Lemma add_fluxes_row (fluxes : list a_real) (elem : nat) (r : MVector) :
  add_fluxes fluxes elem r = alter (plus_fluxes fluxes) elem r.
Proof.
  unfold add_fluxes, plus_fluxes, for_range, NVARS.
  cbn [seq fold_left Nat.sub]. now rewrite !alter_alter.
Qed.

Lemma spectral_radii_left (f : nat) :
  fst (spectral_radii E uleft uright f)
  = spectral_radius E (row uleft f) f (gintfac (m E) f 0).
Proof.
  unfold spectral_radii, spectral_radius, convective_radius, viscous_stiffness.
  destruct (viscous_sim (pconfig E)); reflexivity.
Qed.

Lemma spectral_radii_right (f : nat) :
  (gintfac (m E) f 1 <? gnelem (m E))%nat = true ->
  snd (spectral_radii E uleft uright f)
  = spectral_radius E (row uright f) f (gintfac (m E) f 1).
Proof.
  intros Hreal.
  unfold spectral_radii, spectral_radius, convective_radius, viscous_stiffness.
  destruct (viscous_sim (pconfig E)); cbn [snd]; [|reflexivity].
  now rewrite Hreal.
Qed.

(** The residual rows after a run of the loop over the faces [fs]. *)
Lemma face_loop_residual (gts : bool) (fs : list nat)
    (st : MVector * list a_real) (c : nat) :
  fst (fold_left (residual_face E u ug grads uleft uright gts) fs st) !! c
  = (fun r0 =>
       fold_left (fun r upd => upd r)
         (flat_map (face_increments E u ug grads uleft uright c) fs) r0)
    <$> fst st !! c.
Proof.
  revert st. induction fs as [|f fs IH]; intros st.
  - simpl. now destruct (fst st !! c).
  - cbn [fold_left flat_map]. rewrite IH.
    assert (fst (residual_face E u ug grads uleft uright gts st f) !! c
            = (fun r0 => fold_left (fun r upd => upd r)
                 (face_increments E u ug grads uleft uright c f) r0)
              <$> fst st !! c) as ->.
    { unfold residual_face. cbn [fst].
      unfold face_increments, left_of, right_of.
      rewrite subtract_fluxes_row.
      destruct (gintfac (m E) f 1 <? gnelem (m E))%nat; cbn [andb];
        rewrite ?add_fluxes_row;
        destruct (Nat.eqb_spec (gintfac (m E) f 0) c) as [Hl|Hl];
        destruct (Nat.eqb_spec (gintfac (m E) f 1) c) as [Hr|Hr];
        rewrite ?Hl, ?Hr;
        rewrite ?list_lookup_alter_eq, ?list_lookup_alter_ne by congruence;
        rewrite ?list_lookup_alter_eq, ?list_lookup_alter_ne by congruence;
        destruct (fst st !! c); reflexivity. }
    destruct (fst st !! c); simpl; [|reflexivity].
    now rewrite fold_left_app.
Qed.

(** The integrators after a run of the loop that computes time steps. *)
Lemma face_loop_integ (fs : list nat) (st : MVector * list a_real) (c : nat) :
  snd (fold_left (residual_face E u ug grads uleft uright true) fs st) !! c
  = (fun s0 =>
       fold_left (fun s x => s + x) (flat_map (face_radii E uleft uright c) fs) s0)
    <$> snd st !! c.
Proof.
  revert st. induction fs as [|f fs IH]; intros st.
  - simpl. now destruct (snd st !! c).
  - cbn [fold_left flat_map]. rewrite IH.
    assert (snd (residual_face E u ug grads uleft uright true st f) !! c
            = (fun s0 => fold_left (fun s x => s + x)
                 (face_radii E uleft uright c f) s0)
              <$> snd st !! c) as ->.
    { unfold residual_face. cbn [snd].
      unfold face_radii, left_of, right_of.
      rewrite spectral_radii_left.
      destruct (gintfac (m E) f 1 <? gnelem (m E))%nat eqn:Hreal; cbn [andb];
        rewrite ?(spectral_radii_right f Hreal);
        destruct (Nat.eqb_spec (gintfac (m E) f 0) c) as [Hl|Hl];
        destruct (Nat.eqb_spec (gintfac (m E) f 1) c) as [Hr|Hr];
        rewrite ?Hl, ?Hr;
        rewrite ?list_lookup_alter_eq, ?list_lookup_alter_ne by congruence;
        rewrite ?list_lookup_alter_eq, ?list_lookup_alter_ne by congruence;
        destruct (snd st !! c); reflexivity. }
    destruct (snd st !! c); simpl; [|reflexivity].
    now rewrite fold_left_app.
Qed.

(** The integrators do not depend on the residual array. *)
Lemma face_loop_integ_independent (gts : bool) (fs : list nat)
    (r1 r2 : MVector) (integ : list a_real) :
  snd (fold_left (residual_face E u ug grads uleft uright gts) fs (r1, integ))
  = snd (fold_left (residual_face E u ug grads uleft uright gts) fs (r2, integ)).
Proof.
  revert r1 r2 integ. induction fs as [|f fs IH]; intros r1 r2 integ;
    [reflexivity|].
  cbn [fold_left]. unfold residual_face at 2 4. cbn [fst snd]. apply IH.
Qed.

End Face_loop.

(** ** [compute_residual] as a whole *)

Section Residual.
Context (E : FlowFV).

Lemma initial_integrator (c : nat) :
  (c < gnelem (m E))%nat ->
  for_range 0 (gnelem (m E)) (fun a iel => <[iel := 0]> a)
    (zeros (gnelem (m E))) !! c = Some 0.
Proof.
  intros Hc. rewrite (for_range_insert_lookup (fun _ => 0)).
  unfold zeros. rewrite length_replicate. case_decide; [reflexivity | lia].
Qed.

(** Once the face states are there, [compute_residual] returns status 0;
    its residual rows are the prior rows with the flux increments of the
    incident faces applied; its time steps are the cell areas over the
    integrals of the spectral radius, and do not depend on the residual
    array it is given. *)
Lemma compute_residual_spec (uarr rarr : MVector) (gts : bool) (dtm : list a_real)
    (ug uleft uright : Array2d) (grads : GradArray) :
  face_states E uarr = Ok (ug, uleft, uright, grads) ->
  exists r dtm',
    compute_residual E uarr rarr gts dtm = Ok (0%Z, r, dtm') /\
    (forall c, r !! c = accumulated_row E uarr ug grads uleft uright c <$> rarr !! c) /\
    (if gts then
       forall c, (c < gnelem (m E))%nat -> (c < length dtm)%nat ->
         dtm' !! c = Some (garea (m E) c / spectral_radius_integral E uleft uright c)
     else dtm' = dtm) /\
    (forall rarr2, exists r2,
       compute_residual E uarr rarr2 gts dtm = Ok (0%Z, r2, dtm')).
Proof.
  intros Hfs. unfold compute_residual. rewrite Hfs. result_step.
  eexists _, _. split; [reflexivity|]. split; [|split].
  - intros c. unfold for_range at 1. rewrite face_loop_residual.
    rewrite Nat.sub_0_r. reflexivity.
  - destruct gts; [|reflexivity]. intros c Hc Hdt.
    rewrite for_range_insert_lookup. case_decide; [|lia]. do 2 f_equal.
    apply list_lookup_total_correct. unfold for_range at 1.
    rewrite face_loop_integ. cbn [snd]. rewrite (initial_integrator c Hc).
    rewrite Nat.sub_0_r. reflexivity.
  - intros rarr2. eexists. do 2 f_equal.
    unfold for_range at 2 4.
    now rewrite (face_loop_integ_independent E uarr ug grads uleft uright gts _
                   rarr2 rarr).
Qed.

End Residual.

(** ** C5: local time steps *)

(** C5. On a mesh whose boundary markers are all registered, an
    evaluation that is asked for time steps returns, and the time step of
    every cell [c] is its area divided by the integral accumulated for
    it: the sum, over the faces incident to [c] in face order and
    starting from zero, of (|vn| + c) l, plus, in a viscous simulation,
    max(4/(3 rho), gamma/rho) mu/Pr l^2/|Omega_c|. The ghost cell on the
    right of a boundary face receives nothing. *)
Theorem local_time_step (E : FlowFV) (uarr rarr : MVector) (dtm : list a_real)
    (c : nat) :
  markers_registered E = true ->
  (c < gnelem (m E))%nat -> (c < length dtm)%nat ->
  exists ug uleft uright grads r dtm',
    face_states E uarr = Ok (ug, uleft, uright, grads) /\
    compute_residual E uarr rarr true dtm = Ok (0%Z, r, dtm') /\
    dtm' !! c = Some (garea (m E) c / spectral_radius_integral E uleft uright c).
Proof.
  intros Hreg Hc Hdt.
  destruct (face_states_returns E uarr (markers_registered_spec E Hreg))
    as [[[[ug ul] ur] gr] Hfs].
  destruct (compute_residual_spec E uarr rarr true dtm _ _ _ _ Hfs)
    as (r & dtm' & Hrun & _ & Hdtm & _).
  exists ug, ul, ur, gr, r, dtm'.
  split; [assumption|]. split; [assumption|]. now apply Hdtm.
Qed.

Lemma local_time_step_witness :
  exists ug uleft uright grads r dtm',
    face_states (Channel.engine false) Channel.u0 = Ok (ug, uleft, uright, grads) /\
    compute_residual (Channel.engine false) Channel.u0 Channel.r_zero true [0; 0; 0]
    = Ok (0%Z, r, dtm') /\
    dtm' !! 1%nat
    = Some (garea Channel.mesh 1
            / spectral_radius_integral (Channel.engine false) uleft uright 1).
Proof.
  apply (local_time_step (Channel.engine false) Channel.u0 Channel.r_zero
           [0; 0; 0] 1).
  - vm_compute. reflexivity.
  - cbn. lia.
  - cbn. lia.
Defined.

(** ** C1: what [compute_residual] initializes *)

(** C1, as stated, fails: the residual array is not set to zero. On the
    channel, the same state gives two different residuals when the output
    array holds zeros and when it holds ones: the fluxes of y-momentum
    of cell 0 cancel, and entry (0, 2) comes back as 0 and as 1. *)
Lemma residual_depends_on_prior_contents :
  (exists r dtm,
     compute_residual (Channel.engine false) Channel.u0 Channel.r_zero false []
     = Ok (0%Z, r, dtm) /\ at2 r 0 2 = 0) /\
  (exists r dtm,
     compute_residual (Channel.engine false) Channel.u0 Channel.r_one false []
     = Ok (0%Z, r, dtm) /\ at2 r 0 2 = 1) /\
  compute_residual (Channel.engine false) Channel.u0 Channel.r_zero false []
  <> compute_residual (Channel.engine false) Channel.u0 Channel.r_one false [].
Proof.
  split; [|split].
  - eexists _, _. split; vm_compute; reflexivity.
  - eexists _, _. split; vm_compute; reflexivity.
  - intros H.
    apply (f_equal (fun out =>
             match out with
             | Ok (_, r, _) => PrimFloat.eqb (at2 r 0 2) 0
             | Throw _ => true
             end)) in H.
    vm_compute in H. discriminate.
Qed.

(** C1, as the code has it. The integral of the spectral radius starts
    from zero, the residual array does not: on a mesh whose boundary
    markers are all registered, the evaluation returns the prior contents
    of each residual row with the integrated fluxes of the incident faces
    subtracted (left cell) and added (right real cell), in face order. The
    increments, and the time steps, are the same whatever the array held
    before. *)
Theorem residual_accumulates_on_prior_contents (E : FlowFV) (uarr rarr : MVector)
    (gts : bool) (dtm : list a_real) :
  markers_registered E = true ->
  exists ug uleft uright grads r dtm',
    face_states E uarr = Ok (ug, uleft, uright, grads) /\
    compute_residual E uarr rarr gts dtm = Ok (0%Z, r, dtm') /\
    (forall c, r !! c = accumulated_row E uarr ug grads uleft uright c <$> rarr !! c) /\
    (gts = true ->
     forall c, (c < gnelem (m E))%nat -> (c < length dtm)%nat ->
       dtm' !! c
       = Some (garea (m E) c / spectral_radius_integral E uleft uright c)) /\
    (forall rarr2, exists r2,
       compute_residual E uarr rarr2 gts dtm = Ok (0%Z, r2, dtm') /\
       forall c,
         r2 !! c = accumulated_row E uarr ug grads uleft uright c <$> rarr2 !! c).
Proof.
  intros Hreg.
  destruct (face_states_returns E uarr (markers_registered_spec E Hreg))
    as [[[[ug ul] ur] gr] Hfs].
  destruct (compute_residual_spec E uarr rarr gts dtm _ _ _ _ Hfs)
    as (r & dtm' & Hrun & Hrows & Hdtm & Hindep).
  exists ug, ul, ur, gr, r, dtm'.
  split; [assumption|]. split; [assumption|]. split; [assumption|].
  split; [intros ->; exact Hdtm|].
  intros rarr2. destruct (Hindep rarr2) as [r2 Hrun2].
  exists r2. split; [assumption|].
  destruct (compute_residual_spec E uarr rarr2 gts dtm _ _ _ _ Hfs)
    as (r2' & dtm2 & Hrun2' & Hrows2 & _).
  rewrite Hrun2 in Hrun2'. now injection Hrun2' as <- _.
Qed.

Lemma residual_accumulates_on_prior_contents_witness :
  exists ug uleft uright grads r dtm',
    face_states (Channel.engine false) Channel.u0 = Ok (ug, uleft, uright, grads) /\
    compute_residual (Channel.engine false) Channel.u0 Channel.r_one true [0; 0; 0]
    = Ok (0%Z, r, dtm') /\
    (forall c,
       r !! c
       = accumulated_row (Channel.engine false) Channel.u0 ug grads uleft uright c
         <$> Channel.r_one !! c) /\
    (true = true ->
     forall c, (c < gnelem (m (Channel.engine false)))%nat ->
       (c < length [0; 0; 0])%nat ->
       dtm' !! c
       = Some (garea (m (Channel.engine false)) c
               / spectral_radius_integral (Channel.engine false) uleft uright c)) /\
    (forall rarr2, exists r2,
       compute_residual (Channel.engine false) Channel.u0 rarr2 true [0; 0; 0]
       = Ok (0%Z, r2, dtm') /\
       forall c,
         r2 !! c
         = accumulated_row (Channel.engine false) Channel.u0 ug grads uleft uright c
           <$> rarr2 !! c).
Proof.
  apply (residual_accumulates_on_prior_contents (Channel.engine false)).
  vm_compute. reflexivity.
Defined.

(** ** C9: the boundary condition is applied twice in a second-order run *)

Section Second_order.
Context (E : FlowFV) (u : MVector).

Lemma boundary_left_states_spec :
  boundary_left_states E u = cell_left_states E u.
Proof.
  apply list_eq. intros k. unfold boundary_left_states, cell_left_states.
  rewrite for_range_insert_lookup, zeros2_length.
  destruct (decide (k < gnaface (m E))%nat) as [Hk|Hk].
  - rewrite tabulate_lookup by exact Hk.
    destruct (Nat.ltb_spec k (gnbface (m E))); case_decide; try lia.
    + reflexivity.
    + unfold zeros2. now rewrite lookup_replicate_2.
  - rewrite (lookup_ge_None_2 (tabulate _ _)) by (rewrite tabulate_length; lia).
    case_decide; [lia|]. apply lookup_ge_None_2. rewrite zeros2_length. lia.
Qed.

Lemma primitive_cell_states_spec :
  primitive_cell_states E u = primitive_cells E u.
Proof.
  apply list_eq. intros k. unfold primitive_cell_states, primitive_cells.
  rewrite for_range_insert_lookup, zeros2_length.
  destruct (decide (k < gnelem (m E))%nat) as [Hk|Hk].
  - rewrite tabulate_lookup by exact Hk. case_decide; [reflexivity | lia].
  - rewrite (lookup_ge_None_2 (tabulate _ _)) by (rewrite tabulate_length; lia).
    case_decide; [lia|]. apply lookup_ge_None_2. rewrite zeros2_length. lia.
Qed.

Lemma gradient_ghost_states_spec (ugc : Array2d) :
  compute_boundary_states E (boundary_left_states E u)
    (zeros2 (gnbface (m E)) NVARS) = Ok ugc ->
  primitive_ghost_states E ugc = gradient_ghost_states E u.
Proof.
  intros Hugc.
  apply compute_boundary_states_rows in Hugc as [Hlen Hrows].
  rewrite zeros2_length in Hlen.
  apply list_eq. intros k. unfold primitive_ghost_states, gradient_ghost_states.
  rewrite for_range_alter_lookup.
  destruct (decide (k < gnbface (m E))%nat) as [Hk|Hk].
  - rewrite tabulate_lookup by exact Hk. case_decide; [|lia].
    destruct (Hrows k) as [Hin _].
    destruct Hin as (bc & Hbc & ->); [exact Hk | now rewrite zeros2_length|].
    unfold registered_treatment, ghost_state_from.
    now rewrite Hbc, boundary_left_states_spec.
  - rewrite (lookup_ge_None_2 (tabulate _ _)) by (rewrite tabulate_length; lia).
    case_decide; [lia|]. apply lookup_ge_None_2. lia.
Qed.

(** The face states of a second-order evaluation: ghost states, left
    states and gradients are those of the specification; [uright0] is the
    array of right states before the boundary treatment. *)
Lemma second_order_face_states_are (ugc : Array2d) :
  (gnbface (m E) <= gnaface (m E))%nat ->
  compute_boundary_states E (boundary_left_states E u)
    (zeros2 (gnbface (m E)) NVARS) = Ok ugc ->
  exists uright0,
    second_order_face_states E u ugc (boundary_left_states E u)
      (zeros2 (gnaface (m E)) NVARS)
    = (gradient_ghost_states E u, reconstructed_left_states E u, uright0,
       cell_gradients E u)
    /\ length uright0 = gnaface (m E).
Proof.
  intros Hle Hugc.
  destruct (second_order_face_states_spec E u ugc (boundary_left_states E u)
              (zeros2 (gnaface (m E)) NVARS)) as (ul & ur & Heq & Hlen & _).
  exists ur. split; [|exact Hlen].
  rewrite Heq. clear Hlen.
  unfold second_order_face_states, reconstructed_face_values in Heq.
  injection Heq as Hul _.
  rewrite (gradient_ghost_states_spec ugc Hugc).
  unfold reconstructed_face_values. cbn [snd].
  rewrite primitive_cell_states_spec.
  fold (cell_gradients E u). do 2 f_equal. rewrite <- Hul.
  rewrite (gradient_ghost_states_spec ugc Hugc), primitive_cell_states_spec,
    boundary_left_states_spec.
  fold (cell_gradients E u). fold (limited_face_values E u). f_equal.
  apply list_eq. intros k. unfold reconstructed_left_states.
  rewrite !for_range_alter_lookup.
  destruct (decide (k < gnaface (m E))%nat) as [Hk|Hk].
  - rewrite !tabulate_lookup by exact Hk. repeat case_decide; try lia; reflexivity.
  - rewrite !(lookup_ge_None_2 (tabulate _ _)) by (rewrite tabulate_length; lia).
    repeat case_decide; reflexivity.
Qed.

End Second_order.

(** At the periodic face 7 of the channel the right state of a
    second-order evaluation is not the ghost state that the registered
    boundary condition computes from the reconstructed left state of the
    face: it is the reconstructed left state of the paired face 3. *)
Lemma periodic_right_state_is_not_the_ghost_state :
  exists bc ug uleft uright grads,
    secondOrderRequested (Channel.engine true) = true /\
    (7 < gnbface (m (Channel.engine true)))%nat /\
    bcs (Channel.engine true) !! gintfacbtags (m (Channel.engine true)) 7 0 = Some bc /\
    face_states (Channel.engine true) Channel.u0 = Ok (ug, uleft, uright, grads) /\
    row uright 7 = row uleft 3 /\
    row uright 7
    <> computeGhostState bc (row uleft 7) (gnormal (m (Channel.engine true)) 7).
Proof.
  exists Channel.Extrapolation.
  destruct (face_states (Channel.engine true) Channel.u0)
    as [[[[ug uleft] uright] grads]|e] eqn:Hfs; [|vm_compute in Hfs; discriminate].
  exists ug, uleft, uright, grads.
  split; [reflexivity|]. split; [cbn; lia|]. split; [reflexivity|].
  split; [reflexivity|].
  vm_compute in Hfs. injection Hfs as <- <- <- <-.
  split; [vm_compute; reflexivity|].
  intros Heq. apply (f_equal (fun r => r !!! 0%nat)) in Heq.
  vm_compute in Heq. revert Heq. apply float_neq; vm_compute; reflexivity.
Qed.

(** C9. With second-order reconstruction, on a mesh whose boundary
    markers are all registered, the face states are computed. The
    gradient scheme and the reconstruction work on the cell states and on
    the ghost states of the cell-centred left states, all in primitive
    variables; the left state of a face is its limited face value
    converted back to conserved variables. At every boundary face [f]
    the boundary treatment is applied twice: to the cell-centred left
    states, for the ghost state that feeds the gradients, and to the
    reconstructed left states, for the right state of the inviscid flux
    whose integral over the face enters the residual. Where [f] does not
    carry the periodic marker, with boundary condition [bc], these are
    the ghost states that [bc] computes from the state of the left cell
    and from the reconstructed left face value; where it does, they are
    the copies of the rows of the paired face. *)
Theorem boundary_condition_on_reconstructed_state (E : FlowFV)
    (u r : MVector) (gts : bool) (dtm : list a_real) :
  secondOrderRequested E = true ->
  markers_registered E = true ->
  (gnbface (m E) <= gnaface (m E))%nat ->
  exists uright,
    face_states E u
    = Ok (gradient_ghost_states E u, reconstructed_left_states E u, uright,
          cell_gradients E u) /\
    (forall f, (f < gnbface (m E))%nat ->
       exists bc,
         bcs E !! gintfacbtags (m E) f 0 = Some bc /\
         row (gradient_ghost_states E u) f
         = getPrimitiveFromConserved (physics E)
             (ghost_state_from E bc (cell_left_states E u) f) /\
         row (cell_left_states E u) f = left_cell_state E u f /\
         row (reconstructed_left_states E u) f
         = getConservedFromPrimitive (physics E)
             (row (fst (limited_face_values E u)) f) /\
         row uright f = ghost_state_from E bc (reconstructed_left_states E u) f /\
         face_fluxes E u (gradient_ghost_states E u) (cell_gradients E u)
           (reconstructed_left_states E u) uright f
         = (if viscous_sim (pconfig E) then
              tabulate NVARS (fun ivar =>
                boundary_inviscid_flux E u bc f !!! ivar
                + computeViscousFlux E f (row u (gintfac (m E) f 0)) None
                    (gradient_ghost_states E u) (cell_gradients E u)
                    (reconstructed_left_states E u) uright !!! ivar
                  * gfacemetric (m E) f 2)
            else boundary_inviscid_flux E u bc f) /\
         (is_periodic E f = false ->
          row (gradient_ghost_states E u) f
          = getPrimitiveFromConserved (physics E)
              (computeGhostState bc (left_cell_state E u f) (gnormal (m E) f)) /\
          row uright f
          = computeGhostState bc
              (getConservedFromPrimitive (physics E)
                 (row (fst (limited_face_values E u)) f))
              (gnormal (m E) f)) /\
         (is_periodic E f = true ->
          forall i, (i < NVARS)%nat ->
            at2 uright f i
            = at2 (reconstructed_left_states E u) (gperiodicmap (m E) f) i)) /\
    exists r' dtm',
      compute_residual E u r gts dtm = Ok (0%Z, r', dtm') /\
      forall c,
        r' !! c
        = accumulated_row E u (gradient_ghost_states E u) (cell_gradients E u)
            (reconstructed_left_states E u) uright c <$> r !! c.
Proof.
  intros H2 Hreg Hle.
  destruct (face_states_returns E u (markers_registered_spec E Hreg))
    as [[[[ug ul] ur] gr] Hfs].
  pose proof (face_states_inv E u ug ul ur gr Hfs) as (uright0 & Hur & Hphase).
  rewrite H2 in Hphase. destruct Hphase as (ugc & Hugc & Hso).
  destruct (second_order_face_states_are E u ugc Hle Hugc) as (ur0 & Hare & Hlen0).
  rewrite Hso in Hare. injection Hare as -> -> -> ->.
  exists ur. split; [exact Hfs|]. split.
  - intros f Hf.
    pose proof (compute_boundary_states_rows E _ _ _ Hur) as [_ Hrows].
    destruct (Hrows f) as [Hin _].
    destruct Hin as (bc & Hbc & Hrow); [exact Hf | lia|].
    fold (ghost_state_from E bc (reconstructed_left_states E u) f) in Hrow.
    apply row_lookup in Hrow.
    assert (row (gradient_ghost_states E u) f
            = getPrimitiveFromConserved (physics E)
                (ghost_state_from E bc (cell_left_states E u) f)) as Hghost.
    { apply row_lookup. unfold gradient_ghost_states.
      rewrite tabulate_lookup by exact Hf.
      unfold registered_treatment. now rewrite Hbc. }
    assert (row (cell_left_states E u) f = left_cell_state E u f) as Hcell.
    { apply row_lookup. unfold cell_left_states.
      rewrite tabulate_lookup by lia.
      destruct (Nat.ltb_spec f (gnbface (m E))); [reflexivity | lia]. }
    assert (row (reconstructed_left_states E u) f
            = getConservedFromPrimitive (physics E)
                (row (fst (limited_face_values E u)) f)) as Hleft.
    { apply row_lookup. unfold reconstructed_left_states.
      now rewrite tabulate_lookup by lia. }
    exists bc. split; [exact Hbc|]. split; [exact Hghost|].
    split; [exact Hcell|]. split; [exact Hleft|]. split; [exact Hrow|].
    split; [|split].
    + unfold face_fluxes, boundary_inviscid_flux. rewrite Hrow.
      destruct (Nat.ltb_spec f (gnbface (m E))); [reflexivity | lia].
    + intros Hper. rewrite Hghost, Hrow. unfold ghost_state_from.
      now rewrite Hper, Hcell, Hleft.
    + intros Hper i Hi. unfold at2 at 1. fold (row ur f). rewrite Hrow.
      unfold ghost_state_from. rewrite Hper.
      now rewrite tabulate_lookup_total by exact Hi.
  - destruct (compute_residual_spec E u r gts dtm _ _ _ _ Hfs)
      as (r' & dtm' & Hres & Hacc & _).
    exists r', dtm'. split; [exact Hres | exact Hacc].
Qed.

Lemma boundary_condition_on_reconstructed_state_witness :
  exists uright,
    face_states (Channel.engine true) Channel.u0
    = Ok (gradient_ghost_states (Channel.engine true) Channel.u0,
          reconstructed_left_states (Channel.engine true) Channel.u0, uright,
          cell_gradients (Channel.engine true) Channel.u0) /\
    (forall f, (f < gnbface (m (Channel.engine true)))%nat ->
       exists bc,
         bcs (Channel.engine true) !! gintfacbtags (m (Channel.engine true)) f 0
         = Some bc /\
         row (gradient_ghost_states (Channel.engine true) Channel.u0) f
         = getPrimitiveFromConserved (physics (Channel.engine true))
             (ghost_state_from (Channel.engine true) bc
                (cell_left_states (Channel.engine true) Channel.u0) f) /\
         row (cell_left_states (Channel.engine true) Channel.u0) f
         = left_cell_state (Channel.engine true) Channel.u0 f /\
         row (reconstructed_left_states (Channel.engine true) Channel.u0) f
         = getConservedFromPrimitive (physics (Channel.engine true))
             (row (fst (limited_face_values (Channel.engine true) Channel.u0)) f) /\
         row uright f
         = ghost_state_from (Channel.engine true) bc
             (reconstructed_left_states (Channel.engine true) Channel.u0) f /\
         face_fluxes (Channel.engine true) Channel.u0
           (gradient_ghost_states (Channel.engine true) Channel.u0)
           (cell_gradients (Channel.engine true) Channel.u0)
           (reconstructed_left_states (Channel.engine true) Channel.u0) uright f
         = (if viscous_sim (pconfig (Channel.engine true)) then
              tabulate NVARS (fun ivar =>
                boundary_inviscid_flux (Channel.engine true) Channel.u0 bc f !!! ivar
                + computeViscousFlux (Channel.engine true) f
                    (row Channel.u0 (gintfac (m (Channel.engine true)) f 0)) None
                    (gradient_ghost_states (Channel.engine true) Channel.u0)
                    (cell_gradients (Channel.engine true) Channel.u0)
                    (reconstructed_left_states (Channel.engine true) Channel.u0)
                    uright !!! ivar
                  * gfacemetric (m (Channel.engine true)) f 2)
            else boundary_inviscid_flux (Channel.engine true) Channel.u0 bc f) /\
         (is_periodic (Channel.engine true) f = false ->
          row (gradient_ghost_states (Channel.engine true) Channel.u0) f
          = getPrimitiveFromConserved (physics (Channel.engine true))
              (computeGhostState bc
                 (left_cell_state (Channel.engine true) Channel.u0 f)
                 (gnormal (m (Channel.engine true)) f)) /\
          row uright f
          = computeGhostState bc
              (getConservedFromPrimitive (physics (Channel.engine true))
                 (row (fst (limited_face_values (Channel.engine true) Channel.u0)) f))
              (gnormal (m (Channel.engine true)) f)) /\
         (is_periodic (Channel.engine true) f = true ->
          forall i, (i < NVARS)%nat ->
            at2 uright f i
            = at2 (reconstructed_left_states (Channel.engine true) Channel.u0)
                (gperiodicmap (m (Channel.engine true)) f) i)) /\
    exists r' dtm',
      compute_residual (Channel.engine true) Channel.u0 Channel.r_zero true [0; 0; 0]
      = Ok (0%Z, r', dtm') /\
      forall c,
        r' !! c
        = accumulated_row (Channel.engine true) Channel.u0
            (gradient_ghost_states (Channel.engine true) Channel.u0)
            (cell_gradients (Channel.engine true) Channel.u0)
            (reconstructed_left_states (Channel.engine true) Channel.u0) uright c
          <$> Channel.r_zero !! c.
Proof.
  apply (boundary_condition_on_reconstructed_state (Channel.engine true)
           Channel.u0 Channel.r_zero true [0; 0; 0]).
  - reflexivity.
  - vm_compute. reflexivity.
  - cbn. lia.
Defined.

(** ** C2: states with a negative density *)

Lemma throws_only_ok {A : Type} (Q : exn -> Prop) (a : A) : throws_only Q (Ok a).
Proof. intros e H. discriminate. Qed.

Lemma throws_only_throw {A : Type} (Q : exn -> Prop) (e : exn) :
  Q e -> throws_only Q (@Throw A e).
Proof. intros H e' [= <-]. exact H. Qed.

Lemma throws_only_bind {A B : Type} (Q : exn -> Prop) (r : result A)
    (k : A -> result B) :
  throws_only Q r -> (forall a, throws_only Q (k a)) -> throws_only Q (r ≫= k).
Proof.
  intros Hr Hk. destruct r as [a|e]; cbn.
  - apply Hk.
  - apply throws_only_throw, (Hr e). reflexivity.
Qed.

Lemma throws_only_foldM {S A : Type} (Q : exn -> Prop) (body : S -> A -> result S)
    (l : list A) (s : S) :
  (forall s x, throws_only Q (body s x)) -> throws_only Q (foldM body l s).
Proof.
  intros Hbody. revert s. induction l as [|x l IH]; intros s; cbn [foldM].
  - apply throws_only_ok.
  - pose proof (Hbody s x) as Hx. destruct (body s x) as [s'|e].
    + apply IH.
    + apply throws_only_throw, (Hx e). reflexivity.
Qed.

Lemma throws_only_weaken {A : Type} (P Q : exn -> Prop) (r : result A) :
  (forall e, P e -> Q e) -> throws_only P r -> throws_only Q r.
Proof. intros HPQ Hr e He. apply HPQ, Hr, He. Qed.

(** The exceptions that leave the engine are those of its collaborators,
    the registry's [std::out_of_range] and the failed assertions. *)
Section Engine_throws.
Context (E : Throwing.FlowFV) (P Q : exn -> Prop).
Hypothesis collaborators : collaborators_throw P E.
Hypothesis theirs : forall e, P e -> Q e.
Hypothesis registry : Q std_out_of_range.

Ltac collaborator :=
  apply (throws_only_weaken P Q _ theirs);
  destruct collaborators as (? & ? & ? & ? & ? & ? & ? & ? & ? & ? & ? & ? & ? & ?);
  eauto.

Ltac throws_step :=
  first
    [ apply throws_only_ok
    | apply throws_only_bind; [|intros]
    | apply throws_only_foldM; intros
    | match goal with
      | |- throws_only _ (if ?b then _ else _) => destruct b
      | |- throws_only _ (let '(_, _) := ?x in _) => destruct x
      | |- throws_only _ ((let '(_, _) := ?x in _) _) => destruct x
      end
    | solve [collaborator] ].

Lemma compute_boundary_state_throws (ied : nat) (ins : list a_real) :
  throws_only Q (Throwing.compute_boundary_state E ied ins).
Proof.
  unfold Throwing.compute_boundary_state.
  destruct (Throwing.bcs E !! gintfacbtags (Throwing.m E) ied 0) as [bc|] eqn:Hbc.
  - collaborator.
  - apply throws_only_throw, registry.
Qed.

Lemma compute_boundary_states_throws_only (ins bs : Array2d) :
  throws_only Q (Throwing.compute_boundary_states E ins bs).
Proof.
  unfold Throwing.compute_boundary_states.
  apply throws_only_foldM. intros s x. apply throws_only_bind.
  - apply compute_boundary_state_throws.
  - intros a. apply throws_only_ok.
Qed.

Lemma temperature_gradient_step_throws (uc : list a_real) (gr : Array2d) (j : nat) :
  throws_only Q (Throwing.temperature_gradient_step E uc gr j).
Proof. unfold Throwing.temperature_gradient_step. repeat throws_step. Qed.

Lemma face_viscosity_throws (ul ur : list a_real) :
  throws_only Q (Throwing.face_viscosity E ul ur).
Proof. unfold Throwing.face_viscosity. repeat throws_step. Qed.

Lemma computeViscousFlux_throws (iface : nat) (ucell_l : list a_real)
    (ucell_r : option (list a_real)) (ug : Array2d) (grads : GradArray)
    (ul ur : Array2d) :
  throws_only Q (Throwing.computeViscousFlux E iface ucell_l ucell_r ug grads ul ur).
Proof.
  unfold Throwing.computeViscousFlux.
  repeat first [ apply temperature_gradient_step_throws
               | apply face_viscosity_throws
               | throws_step ].
Qed.

Lemma face_states_throws_only (u : MVector) :
  throws_only Q (Throwing.face_states E u).
Proof.
  unfold Throwing.face_states, Throwing.second_order_face_states,
    Throwing.primitive_ghost_states, Throwing.primitive_cell_states.
  repeat first [ apply compute_boundary_states_throws_only | throws_step ].
Qed.

Lemma residual_face_throws (u : MVector) (ug : Array2d) (grads : GradArray)
    (uleft uright : Array2d) (gts : bool) (st : MVector * list a_real) (ied : nat) :
  throws_only Q (Throwing.residual_face E u ug grads uleft uright gts st ied).
Proof.
  unfold Throwing.residual_face, Throwing.face_fluxes, Throwing.spectral_radii.
  repeat first [ apply computeViscousFlux_throws | throws_step ].
Qed.

Lemma compute_residual_throws_only (uarr rarr : MVector) (gts : bool)
    (dtm : list a_real) :
  throws_only Q (Throwing.compute_residual E uarr rarr gts dtm).
Proof.
  unfold Throwing.compute_residual.
  repeat first [ apply face_states_throws_only | apply residual_face_throws
               | throws_step ].
Qed.

Lemma assemble_residual_throws_only (uvec rvec : Vec) (gts : bool)
    (dtm : list a_real) :
  Q assertion_failure ->
  throws_only Q (Throwing.assemble_residual E uvec rvec gts dtm).
Proof.
  intros Hassert. unfold Throwing.assemble_residual.
  repeat first [ apply compute_residual_throws_only
               | apply throws_only_throw, Hassert
               | throws_step ].
Qed.

End Engine_throws.

(** With collaborators that always return, [Throwing] is the residual
    evaluation of the first part. *)
Lemma foldM_returns {S A : Type} (body : S -> A -> result S) (f : S -> A -> S)
    (l : list A) (s : S) :
  (forall s x, body s x = Ok (f s x)) -> foldM body l s = Ok (fold_left f l s).
Proof.
  intros Hbody. revert s. induction l as [|x l IH]; intros s; cbn [foldM fold_left].
  - reflexivity.
  - rewrite Hbody. apply IH.
Qed.

Lemma foldM_ext {S A : Type} (body1 body2 : S -> A -> result S) (l : list A) (s : S) :
  (forall s x, body1 s x = body2 s x) -> foldM body1 l s = foldM body2 l s.
Proof.
  intros Hext. revert s. induction l as [|x l IH]; intros s; [reflexivity|].
  cbn [foldM]. rewrite Hext. destruct (body2 s x); [apply IH | reflexivity].
Qed.

Lemma insert_alter {A : Type} `{Inhabited A} (f : A -> A) (i : nat) (a : list A) :
  <[i := f (a !!! i)]> a = alter f i a.
Proof.
  revert i. induction a as [|x a IH]; intros [|i]; cbn; try reflexivity.
  f_equal. apply IH.
Qed.

Lemma pair_loop {A B I : Type} (F : I -> A -> A) (G : I -> B -> B) (l : list I)
    (a : A) (b : B) :
  fold_left (fun '(a, b) i => (F i a, G i b)) l (a, b)
  = (fold_left (fun a i => F i a) l a, fold_left (fun b i => G i b) l b).
Proof.
  revert a b. induction l as [|i l IH]; intros a b; [reflexivity|].
  cbn [fold_left]. apply IH.
Qed.

Section Returning.
Context (E : FlowFV).

Lemma returning_boundary_state (ied : nat) (ins : list a_real) :
  Throwing.compute_boundary_state (returning E) ied ins
  = compute_boundary_state E ied ins.
Proof.
  unfold Throwing.compute_boundary_state, compute_boundary_state.
  cbn [returning Throwing.bcs Throwing.m]. rewrite lookup_fmap.
  destruct (bcs E !! gintfacbtags (m E) ied 0); reflexivity.
Qed.

Lemma returning_boundary_states (ins bs : Array2d) :
  Throwing.compute_boundary_states (returning E) ins bs
  = compute_boundary_states E ins bs.
Proof.
  unfold Throwing.compute_boundary_states, compute_boundary_states.
  apply foldM_ext. intros s x. now rewrite returning_boundary_state.
Qed.

Lemma returning_viscous_flux (iface : nat) (ucell_l : list a_real)
    (ucell_r : option (list a_real)) (ug : Array2d) (grads : GradArray)
    (ul ur : Array2d) :
  Throwing.computeViscousFlux (returning E) iface ucell_l ucell_r ug grads ul ur
  = Ok (computeViscousFlux E iface ucell_l ucell_r ug grads ul ur).
Proof.
  unfold Throwing.computeViscousFlux, computeViscousFlux,
    Throwing.face_viscosity, face_viscosity.
  cbn [returning Throwing.m Throwing.secondOrderRequested Throwing.constVisc].
  destruct (iface <? gnbface (m E))%nat, (secondOrderRequested E), (constVisc E);
    reflexivity.
Qed.

Lemma returning_face_states (u : MVector) :
  Throwing.face_states (returning E) u = face_states E u.
Proof.
  unfold Throwing.face_states, face_states.
  cbn [returning Throwing.secondOrderRequested Throwing.m].
  change (Throwing.boundary_left_states (returning E) u)
    with (boundary_left_states E u).
  destruct (secondOrderRequested E).
  - rewrite returning_boundary_states.
    destruct (compute_boundary_states E _ _) as [ugc|e]; [|reflexivity].
    result_step.
    assert (Throwing.second_order_face_states (returning E) u ugc
              (boundary_left_states E u) (zeros2 (gnaface (m E)) NVARS)
            = Ok (second_order_face_states E u ugc (boundary_left_states E u)
                    (zeros2 (gnaface (m E)) NVARS))) as ->.
    { unfold Throwing.second_order_face_states, second_order_face_states,
        reconstructed_face_values, Throwing.primitive_ghost_states,
        Throwing.primitive_cell_states, primitive_ghost_states,
        primitive_cell_states, for_range.
      cbn [returning Throwing.m Throwing.physics returning_physics
           Throwing.getPrimitiveFromConserved Throwing.getConservedFromPrimitive
           Throwing.gradcomp Throwing.lim Throwing.compute_gradients
           Throwing.compute_face_values].
      rewrite (foldM_returns _
                 (fun a iface => alter (getPrimitiveFromConserved (physics E)) iface a)
                 (seq 0 (gnbface (m E))) ugc)
        by (intros s x; result_step; unfold row; f_equal; apply insert_alter).
      result_step.
      rewrite (foldM_returns _
                 (fun a iel =>
                    <[iel := getPrimitiveFromConserved (physics E) (row u iel)]> a)
                 (seq 0 (gnelem (m E))))
        by (intros s x; reflexivity).
      result_step.
      rewrite (foldM_returns _
                 (fun '(ul, ur) iface =>
                    (alter (getConservedFromPrimitive (physics E)) iface ul,
                     alter (getConservedFromPrimitive (physics E)) iface ur))
                 (seq (gnbface (m E)) (gnaface (m E) - gnbface (m E))))
        by (intros [ul ur] x; result_step; unfold row; do 2 f_equal;
            apply insert_alter).
      rewrite pair_loop. result_step.
      rewrite (foldM_returns _
                 (fun a iface => alter (getConservedFromPrimitive (physics E)) iface a))
        by (intros s x; result_step; unfold row; f_equal; apply insert_alter).
      result_step.
      rewrite !Nat.sub_0_r. reflexivity. }
    result_step.
    destruct (second_order_face_states E u ugc _ _) as [[[ug ul] ur] gr].
    now rewrite returning_boundary_states.
  - result_step.
    change (Throwing.first_order_face_states (returning E))
      with (first_order_face_states E).
    destruct (first_order_face_states E u _ _ _) as [[[ug ul] ur] gr].
    now rewrite returning_boundary_states.
Qed.

Lemma returning_residual_face (u : MVector) (ug : Array2d) (grads : GradArray)
    (uleft uright : Array2d) (gts : bool) (st : MVector * list a_real) (ied : nat) :
  Throwing.residual_face (returning E) u ug grads uleft uright gts st ied
  = Ok (residual_face E u ug grads uleft uright gts st ied).
Proof.
  unfold Throwing.residual_face, residual_face, Throwing.face_fluxes, face_fluxes,
    Throwing.spectral_radii, spectral_radii.
  cbn [returning Throwing.m Throwing.pconfig Throwing.inviflux Throwing.get_flux
       Throwing.physics returning_physics Throwing.constVisc
       Throwing.getSoundSpeedFromConserved Throwing.getConstantViscosityCoeff
       Throwing.getViscosityCoeffFromConserved Throwing.g Throwing.Pr].
  result_step.
  destruct (viscous_sim (pconfig E)) eqn:Hvisc.
  - rewrite returning_viscous_flux. result_step.
    destruct gts; [|reflexivity].
    destruct (constVisc E); reflexivity.
  - destruct gts; reflexivity.
Qed.

Lemma returning_compute_residual (uarr rarr : MVector) (gts : bool)
    (dtm : list a_real) :
  Throwing.compute_residual (returning E) uarr rarr gts dtm
  = compute_residual E uarr rarr gts dtm.
Proof.
  unfold Throwing.compute_residual, compute_residual.
  rewrite returning_face_states.
  destruct (face_states E uarr) as [[[[ug ul] ur] gr]|e]; [|reflexivity].
  result_step.
  rewrite (foldM_returns _ (residual_face E uarr ug gr ul ur gts))
    by (intros s x; apply returning_residual_face).
  unfold for_range. rewrite !Nat.sub_0_r. reflexivity.
Qed.

End Returning.

(** The collaborators of the failing channel throw nothing but the
    numeric-invalid error of the speed of sound. *)
Lemma failing_channel_collaborators (order2 : bool) :
  collaborators_throw (fun e => e = thrown numeric_invalid)
    (FailingChannel.engine order2).
Proof.
  assert (forall u, throws_only (fun e => e = thrown numeric_invalid)
                      (FailingChannel.getSoundSpeedFromConserved u)) as Hc.
  { intros u e. unfold FailingChannel.getSoundSpeedFromConserved.
    destruct (_ || _); [now intros [= <-] | discriminate]. }
  unfold collaborators_throw.
  cbn [FailingChannel.engine FailingChannel.ideal_gas FailingChannel.LLF
       Throwing.physics Throwing.inviflux Throwing.gradcomp Throwing.lim
       Throwing.bcs returning
       Throwing.getConstantViscosityCoeff Throwing.getSoundSpeedFromConserved
       Throwing.getViscosityCoeffFromConserved
       Throwing.getThermalConductivityFromViscosity
       Throwing.getPrimitiveFromConserved Throwing.getConservedFromPrimitive
       Throwing.getPrimitive2FromConserved Throwing.getTemperature
       Throwing.getGradTemperature Throwing.getStressTensor Throwing.get_flux
       Throwing.compute_gradients Throwing.compute_face_values].
  repeat split; intros; try apply throws_only_ok; try apply Hc.
  - apply throws_only_bind; [apply Hc | intros cl].
    apply throws_only_bind; [apply Hc | intros cr]. apply throws_only_ok.
  - match goal with H : _ !! _ = Some _ |- _ =>
      rewrite lookup_fmap in H; destruct (_ !! _) in H; [|discriminate];
      injection H as <- end.
    apply throws_only_ok.
Qed.




(** ** C7 and C10: the factories *)

(** C7, as stated, fails: for the unknown name FOO the flux factory
    prints its message and returns a null pointer; nothing is raised. *)
Lemma unknown_flux_name_returns_null :
  ~ In "FOO"%string recognized_fluxes /\
  create_mutable_inviscidflux "FOO" Channel.ideal_gas
  = Ok (None, (" InviscidFluxFactory: ! Flux scheme not available!" ++ endl)%string) /\
  ~ fails_with config_invalid (create_mutable_inviscidflux "FOO" Channel.ideal_gas).
Proof.
  split; [|split].
  - cbn. intros H. repeat destruct H as [H|H]; discriminate || assumption.
  - reflexivity.
  - intros (e & He & _). discriminate.
Qed.

(** C7, as the code has it. For every name outside VANLEER, ROE, HLL,
    HLLC, LLF, AUSM, AUSMPLUS (compared as they are spelled, in capitals)
    the flux factory returns a null pointer after printing that the scheme
    is not available; it raises no error. *)
Theorem unrecognized_flux_name (type : string) (p : IdealGasPhysics) :
  ~ In type recognized_fluxes ->
  create_mutable_inviscidflux type p
  = Ok (None, (" InviscidFluxFactory: ! Flux scheme not available!" ++ endl)%string) /\
  create_const_inviscidflux type p = create_mutable_inviscidflux type p /\
  ~ fails_with config_invalid (create_mutable_inviscidflux type p).
Proof.
  intros Hout.
  assert (create_mutable_inviscidflux type p
          = Ok (None,
                (" InviscidFluxFactory: ! Flux scheme not available!" ++ endl)%string))
    as Hnull.
  { unfold create_mutable_inviscidflux.
    repeat match goal with
    | |- context [String.eqb type ?s] =>
        destruct (String.eqb_spec type s) as [->|_];
        [exfalso; apply Hout; cbn; tauto|]
    end.
    reflexivity. }
  split; [assumption|]. split; [reflexivity|].
  rewrite Hnull. intros (e & He & _). discriminate.
Qed.

Lemma unrecognized_flux_name_witness :
  create_mutable_inviscidflux "VanLeer" Channel.ideal_gas
  = Ok (None, (" InviscidFluxFactory: ! Flux scheme not available!" ++ endl)%string) /\
  create_const_inviscidflux "VanLeer" Channel.ideal_gas
  = create_mutable_inviscidflux "VanLeer" Channel.ideal_gas /\
  ~ fails_with config_invalid
      (create_mutable_inviscidflux "VanLeer" Channel.ideal_gas).
Proof.
  apply (unrecognized_flux_name "VanLeer" Channel.ideal_gas).
  cbn. intros H. repeat destruct H as [H|H]; discriminate || assumption.
Defined.

(** C10. For every name other than LEASTSQUARES and GREENGAUSS the
    gradient-scheme factory returns a [ZeroGradients] object, printing
    only that no gradients are computed; it reports no error. *)
Theorem other_gradient_scheme_is_zero (type : string) (m : UMesh2dh) (rc : Array2d) :
  type <> "LEASTSQUARES"%string -> type <> "GREENGAUSS"%string ->
  create_mutable_gradientscheme type m rc
  = Ok (ZeroGradients m rc,
        (" GradientSchemeFactory: No gradient computation." ++ endl)%string) /\
  create_const_gradientscheme type m rc = create_mutable_gradientscheme type m rc /\
  ~ fails_with config_invalid (create_mutable_gradientscheme type m rc).
Proof.
  intros Hls Hgg.
  assert (create_mutable_gradientscheme type m rc
          = Ok (ZeroGradients m rc,
                (" GradientSchemeFactory: No gradient computation." ++ endl)%string))
    as Hzero.
  { unfold create_mutable_gradientscheme.
    destruct (String.eqb_spec type "LEASTSQUARES"); [contradiction|].
    destruct (String.eqb_spec type "GREENGAUSS"); [contradiction|].
    reflexivity. }
  split; [assumption|]. split; [reflexivity|].
  rewrite Hzero. intros (e & He & _). discriminate.
Qed.

Lemma other_gradient_scheme_is_zero_witness :
  create_mutable_gradientscheme "GreenGauss" Channel.mesh (Spatial_rc Channel.mesh)
  = Ok (ZeroGradients Channel.mesh (Spatial_rc Channel.mesh),
        (" GradientSchemeFactory: No gradient computation." ++ endl)%string) /\
  create_const_gradientscheme "GreenGauss" Channel.mesh (Spatial_rc Channel.mesh)
  = create_mutable_gradientscheme "GreenGauss" Channel.mesh
      (Spatial_rc Channel.mesh) /\
  ~ fails_with config_invalid
      (create_mutable_gradientscheme "GreenGauss" Channel.mesh
         (Spatial_rc Channel.mesh)).
Proof.
  apply (other_gradient_scheme_is_zero "GreenGauss"); discriminate.
Defined.

(** ** C8: surface coefficients *)

Lemma set2_length (a : Array2d) (i j : nat) (v : a_real) :
  length (set2 a i j v) = length a.
Proof. apply length_alter. Qed.

Lemma set2_lookup (a : Array2d) (i j : nat) (v : a_real) (k : nat) :
  set2 a i j v !! k = if decide (i = k) then <[j := v]> <$> a !! i else a !! k.
Proof. unfold set2. apply list_lookup_alter. Qed.

Section Surface.
Context (E : FlowFV) (lm : cmath) (u : MVector) (grad : GradArray) (iwbcm : Z).

Local Abbreviation av := (flowDirectionVector lm (aoa (pconfig E))).
Local Abbreviation flownormal := ([- av !!! 1%nat; av !!! 0%nat]).
Local Abbreviation pinf := (getFreestreamPressure (physics E)).
Local Abbreviation Cp := (pressure_coefficient E u).
Local Abbreviation Cf := (friction_coefficient E u grad).

(** One wall face: the row [facecoun] of the output receives the
    coefficients of the face, the other rows stay, and the sums advance
    by the terms of the face. *)
Lemma surface_face_step (s : surface_state) (f : nat) (r : list a_real) :
  output s !! facecoun s = Some r -> (NDIM + 2 <= length r)%nat ->
  let s' := surface_face E u grad av flownormal pinf s f in
  facecoun s' = S (facecoun s) /\
  totallen s' = totallen s + face_length E f /\
  Cl s' = Cl s + Cp f * normal_across_flow E lm f * face_length E f /\
  Cdp s' = Cdp s + Cp f * normal_along_flow E lm f * face_length E f /\
  Cdf s' = Cdf s + Cf f * tangent_along_flow E lm f * face_length E f /\
  at2 (output s') (facecoun s) NDIM = Cp f /\
  at2 (output s') (facecoun s) (NDIM + 1) = Cf f /\
  length (output s') = length (output s) /\
  (forall k, k <> facecoun s -> output s' !! k = output s !! k) /\
  (wide_rows (output s) -> wide_rows (output s')).
Proof.
  intros Hrow Hwide s'.
  assert (exists c0 c1,
    output s'
    = alter (fun r => <[(NDIM + 1)%nat := Cf f]> (<[NDIM := Cp f]>
               (<[1%nat := c1]> (<[0%nat := c0]> r)))) (facecoun s) (output s))
    as (c0 & c1 & Hout).
  { eexists _, _. unfold s', surface_face. cbn [output].
    unfold for_range, NDIM. cbn [seq fold_left Nat.sub]. unfold set2.
    rewrite !alter_alter. reflexivity. }
  assert (output s' !! facecoun s
          = Some (<[(NDIM + 1)%nat := Cf f]> (<[NDIM := Cp f]>
                    (<[1%nat := c1]> (<[0%nat := c0]> r))))) as Hrow'.
  { rewrite Hout, list_lookup_alter_eq, Hrow. reflexivity. }
  assert (at2 (output s') (facecoun s) NDIM = Cp f) as Hcp.
  { rewrite (at2_lookup _ _ _ _ Hrow').
    rewrite list_lookup_total_insert_ne by (unfold NDIM; lia).
    apply list_lookup_total_insert_eq. rewrite !length_insert. lia. }
  assert (at2 (output s') (facecoun s) (NDIM + 1) = Cf f) as Hcf.
  { rewrite (at2_lookup _ _ _ _ Hrow').
    apply list_lookup_total_insert_eq. rewrite !length_insert. lia. }
  split; [reflexivity|]. split; [reflexivity|].
  split; [|split; [|split]].
  - change (Cl s') with
      (Cl s + at2 (output s') (facecoun s) NDIM * normal_across_flow E lm f
              * face_length E f).
    now rewrite Hcp.
  - change (Cdp s') with
      (Cdp s + at2 (output s') (facecoun s) NDIM * normal_along_flow E lm f
               * face_length E f).
    now rewrite Hcp.
  - change (Cdf s') with
      (Cdf s + at2 (output s') (facecoun s) (NDIM + 1) * tangent_along_flow E lm f
               * face_length E f).
    now rewrite Hcf.
  - split; [assumption|]. split; [assumption|].
    split; [rewrite Hout; apply length_alter|]. split.
    + intros k Hk. rewrite Hout. now apply list_lookup_alter_ne.
    + intros Hw k r' Hk. destruct (decide (k = facecoun s)) as [->|Hne].
      * rewrite Hrow' in Hk. injection Hk as <-. now rewrite !length_insert.
      * rewrite Hout, list_lookup_alter_ne in Hk by congruence. eapply Hw, Hk.
Qed.

Lemma at2_same_row (a b : Array2d) (i j : nat) :
  a !! i = b !! i -> at2 a i j = at2 b i j.
Proof. intros H. unfold at2. now rewrite !list_lookup_total_alt, H. Qed.

Local Abbreviation marked :=
  (fun f => Z.eqb (gintfacbtags (m E) f 0) iwbcm).
Local Abbreviation body :=
  (fun s iface =>
     if Z.eqb (gintfacbtags (m E) iface 0) iwbcm
     then surface_face E u grad av flownormal pinf s iface
     else s).

(** The face loop, from any state whose output array has room for the
    wall faces still to come. *)
Lemma surface_loop_fold (fs : list nat) (s : surface_state) :
  wide_rows (output s) ->
  (facecoun s + length (List.filter marked fs) <= length (output s))%nat ->
  let s' := fold_left body fs s in
  totallen s' = wall_sum (face_length E) (List.filter marked fs) (totallen s) /\
  Cl s' = wall_sum (fun f => Cp f * normal_across_flow E lm f * face_length E f)
            (List.filter marked fs) (Cl s) /\
  Cdp s' = wall_sum (fun f => Cp f * normal_along_flow E lm f * face_length E f)
             (List.filter marked fs) (Cdp s) /\
  Cdf s' = wall_sum (fun f => Cf f * tangent_along_flow E lm f * face_length E f)
             (List.filter marked fs) (Cdf s) /\
  (forall k f, List.filter marked fs !! k = Some f ->
     at2 (output s') (facecoun s + k) NDIM = Cp f /\
     at2 (output s') (facecoun s + k) (NDIM + 1) = Cf f) /\
  (forall k, (k < facecoun s)%nat -> output s' !! k = output s !! k).
Proof.
  revert s. induction fs as [|f fs IH]; intros s Hwide Hroom.
  - cbn. do 4 (split; [reflexivity|]).
    split; [intros k g Hk; discriminate | intros; reflexivity].
  - cbn [fold_left List.filter] in *.
    destruct (Z.eqb (gintfacbtags (m E) f 0) iwbcm) eqn:Hmark.
    + cbn [length] in Hroom.
      destruct (lookup_lt_is_Some_2 (output s) (facecoun s)) as [r Hr]; [lia|].
      pose proof (surface_face_step s f r Hr (Hwide _ _ Hr))
        as (Hfc & Htl & Hcl & Hcdp & Hcdf & Hcp & Hcf & Hlen & Hother & Hw).
      set (s1 := surface_face E u grad av flownormal pinf s f) in *.
      destruct (IH s1) as (IHtl & IHcl & IHcdp & IHcdf & IHrows & IHkeep).
      { now apply Hw. }
      { rewrite Hfc, Hlen. lia. }
      rewrite IHtl, IHcl, IHcdp, IHcdf, Htl, Hcl, Hcdp, Hcdf.
      do 4 (split; [reflexivity|]). split.
      * intros [|k] g Hk.
        -- injection Hk as <-. rewrite Nat.add_0_r.
           rewrite (at2_same_row _ (output s1) (facecoun s) NDIM)
             by (apply IHkeep; rewrite Hfc; lia).
           rewrite (at2_same_row _ (output s1) (facecoun s) (NDIM + 1))
             by (apply IHkeep; rewrite Hfc; lia).
           now split.
        -- replace (facecoun s + S k)%nat with (facecoun s1 + k)%nat
             by (rewrite Hfc; lia).
           now apply IHrows.
      * intros k Hk. rewrite IHkeep by (rewrite Hfc; lia).
        apply Hother. lia.
    + now apply IH.
Qed.

End Surface.

(** C8. Given an output array with a row of at least NDIM + 2 entries for
    every boundary face that carries the marker: row [k] of the output
    holds, in column NDIM, the pressure coefficient 2 (p - p_inf) of the
    left cell of the [k]-th such face (and in column NDIM + 1 its skin
    friction coefficient), and the returned triple is (Cl, Cdp, Cdf): the
    sums over those faces of Cp (n . f_perp) l, Cp (n . f) l and
    Cf (t . f) l, each divided by the total length of those faces. *)
Theorem surface_coefficients (E : FlowFV) (lm : cmath) (u : MVector)
    (grad : GradArray) (iwbcm : Z) (out : MVector) :
  wide_rows out ->
  (length (wall_faces E iwbcm) <= length out)%nat ->
  fst (computeSurfaceData E lm u grad iwbcm out)
  = (lift_coefficient E lm u iwbcm, pressure_drag_coefficient E lm u iwbcm,
     friction_drag_coefficient E lm u grad iwbcm) /\
  forall k f, wall_faces E iwbcm !! k = Some f ->
    at2 (snd (computeSurfaceData E lm u grad iwbcm out)) k NDIM
    = pressure_coefficient E u f /\
    at2 (snd (computeSurfaceData E lm u grad iwbcm out)) k (NDIM + 1)
    = friction_coefficient E u grad f.
Proof.
  intros Hwide Hroom.
  pose proof (surface_loop_fold E lm u grad iwbcm (seq 0 (gnbface (m E)))
                {| facecoun := 0; totallen := 0; Cdf := 0; Cdp := 0; Cl := 0;
                   output := out |} Hwide Hroom)
    as (Htl & Hcl & Hcdp & Hcdf & Hrows & _).
  unfold computeSurfaceData, surface_loop, for_range. rewrite Nat.sub_0_r.
  cbn [fst snd]. rewrite Htl, Hcl, Hcdp, Hcdf. split; [reflexivity|].
  intros k f Hk. apply (Hrows k f Hk).
Qed.

Lemma surface_coefficients_witness :
  fst (computeSurfaceData (Channel.engine false) Channel.libm Channel.u0
         (Channel.grads_of true) 2 (zeros2 6 4))
  = (lift_coefficient (Channel.engine false) Channel.libm Channel.u0 2,
     pressure_drag_coefficient (Channel.engine false) Channel.libm Channel.u0 2,
     friction_drag_coefficient (Channel.engine false) Channel.libm Channel.u0
       (Channel.grads_of true) 2) /\
  forall k f, wall_faces (Channel.engine false) 2 !! k = Some f ->
    at2 (snd (computeSurfaceData (Channel.engine false) Channel.libm Channel.u0
                (Channel.grads_of true) 2 (zeros2 6 4))) k NDIM
    = pressure_coefficient (Channel.engine false) Channel.u0 f /\
    at2 (snd (computeSurfaceData (Channel.engine false) Channel.libm Channel.u0
                (Channel.grads_of true) 2 (zeros2 6 4))) k (NDIM + 1)
    = friction_coefficient (Channel.engine false) Channel.u0
        (Channel.grads_of true) f.
Proof.
  apply (surface_coefficients (Channel.engine false)).
  - intros k r Hk. apply lookup_replicate in Hk as [-> _]. cbn. lia.
  - vm_compute. lia.
Defined.

(** ** C3: the blocks of the Jacobian *)

(** The Eigen expressions of the assembly, entry by entry. *)
Lemma boundary_expression (l : a_real) (L R D : list a_real) :
  scalar_times (- l) (mat_sub L (mat_mul R D))
  = block (fun i j => - l * (entry L i j - product_entry R D i j)).
Proof. vm_compute. reflexivity. Qed.

Lemma scaled_expression (B : list a_real) (s : a_real) :
  times_scalar B s = block (fun i j => entry B i j * s).
Proof. vm_compute. reflexivity. Qed.

Section Jacobian.
Context (E : FlowFV) (uarr : list a_real).

Lemma with_viscous_jacobian_spec (f : nat) (ul ur : list a_real) :
  with_viscous_jacobian E f ul ur
    (get_jacobian (jflux E) ul ur [gfacemetric (m E) f 0; gfacemetric (m E) f 1])
  = flux_jacobians E f ul ur.
Proof. reflexivity. Qed.

Lemma jacobian_boundary_face_spec (A : Mat) (f : nat) (A' : Mat) :
  jacobian_boundary_face E uarr A f = Ok A' ->
  exists bc, bcs E !! gintfacbtags (m E) f 0 = Some bc /\
    A' = A ++ [(gintfac (m E) f 0, gintfac (m E) f 0, boundary_block E uarr bc f)].
Proof.
  unfold jacobian_boundary_face, compute_boundary_Jacobian.
  destruct (bcs E !! gintfacbtags (m E) f 0) as [bc|]; [|discriminate].
  result_step.
  destruct (computeGhostStateAndJacobian bc (cell uarr (gintfac (m E) f 0))
              (gnormal (m E) f)) as [uface drdl] eqn:Hbc.
  result_step. intros [= <-]. exists bc. split; [reflexivity|].
  unfold boundary_block, MatSetValuesBlocked.
  rewrite Hbc. cbn [fst snd].
  rewrite with_viscous_jacobian_spec, boundary_expression. reflexivity.
Qed.

Lemma jacobian_boundary_loop (n lo : nat) (A A' : Mat) :
  foldM (jacobian_boundary_face E uarr) (seq lo n) A = Ok A' ->
  exists l, A' = A ++ l /\ length l = n /\
    forall i, (i < n)%nat ->
      exists bc, bcs E !! gintfacbtags (m E) (lo + i) 0 = Some bc /\
        l !! i = Some (gintfac (m E) (lo + i) 0, gintfac (m E) (lo + i) 0,
                       boundary_block E uarr bc (lo + i)).
Proof.
  revert lo A. induction n as [|n IH]; intros lo A; cbn [seq foldM].
  - intros [= <-]. exists []. rewrite app_nil_r.
    split; [reflexivity|]. split; [reflexivity|]. intros i Hi. lia.
  - destruct (jacobian_boundary_face E uarr A lo) as [A1|e] eqn:Hface;
      [|discriminate].
    apply jacobian_boundary_face_spec in Hface as (bc & Hbc & ->).
    intros Hrest. apply IH in Hrest as (l & -> & Hlen & Hl).
    eexists (_ :: l). rewrite <- app_assoc. split; [reflexivity|].
    split; [cbn; now rewrite Hlen|].
    intros [|i] Hi.
    + exists bc. rewrite Nat.add_0_r. split; [assumption | reflexivity].
    + destruct (Hl i) as (bc' & Hbc' & Hi'); [lia|].
      exists bc'. replace (lo + S i)%nat with (S lo + i)%nat by lia.
      split; assumption.
Qed.

Lemma jacobian_interior_face_spec (A : Mat) (f : nat) :
  jacobian_interior_face E uarr A f = A ++ interior_blocks E uarr f.
Proof.
  unfold jacobian_interior_face, MatSetValuesBlocked, interior_blocks.
  unfold lower_block, upper_block, negated.
  rewrite with_viscous_jacobian_spec, !scaled_expression.
  rewrite <- !app_assoc. reflexivity.
Qed.

Lemma jacobian_interior_loop (fs : list nat) (A : Mat) :
  fold_left (jacobian_interior_face E uarr) fs A
  = A ++ flat_map (interior_blocks E uarr) fs.
Proof.
  revert A. induction fs as [|f fs IH]; intros A; cbn [fold_left flat_map].
  - now rewrite app_nil_r.
  - now rewrite IH, jacobian_interior_face_spec, <- app_assoc.
Qed.

Lemma interior_blocks_lookup (n lo i d : nat) :
  (i < n)%nat -> (d < 4)%nat ->
  flat_map (interior_blocks E uarr) (seq lo n) !! (4 * i + d)%nat
  = interior_blocks E uarr (lo + i) !! d.
Proof.
  revert lo i. induction n as [|n IH]; intros lo i Hi Hd; [lia|].
  cbn [seq flat_map]. destruct i as [|i].
  - rewrite lookup_app_l by (cbn; lia). now rewrite Nat.add_0_r.
  - rewrite lookup_app_r by (cbn; lia).
    replace (4 * S i + d - length (interior_blocks E uarr lo))%nat
      with (4 * i + d)%nat by (cbn; lia).
    rewrite IH by lia. f_equal. f_equal. lia.
Qed.

Lemma interior_blocks_length (n lo : nat) :
  length (flat_map (interior_blocks E uarr) (seq lo n)) = (4 * n)%nat.
Proof.
  revert lo. induction n as [|n IH]; intros lo; [reflexivity|].
  cbn [seq flat_map]. rewrite length_app, IH. cbn. lia.
Qed.

Lemma jacobian_boundary_loop_returns (n lo : nat) (A : Mat) :
  (forall f, (f < gnbface (m E))%nat ->
     is_Some (bcs E !! gintfacbtags (m E) f 0)) ->
  (lo + n <= gnbface (m E))%nat ->
  exists A', foldM (jacobian_boundary_face E uarr) (seq lo n) A = Ok A'.
Proof.
  intros Hreg. revert lo A. induction n as [|n IH]; intros lo A Hn; cbn [seq foldM].
  - eexists. reflexivity.
  - unfold jacobian_boundary_face at 1, compute_boundary_Jacobian.
    destruct (Hreg lo) as [bc ->]; [lia|]. result_step.
    destruct (computeGhostStateAndJacobian bc (cell uarr (gintfac (m E) lo 0))
                (gnormal (m E) lo)) as [uface drdl].
    result_step. apply IH. lia.
Qed.

End Jacobian.

(** The size checks of [compute_jacobian] and of [assemble_residual]. *)
Lemma cells_of_a_vector (n len : nat) :
  len = (n * NVARS)%nat ->
  (len mod NVARS =? 0)%nat = true /\ (len / NVARS =? n)%nat = true.
Proof.
  intros ->. split.
  - apply Nat.eqb_eq, Nat.Div0.mod_mul.
  - apply Nat.eqb_eq, Nat.div_mul. discriminate.
Qed.



(** * Further properties of the engine *)

(** ** Unregistered boundary markers *)

(** A loop whose body throws exactly on the elements that fail a test
    throws as soon as the list has such an element. *)
Lemma foldM_throws {S A : Type} (body : S -> A -> result S) (P : A -> bool)
    (e : exn) (l : list A) (s : S) :
  (forall s x, P x = true -> exists s', body s x = Ok s') ->
  (forall s x, P x = false -> body s x = Throw e) ->
  forallb P l = false ->
  foldM body l s = Throw e.
Proof.
  intros Hok Hthrow. revert s. induction l as [|x l IH]; intros s Hl.
  - discriminate.
  - cbn [forallb] in Hl. cbn [foldM]. destruct (P x) eqn:Hx.
    + destruct (Hok s x Hx) as [s' ->]. apply IH. exact Hl.
    + now rewrite (Hthrow s x Hx).
Qed.

Lemma compute_boundary_state_registered (E : FlowFV) (ied : nat) (ins : list a_real) :
  has_boundary_condition E ied = true ->
  exists gs, compute_boundary_state E ied ins = Ok gs.
Proof.
  unfold has_boundary_condition, compute_boundary_state.
  destruct (bcs E !! gintfacbtags (m E) ied 0); [eauto | discriminate].
Qed.

Lemma compute_boundary_state_unregistered (E : FlowFV) (ied : nat) (ins : list a_real) :
  has_boundary_condition E ied = false ->
  compute_boundary_state E ied ins = Throw std_out_of_range.
Proof.
  unfold has_boundary_condition, compute_boundary_state.
  destruct (bcs E !! gintfacbtags (m E) ied 0); [discriminate | reflexivity].
Qed.

Lemma compute_boundary_states_throws (E : FlowFV) (ins bs : Array2d) :
  markers_registered E = false ->
  compute_boundary_states E ins bs = Throw std_out_of_range.
Proof.
  intros Hreg. unfold compute_boundary_states.
  apply (foldM_throws _ (has_boundary_condition E)); [| |exact Hreg].
  - intros s x Hx.
    destruct (compute_boundary_state_registered E x (row ins x) Hx) as [gs ->].
    result_step. eauto.
  - intros s x Hx.
    now rewrite (compute_boundary_state_unregistered E x (row ins x) Hx).
Qed.

Lemma unregistered_periodic_marker (E : FlowFV) (f : nat) :
  (f < gnbface (m E))%nat -> is_periodic E f = true ->
  bcs E !! periodic_id (pconfig E) = None ->
  markers_registered E = false.
Proof.
  intros Hf Hper Hnone.
  destruct (markers_registered E) eqn:Hreg; [|reflexivity].
  destruct (markers_registered_spec E Hreg f Hf) as [bc Hbc].
  unfold is_periodic in Hper. apply Z.eqb_eq in Hper.
  rewrite Hper, Hnone in Hbc. discriminate.
Qed.

(** X1. [compute_boundary_states] returns exactly when every boundary
    face has a boundary condition registered under its marker; otherwise
    [std::map::at] throws [std::out_of_range]. A periodic face is no
    exception: the condition registered under the periodic marker is
    looked up before the ghost state is overwritten by the copy. *)
Theorem compute_boundary_states_outcome (E : FlowFV) (ins bs : Array2d) :
  ((exists bs', compute_boundary_states E ins bs = Ok bs')
   <-> markers_registered E = true) /\
  (markers_registered E = false ->
   compute_boundary_states E ins bs = Throw std_out_of_range) /\
  (forall f, (f < gnbface (m E))%nat -> is_periodic E f = true ->
     bcs E !! periodic_id (pconfig E) = None ->
     compute_boundary_states E ins bs = Throw std_out_of_range).
Proof.
  split; [split|split].
  - intros [bs' Hok]. destruct (markers_registered E) eqn:Hreg; [reflexivity|].
    rewrite (compute_boundary_states_throws E ins bs Hreg) in Hok. discriminate.
  - intros Hreg.
    apply compute_boundary_states_returns, markers_registered_spec, Hreg.
  - apply compute_boundary_states_throws.
  - intros f Hf Hper Hnone. apply compute_boundary_states_throws.
    exact (unregistered_periodic_marker E f Hf Hper Hnone).
Qed.

Lemma compute_boundary_states_outcome_witness :
  compute_boundary_states
    (with_bcs (Channel.engine false) (<[2%Z := Channel.Slipwall]> ∅))
    (boundary_left_states (Channel.engine false) Channel.u0) (zeros2 10 NVARS)
  = Throw std_out_of_range.
Proof.
  apply (proj2 (proj2 (compute_boundary_states_outcome
                         (with_bcs (Channel.engine false)
                            (<[2%Z := Channel.Slipwall]> ∅)) _ _)) 3%nat).
  - cbn. lia.
  - reflexivity.
  - reflexivity.
Defined.

Lemma face_states_throws (E : FlowFV) (u : MVector) :
  markers_registered E = false -> face_states E u = Throw std_out_of_range.
Proof.
  intros Hreg. unfold face_states.
  destruct (secondOrderRequested E).
  - rewrite (compute_boundary_states_throws E _ _ Hreg). reflexivity.
  - result_step.
    destruct (first_order_face_states E u (zeros2 (gnbface (m E)) NVARS)
                (boundary_left_states E u) (zeros2 (gnaface (m E)) NVARS))
      as [[[ug ul] ur] gr].
    rewrite (compute_boundary_states_throws E _ _ Hreg). reflexivity.
Qed.

Lemma compute_residual_throws (E : FlowFV) (uarr rarr : MVector) (gts : bool)
    (dtm : list a_real) :
  markers_registered E = false ->
  compute_residual E uarr rarr gts dtm = Throw std_out_of_range.
Proof.
  intros Hreg. unfold compute_residual.
  rewrite (face_states_throws E uarr Hreg). reflexivity.
Qed.

(** The size checks fail on a vector that does not hold [n] cells. *)
Lemma not_cells_of_a_vector (n len : nat) :
  len <> (n * NVARS)%nat ->
  (len mod NVARS =? 0)%nat = false \/
  ((len mod NVARS =? 0)%nat = true /\ (len / NVARS =? n)%nat = false).
Proof.
  intros Hne.
  destruct (Nat.eqb_spec (len mod NVARS) 0) as [Hmod|Hmod]; [right | now left].
  split; [reflexivity|].
  apply Nat.eqb_neq. intros Hdiv. apply Hne.
  rewrite (Nat.div_mod_eq len NVARS), Hmod, Hdiv. lia.
Qed.

Lemma written_back_length (residual : MVector) (rarr : list a_real) :
  length (Throwing.written_back residual rarr) = length rarr.
Proof.
  unfold Throwing.written_back, for_range.
  generalize (seq 0 (length residual - 0)). intros l. revert rarr.
  induction l as [|i l IH]; intros rarr; cbn [fold_left]; [reflexivity|].
  rewrite IH. generalize (seq 0 (NVARS - 0)). intros js. revert rarr.
  induction js as [|j js IHj]; intros rarr; cbn [fold_left]; [reflexivity|].
  now rewrite IHj, length_insert.
Qed.

(** X2. The outcome of [assemble_residual], check by check. A non-zero
    status of [VecGetLocalSize] or of one of the two [VecGetArray] calls
    is returned at once, with the residual vector and the time steps as
    they were. A state vector that does not hold [gnelem] cells of NVARS
    entries fails an assertion before any array is requested. Past these
    checks the outcome is that of [compute_residual] on the two arrays:
    its exception leaves the function; when it returns, its status is
    dropped and the status returned is 0, its rows are written back into
    the residual array and its time steps are handed on. Whenever the
    function returns, the residual vector has kept its size. *)
Theorem assemble_residual_outcome (E : Throwing.FlowFV) (uvec rvec : Vec)
    (gts : bool) (dtm : list a_real) :
  (VecGetLocalSize_status uvec <> 0%Z ->
   Throwing.assemble_residual E uvec rvec gts dtm
   = Ok (VecGetLocalSize_status uvec, rvec, dtm)) /\
  (VecGetLocalSize_status uvec = 0%Z ->
   length (local_array uvec) <> (gnelem (Throwing.m E) * NVARS)%nat ->
   Throwing.assemble_residual E uvec rvec gts dtm = Throw assertion_failure) /\
  (VecGetLocalSize_status uvec = 0%Z ->
   length (local_array uvec) = (gnelem (Throwing.m E) * NVARS)%nat ->
   (VecGetArray_status uvec <> 0%Z ->
    Throwing.assemble_residual E uvec rvec gts dtm
    = Ok (VecGetArray_status uvec, rvec, dtm)) /\
   (VecGetArray_status uvec = 0%Z -> VecGetArray_status rvec <> 0%Z ->
    Throwing.assemble_residual E uvec rvec gts dtm
    = Ok (VecGetArray_status rvec, rvec, dtm)) /\
   (VecGetArray_status uvec = 0%Z -> VecGetArray_status rvec = 0%Z ->
    Throwing.assemble_residual E uvec rvec gts dtm
    = match Throwing.compute_residual E
              (Throwing.mapped (gnelem (Throwing.m E)) (local_array uvec))
              (Throwing.mapped (gnelem (Throwing.m E)) (local_array rvec))
              gts dtm with
      | Ok (_, residual, dtm') =>
          Ok (0%Z,
              Throwing.with_array rvec
                (Throwing.written_back residual (local_array rvec)),
              dtm')
      | Throw e => Throw e
      end)) /\
  (forall st rvec' dtm',
     Throwing.assemble_residual E uvec rvec gts dtm = Ok (st, rvec', dtm') ->
     length (local_array rvec') = length (local_array rvec)).
Proof.
  unfold Throwing.assemble_residual.
  split; [|split; [|split]].
  - intros Hst. apply Z.eqb_neq in Hst. now rewrite Hst.
  - intros Hst Hsize. rewrite Hst. cbn [Z.eqb negb].
    destruct (not_cells_of_a_vector _ _ Hsize) as [->|[-> ->]]; reflexivity.
  - intros Hst Hsize. rewrite Hst.
    destruct (cells_of_a_vector _ _ Hsize) as [-> ->]. cbn [Z.eqb negb].
    split; [|split].
    + intros Hu. apply Z.eqb_neq in Hu. now rewrite Hu.
    + intros Hu Hr. rewrite Hu. apply Z.eqb_neq in Hr. now rewrite Hr.
    + intros Hu Hr. rewrite Hu, Hr. cbn [Z.eqb negb].
      destruct (Throwing.compute_residual E _ _ gts dtm) as [[[st res] dtm']|e];
        reflexivity.
  - intros st rvec' dtm'.
    repeat match goal with
           | |- context [if negb ?b then _ else _] =>
               destruct b; cbn [negb]
           end; try discriminate; try (now intros [= <- <- <-]).
    destruct (Throwing.compute_residual E _ _ gts dtm) as [[[st0 res] dt]|e];
      [|discriminate].
    result_step. intros [= <- <- <-]. cbn [Throwing.with_array local_array].
    apply written_back_length.
Qed.

Lemma assemble_residual_outcome_witness :
  Throwing.assemble_residual (FailingChannel.engine true)
    (Channel.vec (Channel.u0 ++ [[1; 0; 0; 2.5]])) (Channel.vec Channel.r_zero)
    false []
  = Throw assertion_failure.
Proof.
  apply (proj1 (proj2 (assemble_residual_outcome (FailingChannel.engine true)
                         _ _ _ _))).
  - reflexivity.
  - cbn. unfold NVARS. lia.
Defined.

Lemma jacobian_boundary_face_registered (E : FlowFV) (uarr : list a_real) (A : Mat)
    (f : nat) :
  has_boundary_condition E f = true ->
  exists A', jacobian_boundary_face E uarr A f = Ok A'.
Proof.
  unfold has_boundary_condition, jacobian_boundary_face, compute_boundary_Jacobian.
  destruct (bcs E !! gintfacbtags (m E) f 0) as [bc|]; [|discriminate].
  intros _. result_step.
  destruct (computeGhostStateAndJacobian bc _ _) as [uface drdl]. eauto.
Qed.

Lemma jacobian_boundary_face_unregistered (E : FlowFV) (uarr : list a_real) (A : Mat)
    (f : nat) :
  has_boundary_condition E f = false ->
  jacobian_boundary_face E uarr A f = Throw std_out_of_range.
Proof.
  unfold has_boundary_condition, jacobian_boundary_face, compute_boundary_Jacobian.
  destruct (bcs E !! gintfacbtags (m E) f 0) as [bc|]; [discriminate|].
  reflexivity.
Qed.

(** X3. The outcome of [compute_jacobian], check by check. A non-zero
    status of [VecGetLocalSize] or of [VecGetArrayRead] is returned at
    once and nothing is added to the matrix. A state vector that does not
    hold [gnelem] cells of NVARS entries fails an assertion before the
    array is requested. Past these checks, a boundary face whose marker
    has no registered boundary condition makes the lookup throw
    [std::out_of_range]; when the assembly returns, its status is that of
    [VecRestoreArrayRead], whatever [MatSetValuesBlocked] returned, and
    the matrix has received one block per boundary face and four per
    interior face. *)
Theorem compute_jacobian_outcome (E : FlowFV) (uvec : Vec) (A : Mat) :
  (VecGetLocalSize_status uvec <> 0%Z ->
   compute_jacobian E uvec A = Ok (VecGetLocalSize_status uvec, A)) /\
  (VecGetLocalSize_status uvec = 0%Z ->
   length (local_array uvec) <> (gnelem (m E) * NVARS)%nat ->
   compute_jacobian E uvec A = Throw assertion_failure) /\
  (VecGetLocalSize_status uvec = 0%Z ->
   length (local_array uvec) = (gnelem (m E) * NVARS)%nat ->
   VecGetArray_status uvec <> 0%Z ->
   compute_jacobian E uvec A = Ok (VecGetArray_status uvec, A)) /\
  (VecGetLocalSize_status uvec = 0%Z ->
   length (local_array uvec) = (gnelem (m E) * NVARS)%nat ->
   VecGetArray_status uvec = 0%Z ->
   markers_registered E = false ->
   compute_jacobian E uvec A = Throw std_out_of_range) /\
  (forall st A',
     compute_jacobian E uvec A = Ok (st, A') ->
     VecGetLocalSize_status uvec = 0%Z -> VecGetArray_status uvec = 0%Z ->
     st = VecRestoreArray_status uvec /\
     length A'
     = (length A + gnbface (m E) + 4 * (gnaface (m E) - gnbface (m E)))%nat).
Proof.
  unfold compute_jacobian.
  split; [|split; [|split; [|split]]].
  - intros Hst. apply Z.eqb_neq in Hst. now rewrite Hst.
  - intros Hst Hsize. rewrite Hst. cbn [Z.eqb negb].
    destruct (not_cells_of_a_vector _ _ Hsize) as [->|[-> ->]]; reflexivity.
  - intros Hst Hsize Hu. rewrite Hst.
    destruct (cells_of_a_vector _ _ Hsize) as [-> ->]. cbn [Z.eqb negb].
    apply Z.eqb_neq in Hu. now rewrite Hu.
  - intros Hst Hsize Hu Hreg. rewrite Hst, Hu.
    destruct (cells_of_a_vector _ _ Hsize) as [-> ->]. cbn [Z.eqb negb].
    rewrite (foldM_throws _ (has_boundary_condition E) std_out_of_range);
      [reflexivity | | | exact Hreg].
    + intros s x. apply jacobian_boundary_face_registered.
    + intros s x. apply jacobian_boundary_face_unregistered.
  - intros st A' Hrun Hst Hu. rewrite Hst, Hu in Hrun. cbn [Z.eqb negb] in Hrun.
    destruct (negb (_ mod _ =? 0)%nat); [discriminate|].
    destruct (negb (_ / _ =? _)%nat); [discriminate|].
    destruct (foldM _ _ A) as [A1|e] eqn:Hb; [|discriminate].
    revert Hrun. result_step. intros [= <- <-]. split; [reflexivity|].
    apply jacobian_boundary_loop in Hb as (l & -> & Hlen & _).
    unfold for_range. rewrite jacobian_interior_loop.
    rewrite !length_app, interior_blocks_length, Hlen. lia.
Qed.

Lemma compute_jacobian_outcome_witness :
  compute_jacobian (Channel.engine true) (Channel.vec []) [] = Throw assertion_failure /\
  compute_jacobian (with_bcs (Channel.engine true) (<[4%Z := Channel.Extrapolation]> ∅))
    (Channel.vec Channel.u0) []
  = Throw std_out_of_range.
Proof.
  split.
  - apply (proj1 (proj2 (compute_jacobian_outcome (Channel.engine true) _ _))).
    + reflexivity.
    + cbn. unfold NVARS. lia.
  - apply (proj1 (proj2 (proj2 (proj2 (compute_jacobian_outcome
                           (with_bcs (Channel.engine true)
                              (<[4%Z := Channel.Extrapolation]> ∅)) _ _)))));
      reflexivity.
Defined.

(** ** [getGradients] *)

Lemma getGradients_ghost_loop (E : FlowFV) (u : MVector) (n lo : nat)
    (ug : Array2d) :
  (forall f, (f < gnbface (m E))%nat ->
     is_Some (bcs E !! gintfacbtags (m E) f 0)) ->
  (lo + n <= gnbface (m E))%nat ->
  exists ug',
    foldM (fun ug iface =>
        gs ← compute_boundary_state E iface (row u (gintfac (m E) iface 0));
        mret (<[iface := gs]> ug))
      (seq lo n) ug = Ok ug' /\
    length ug' = length ug /\
    forall k,
      ((lo <= k < lo + n)%nat -> (k < length ug)%nat ->
       exists bc, bcs E !! gintfacbtags (m E) k 0 = Some bc /\
         ug' !! k = Some (computeGhostState bc (row u (gintfac (m E) k 0))
                            (gnormal (m E) k))) /\
      (~ (lo <= k < lo + n)%nat -> ug' !! k = ug !! k).
Proof.
  intros Hreg. revert lo ug. induction n as [|n IH]; intros lo ug Hn; cbn [seq foldM].
  - exists ug. split; [reflexivity|]. split; [reflexivity|].
    intros k. split; [lia | reflexivity].
  - unfold compute_boundary_state at 1.
    destruct (Hreg lo) as [bc Hbc]; [lia|]. rewrite Hbc. result_step.
    destruct (IH (S lo) (<[lo := computeGhostState bc (row u (gintfac (m E) lo 0))
                              (gnormal (m E) lo)]> ug)) as (ug' & Hrun & Hlen & Hrows);
      [lia|].
    exists ug'. split; [exact Hrun|].
    rewrite length_insert in Hlen. split; [exact Hlen|].
    intros k. destruct (Hrows k) as [Hin Hout]. split.
    + intros Hk Hlt. destruct (decide (k = lo)) as [->|Hne].
      * exists bc. split; [exact Hbc|].
        rewrite Hout by lia. now apply list_lookup_insert_eq.
      * apply Hin; [lia | now rewrite length_insert].
    + intros Hk. rewrite Hout by lia. apply list_lookup_insert_ne. lia.
Qed.

(** X4. On a mesh whose boundary markers are all registered,
    [getGradients] returns the gradients that the gradient scheme
    computes from the conserved cell states and one ghost state per
    boundary face: the ghost state that the face's boundary condition
    computes from the state of the left cell. A periodic face is treated
    like any other here: its ghost state is not the state of the paired
    face. *)
Theorem getGradients_ghost_states (E : FlowFV) (u : MVector) (grads : GradArray) :
  markers_registered E = true ->
  exists ug,
    getGradients E u grads = Ok (compute_gradients (gradcomp E) u ug grads) /\
    length ug = gnbface (m E) /\
    forall f, (f < gnbface (m E))%nat ->
      exists bc, bcs E !! gintfacbtags (m E) f 0 = Some bc /\
        ug !! f = Some (computeGhostState bc (row u (gintfac (m E) f 0))
                          (gnormal (m E) f)).
Proof.
  intros Hreg.
  destruct (getGradients_ghost_loop E u (gnbface (m E)) 0
              (zeros2 (gnbface (m E)) NVARS) (markers_registered_spec E Hreg))
    as (ug & Hrun & Hlen & Hrows); [lia|].
  exists ug. unfold getGradients. rewrite Hrun. result_step.
  split; [reflexivity|]. rewrite zeros2_length in Hlen. split; [exact Hlen|].
  intros f Hf. apply (Hrows f); [lia | now rewrite zeros2_length].
Qed.

Lemma getGradients_ghost_states_witness :
  exists ug,
    getGradients (Channel.engine true) Channel.u0 []
    = Ok (compute_gradients (gradcomp (Channel.engine true)) Channel.u0 ug []) /\
    length ug = gnbface (m (Channel.engine true)) /\
    forall f, (f < gnbface (m (Channel.engine true)))%nat ->
      exists bc,
        bcs (Channel.engine true) !! gintfacbtags (m (Channel.engine true)) f 0
        = Some bc /\
        ug !! f
        = Some (computeGhostState bc
                  (row Channel.u0 (gintfac (m (Channel.engine true)) f 0))
                  (gnormal (m (Channel.engine true)) f)).
Proof.
  apply (getGradients_ghost_states (Channel.engine true)).
  vm_compute. reflexivity.
Defined.

(** X5. With an unregistered boundary marker [getGradients] throws
    [std::out_of_range] and computes no gradients. *)
Theorem getGradients_unregistered_marker (E : FlowFV) (u : MVector)
    (grads : GradArray) :
  markers_registered E = false ->
  getGradients E u grads = Throw std_out_of_range.
Proof.
  intros Hreg. unfold getGradients.
  rewrite (foldM_throws _ (has_boundary_condition E) std_out_of_range);
    [reflexivity | | | exact Hreg].
  - intros s x Hx. cbv zeta.
    destruct (compute_boundary_state_registered E x
                (row u (gintfac (m E) x 0)) Hx) as [gs ->].
    result_step. eauto.
  - intros s x Hx. cbv zeta.
    now rewrite (compute_boundary_state_unregistered E x
                   (row u (gintfac (m E) x 0)) Hx).
Qed.

Lemma getGradients_unregistered_marker_witness :
  getGradients (with_bcs (Channel.engine true) ∅) Channel.u0 []
  = Throw std_out_of_range.
Proof.
  apply (getGradients_unregistered_marker (with_bcs (Channel.engine true) ∅)).
  reflexivity.
Defined.

(** ** [initializeUnknowns] *)

Lemma for_range_insert_offset {A : Type} (g : nat -> A) (base n : nat)
    (a0 : list A) :
  length (for_range 0 n (fun a j => <[(base + j)%nat := g j]> a) a0) = length a0 /\
  forall k,
    for_range 0 n (fun a j => <[(base + j)%nat := g j]> a) a0 !! k
    = if decide ((base <= k < base + n)%nat /\ (k < length a0)%nat)
      then Some (g (k - base)%nat) else a0 !! k.
Proof.
  unfold for_range. rewrite Nat.sub_0_r.
  induction n as [|n [IHlen IH]].
  - split; [reflexivity|]. intros k. cbn. case_decide; [lia | reflexivity].
  - rewrite seq_S, fold_left_app. cbn [fold_left Nat.add].
    split; [now rewrite length_insert|].
    intros k. destruct (decide (k = base + n)%nat) as [->|Hne].
    + destruct (decide (base + n < length a0)%nat) as [Hlt|Hge].
      * rewrite list_lookup_insert_eq by (now rewrite IHlen).
        case_decide; [|lia]. f_equal. f_equal. lia.
      * rewrite list_insert_ge by (rewrite IHlen; lia).
        rewrite IH. repeat case_decide; try lia. reflexivity.
    + rewrite list_lookup_insert_ne by lia. rewrite IH.
      repeat case_decide; try lia; reflexivity.
Qed.

Lemma initializeUnknowns_loop (uinf : list a_real) (n : nat) (u : list a_real) :
  let uloc :=
    for_range 0 n (fun uloc i =>
        for_range 0 NVARS (fun uloc j =>
            <[(i * NVARS + j)%nat := uinf !!! j]> uloc)
          uloc)
      u in
  length uloc = length u /\
  forall k,
    uloc !! k
    = if decide ((k < n * NVARS)%nat /\ (k < length u)%nat)
      then Some (uinf !!! (k mod NVARS)%nat) else u !! k.
Proof.
  cbv zeta. unfold for_range at 1 3. rewrite Nat.sub_0_r.
  induction n as [|n [IHlen IH]].
  - split; [reflexivity|]. intros k. cbn. case_decide; [lia | reflexivity].
  - rewrite seq_S, fold_left_app. cbn [fold_left Nat.add].
    set (a := fold_left _ (seq 0 n) u) in *.
    destruct (for_range_insert_offset (fun j => uinf !!! j) (n * NVARS) NVARS a)
      as [Hlen Hin].
    split; [now rewrite Hlen|].
    intros k. rewrite Hin, IH, IHlen.
    assert (NVARS = 4%nat) as HN by reflexivity.
    destruct (decide ((n * NVARS <= k < n * NVARS + NVARS)%nat
                      /\ (k < length u)%nat)) as [[Hk Hlt]|Hk].
    + case_decide; [|lia]. f_equal. f_equal.
      replace k with ((k - n * NVARS) + n * NVARS)%nat at 2 by lia.
      rewrite Nat.Div0.mod_add. symmetry. apply Nat.mod_small. lia.
    + repeat case_decide; try lia; reflexivity.
Qed.

(** X6. [initializeUnknowns] on a vector whose local size is a multiple
    of NVARS returns status 0 and has set every cell to the free-stream
    state: entry [i * NVARS + j] holds [uinf[j]], and the size of the
    vector is unchanged. A vector of any other size fails the assertion. *)
Theorem initializeUnknowns_freestream (uinf u : list a_real) :
  ((length u mod NVARS = 0)%nat ->
   exists uloc,
     initializeUnknowns uinf u = Ok (0%Z, uloc) /\
     length uloc = length u /\
     forall i j, (j < NVARS)%nat -> (i * NVARS + j < length u)%nat ->
       uloc !! (i * NVARS + j)%nat = Some (uinf !!! j)) /\
  ((length u mod NVARS <> 0)%nat ->
   initializeUnknowns uinf u = Throw assertion_failure).
Proof.
  split.
  - intros Hmod. unfold initializeUnknowns. rewrite Hmod. cbn [Nat.eqb negb].
    eexists. split; [reflexivity|].
    destruct (initializeUnknowns_loop uinf (length u / NVARS) u) as [Hlen Hrows].
    split; [exact Hlen|].
    intros i j Hj Hij. rewrite Hrows.
    assert (NVARS = 4%nat) as HN by reflexivity.
    pose proof (Nat.div_mod_eq (length u) NVARS) as Hdm. rewrite Hmod in Hdm.
    case_decide as Hc.
    + f_equal. f_equal. rewrite Nat.add_comm, Nat.Div0.mod_add.
      now apply Nat.mod_small.
    + exfalso. apply Hc. split; lia.
  - intros Hmod. unfold initializeUnknowns.
    apply Nat.eqb_neq in Hmod. now rewrite Hmod.
Qed.

Lemma initializeUnknowns_freestream_witness :
  (exists uloc,
     initializeUnknowns [1; 0.5; 0; 2.5] [0; 0; 0; 0; 7; 7; 7; 7]
     = Ok (0%Z, uloc) /\
     length uloc = length [0; 0; 0; 0; 7; 7; 7; 7] /\
     forall i j, (j < NVARS)%nat ->
       (i * NVARS + j < length [0; 0; 0; 0; 7; 7; 7; 7])%nat ->
       uloc !! (i * NVARS + j)%nat = Some ([1; 0.5; 0; 2.5] !!! j)) /\
  initializeUnknowns [1; 0.5; 0; 2.5] [0; 0; 0; 0; 7] = Throw assertion_failure.
Proof.
  split.
  - apply (proj1 (initializeUnknowns_freestream [1; 0.5; 0; 2.5]
                    [0; 0; 0; 0; 7; 7; 7; 7])).
    reflexivity.
  - apply (proj2 (initializeUnknowns_freestream [1; 0.5; 0; 2.5] [0; 0; 0; 0; 7])).
    cbn. lia.
Defined.

(** ** The residual and the request for time steps *)

Lemma minus_fluxes_length (fluxes r : list a_real) :
  length (minus_fluxes fluxes r) = length r.
Proof.
  unfold minus_fluxes, for_range. generalize (seq 0 (NVARS - 0)). intros l.
  revert r. induction l as [|i l IH]; intros r; [reflexivity|].
  cbn [fold_left]. now rewrite IH, length_alter.
Qed.

Lemma plus_fluxes_length (fluxes r : list a_real) :
  length (plus_fluxes fluxes r) = length r.
Proof.
  unfold plus_fluxes, for_range. generalize (seq 0 (NVARS - 0)). intros l.
  revert r. induction l as [|i l IH]; intros r; [reflexivity|].
  cbn [fold_left]. now rewrite IH, length_alter.
Qed.

Lemma accumulated_row_length (E : FlowFV) (u : MVector) (ug : Array2d)
    (grads : GradArray) (uleft uright : Array2d) (c : nat) (r : list a_real) :
  length (accumulated_row E u ug grads uleft uright c r) = length r.
Proof.
  unfold accumulated_row. generalize (seq 0 (gnaface (m E))). intros fs.
  revert r. induction fs as [|f fs IH]; intros r; [reflexivity|].
  cbn [flat_map]. rewrite fold_left_app, IH. unfold face_increments.
  destruct (left_of E f c), (right_of E f c); cbn [app fold_left];
    rewrite ?plus_fluxes_length, ?minus_fluxes_length; reflexivity.
Qed.

Lemma accumulated_row_untouched (E : FlowFV) (u : MVector) (ug : Array2d)
    (grads : GradArray) (uleft uright : Array2d) (c : nat) (r : list a_real) :
  (forall f, (f < gnaface (m E))%nat ->
     gintfac (m E) f 0 <> c /\ gintfac (m E) f 1 <> c) ->
  accumulated_row E u ug grads uleft uright c r = r.
Proof.
  intros Hfar. unfold accumulated_row.
  assert (forall n lo, (lo + n <= gnaface (m E))%nat ->
            flat_map (face_increments E u ug grads uleft uright c) (seq lo n) = [])
    as Hnil.
  { induction n as [|n IH]; intros lo Hn; [reflexivity|].
    cbn [seq flat_map]. rewrite IH by lia.
    destruct (Hfar lo) as [Hl Hr]; [lia|].
    unfold face_increments, left_of, right_of.
    apply Nat.eqb_neq in Hl, Hr. rewrite Hl, Hr, andb_false_r. reflexivity. }
  rewrite (Hnil (gnaface (m E)) 0%nat) by lia. reflexivity.
Qed.

(** X7. Asking for time steps does not change the residual: on a mesh
    whose boundary markers are all registered, the evaluation with and
    without [gettimesteps] returns the same residual array; without, the
    vector [dtm] comes back as it was; with, it keeps its length and its
    entries from [gnelem] on. *)
Theorem residual_regardless_of_time_steps (E : FlowFV) (uarr rarr : MVector)
    (dtm : list a_real) :
  markers_registered E = true ->
  exists r dtm',
    compute_residual E uarr rarr true dtm = Ok (0%Z, r, dtm') /\
    compute_residual E uarr rarr false dtm = Ok (0%Z, r, dtm) /\
    length dtm' = length dtm /\
    forall c, (gnelem (m E) <= c)%nat -> dtm' !! c = dtm !! c.
Proof.
  intros Hreg.
  destruct (face_states_returns E uarr (markers_registered_spec E Hreg))
    as [[[[ug ul] ur] gr] Hfs].
  unfold compute_residual. rewrite Hfs. result_step.
  eexists _, _. split; [reflexivity|]. split.
  - f_equal. f_equal. f_equal. unfold for_range.
    apply list_eq. intros c. now rewrite !face_loop_residual.
  - split.
    + apply for_range_insert_length.
    + intros c Hc. rewrite for_range_insert_lookup.
      case_decide; [lia | reflexivity].
Qed.

Lemma residual_regardless_of_time_steps_witness :
  exists r dtm',
    compute_residual (Channel.engine true) Channel.u0 Channel.r_one true [9; 9; 9; 9]
    = Ok (0%Z, r, dtm') /\
    compute_residual (Channel.engine true) Channel.u0 Channel.r_one false [9; 9; 9; 9]
    = Ok (0%Z, r, [9; 9; 9; 9]) /\
    length dtm' = length [9; 9; 9; 9] /\
    forall c, (gnelem (m (Channel.engine true)) <= c)%nat ->
      dtm' !! c = [9; 9; 9; 9] !! c.
Proof.
  apply (residual_regardless_of_time_steps (Channel.engine true)).
  vm_compute. reflexivity.
Defined.

(** X8. The evaluation keeps the shape of the residual array: the number
    of rows and the length of every row are those of the array passed
    in, and the row of a cell on which no face is incident comes back
    unchanged. *)
Theorem residual_keeps_its_shape (E : FlowFV) (uarr rarr : MVector) (gts : bool)
    (dtm : list a_real) :
  markers_registered E = true ->
  exists r dtm',
    compute_residual E uarr rarr gts dtm = Ok (0%Z, r, dtm') /\
    length r = length rarr /\
    (forall c, length (row r c) = length (row rarr c)) /\
    (forall c,
       (forall f, (f < gnaface (m E))%nat ->
          gintfac (m E) f 0 <> c /\ gintfac (m E) f 1 <> c) ->
       r !! c = rarr !! c).
Proof.
  intros Hreg.
  destruct (face_states_returns E uarr (markers_registered_spec E Hreg))
    as [[[[ug ul] ur] gr] Hfs].
  destruct (compute_residual_spec E uarr rarr gts dtm _ _ _ _ Hfs)
    as (r & dtm' & Hrun & Hrows & _).
  exists r, dtm'. split; [exact Hrun|].
  assert (length r = length rarr) as Hlen.
  { destruct (Nat.lt_trichotomy (length r) (length rarr)) as [Hlt|[Heq|Hgt]];
      [|exact Heq|].
    - pose proof (Hrows (length r)) as Hc.
      rewrite (lookup_ge_None_2 r) in Hc by lia.
      destruct (lookup_lt_is_Some_2 rarr (length r) Hlt) as [x Hx].
      rewrite Hx in Hc. discriminate.
    - pose proof (Hrows (length rarr)) as Hc.
      rewrite (lookup_ge_None_2 rarr) in Hc by lia.
      destruct (lookup_lt_is_Some_2 r (length rarr) Hgt) as [x Hx].
      rewrite Hx in Hc. discriminate. }
  split; [exact Hlen|]. split.
  - intros c. unfold row. rewrite !list_lookup_total_alt, Hrows.
    destruct (rarr !! c) as [r0|]; cbn; [|reflexivity].
    apply accumulated_row_length.
  - intros c Hfar. rewrite Hrows.
    destruct (rarr !! c) as [r0|]; cbn; [|reflexivity].
    now rewrite accumulated_row_untouched.
Qed.

Lemma residual_keeps_its_shape_witness :
  exists r dtm',
    compute_residual (Channel.engine true) Channel.u0 Channel.r_one false []
    = Ok (0%Z, r, dtm') /\
    length r = length Channel.r_one /\
    (forall c, length (row r c) = length (row Channel.r_one c)) /\
    (forall c,
       (forall f, (f < gnaface (m (Channel.engine true)))%nat ->
          gintfac (m (Channel.engine true)) f 0 <> c /\
          gintfac (m (Channel.engine true)) f 1 <> c) ->
       r !! c = Channel.r_one !! c).
Proof.
  apply (residual_keeps_its_shape (Channel.engine true)).
  vm_compute. reflexivity.
Defined.

(** ** First-order evaluations *)

(** X9. In a first-order evaluation, on a mesh whose boundary markers are
    all registered, the face states are cell states: the left state of
    every face is the state of its left cell, the right state of an
    interior face is the state of its right cell, and the right state of
    a boundary face is what the boundary treatment makes of the left
    states. No gradients are computed: the gradient array stays empty. *)
Theorem first_order_face_states_are_cell_states (E : FlowFV) (u : MVector) :
  secondOrderRequested E = false ->
  markers_registered E = true ->
  (gnbface (m E) <= gnaface (m E))%nat ->
  exists ug uleft uright,
    face_states E u = Ok (ug, uleft, uright, []) /\
    (forall f, (f < gnaface (m E))%nat ->
       uleft !! f = Some (left_cell_state E u f)) /\
    (forall f, (gnbface (m E) <= f < gnaface (m E))%nat ->
       uright !! f
       = Some (tabulate NVARS (fun ivar => at2 u (gintfac (m E) f 1) ivar))) /\
    (forall f, (f < gnbface (m E))%nat ->
       exists bc, bcs E !! gintfacbtags (m E) f 0 = Some bc /\
         uright !! f = Some (ghost_state_from E bc uleft f)).
Proof.
  intros H1 Hreg Hle.
  destruct (face_states_returns E u (markers_registered_spec E Hreg))
    as [[[[ug ul] ur] gr] Hfs].
  pose proof (face_states_inv E u ug ul ur gr Hfs) as (uright0 & Hur & Hphase).
  rewrite H1 in Hphase. unfold first_order_face_states in Hphase.
  injection Hphase as <- <- <- <-.
  eexists _, _, ur. split; [exact Hfs|].
  pose proof (compute_boundary_states_rows E _ _ _ Hur) as [Hlen Hrows].
  rewrite for_range_insert_length, zeros2_length in Hlen.
  split; [|split].
  - intros f Hf. rewrite for_range_insert_lookup.
    rewrite boundary_left_states_length. unfold left_cell_state.
    case_decide; [reflexivity|].
    apply boundary_left_states_lookup; lia.
  - intros f Hf. destruct (Hrows f) as [_ Hout]. rewrite Hout by lia.
    rewrite for_range_insert_lookup, zeros2_length.
    case_decide; [reflexivity | lia].
  - intros f Hf. destruct (Hrows f) as [Hin _].
    destruct Hin as (bc & Hbc & Hrow);
      [lia | rewrite for_range_insert_length, zeros2_length; lia|].
    exists bc. split; [exact Hbc|]. rewrite Hrow. unfold ghost_state_from.
    reflexivity.
Qed.

Lemma first_order_face_states_are_cell_states_witness :
  exists ug uleft uright,
    face_states (Channel.engine false) Channel.u0 = Ok (ug, uleft, uright, []) /\
    (forall f, (f < gnaface (m (Channel.engine false)))%nat ->
       uleft !! f = Some (left_cell_state (Channel.engine false) Channel.u0 f)) /\
    (forall f,
       (gnbface (m (Channel.engine false)) <= f
        < gnaface (m (Channel.engine false)))%nat ->
       uright !! f
       = Some (tabulate NVARS (fun ivar =>
                 at2 Channel.u0 (gintfac (m (Channel.engine false)) f 1) ivar))) /\
    (forall f, (f < gnbface (m (Channel.engine false)))%nat ->
       exists bc,
         bcs (Channel.engine false) !! gintfacbtags (m (Channel.engine false)) f 0
         = Some bc /\
         uright !! f = Some (ghost_state_from (Channel.engine false) bc uleft f)).
Proof.
  apply (first_order_face_states_are_cell_states (Channel.engine false)).
  - reflexivity.
  - vm_compute. reflexivity.
  - cbn. lia.
Defined.

Lemma face_states_first_order_reconstruction (E : FlowFV) (gs : GradientScheme)
    (l : SolutionReconstruction) (u : MVector) :
  secondOrderRequested E = false ->
  face_states (with_reconstruction E gs l) u = face_states E u.
Proof.
  intros H1. unfold face_states.
  change (secondOrderRequested (with_reconstruction E gs l))
    with (secondOrderRequested E).
  rewrite H1. reflexivity.
Qed.

(** X10. A first-order evaluation never calls the gradient scheme or the
    reconstruction: whatever the two are, the residual, the time steps
    and the outcome are the same, in inviscid and in viscous runs. *)
Theorem first_order_ignores_reconstruction (E : FlowFV) (gs : GradientScheme)
    (l : SolutionReconstruction) (uarr rarr : MVector) (gts : bool)
    (dtm : list a_real) :
  secondOrderRequested E = false ->
  compute_residual (with_reconstruction E gs l) uarr rarr gts dtm
  = compute_residual E uarr rarr gts dtm.
Proof.
  intros H1. unfold compute_residual.
  rewrite (face_states_first_order_reconstruction E gs l uarr H1).
  reflexivity.
Qed.

Lemma first_order_ignores_reconstruction_witness :
  compute_residual
    (with_reconstruction (Channel.engine false)
       {| compute_gradients := fun _ _ g => g |}
       {| compute_face_values := fun _ _ _ ufl ufr => (ufr, ufl) |})
    Channel.u0 Channel.r_zero true [0; 0; 0]
  = compute_residual (Channel.engine false) Channel.u0 Channel.r_zero true [0; 0; 0].
Proof.
  apply (first_order_ignores_reconstruction (Channel.engine false)).
  reflexivity.
Defined.

(** ** The boundary condition under the periodic marker *)

Lemma compute_boundary_states_periodic_condition (E : FlowFV) (bc' : FlowBC)
    (ins bs : Array2d) :
  is_Some (bcs E !! periodic_id (pconfig E)) ->
  compute_boundary_states
    (with_bcs E (<[periodic_id (pconfig E) := bc']> (bcs E))) ins bs
  = compute_boundary_states E ins bs.
Proof.
  intros [bc0 Hbc0]. unfold compute_boundary_states.
  change (gnbface (m (with_bcs E (<[periodic_id (pconfig E) := bc']> (bcs E)))))
    with (gnbface (m E)).
  apply foldM_ext. intros s x.
  unfold compute_boundary_state, is_periodic.
  change (bcs (with_bcs E (<[periodic_id (pconfig E) := bc']> (bcs E))))
    with (<[periodic_id (pconfig E) := bc']> (bcs E)).
  change (m (with_bcs E (<[periodic_id (pconfig E) := bc']> (bcs E)))) with (m E).
  change (pconfig (with_bcs E (<[periodic_id (pconfig E) := bc']> (bcs E))))
    with (pconfig E).
  destruct (Z.eqb (gintfacbtags (m E) x 0) (periodic_id (pconfig E))) eqn:Hper.
  - apply Z.eqb_eq in Hper. rewrite Hper, lookup_insert_eq, Hbc0.
    result_step. now rewrite !list_insert_insert_eq.
  - apply Z.eqb_neq in Hper. rewrite lookup_insert_ne by congruence.
    reflexivity.
Qed.

(** X11. Which boundary condition is registered under the periodic marker
    has no effect on a residual evaluation, as long as there is one: the
    ghost state it computes at a periodic face is overwritten by the
    left state of the paired face. *)
Theorem residual_ignores_periodic_condition (E : FlowFV) (bc' : FlowBC)
    (uarr rarr : MVector) (gts : bool) (dtm : list a_real) :
  is_Some (bcs E !! periodic_id (pconfig E)) ->
  compute_residual (with_bcs E (<[periodic_id (pconfig E) := bc']> (bcs E)))
    uarr rarr gts dtm
  = compute_residual E uarr rarr gts dtm.
Proof.
  intros Hsome.
  assert (face_states (with_bcs E (<[periodic_id (pconfig E) := bc']> (bcs E))) uarr
          = face_states E uarr) as Hfs.
  { unfold face_states.
    change (secondOrderRequested
              (with_bcs E (<[periodic_id (pconfig E) := bc']> (bcs E))))
      with (secondOrderRequested E).
    destruct (secondOrderRequested E).
    - rewrite (compute_boundary_states_periodic_condition E bc' _ _ Hsome).
      destruct (compute_boundary_states E _ _) as [ugc|e]; [|reflexivity].
      result_step.
      change (second_order_face_states
                (with_bcs E (<[periodic_id (pconfig E) := bc']> (bcs E))))
        with (second_order_face_states E).
      destruct (second_order_face_states E uarr ugc _ _) as [[[ug ul] ur] gr].
      now rewrite (compute_boundary_states_periodic_condition E bc' _ _ Hsome).
    - result_step.
      change (first_order_face_states
                (with_bcs E (<[periodic_id (pconfig E) := bc']> (bcs E))))
        with (first_order_face_states E).
      destruct (first_order_face_states E uarr _ _ _) as [[[ug ul] ur] gr].
      now rewrite (compute_boundary_states_periodic_condition E bc' _ _ Hsome). }
  unfold compute_residual. rewrite Hfs. reflexivity.
Qed.

Lemma residual_ignores_periodic_condition_witness :
  compute_residual
    (with_bcs (Channel.engine true)
       (<[periodic_id (pconfig (Channel.engine true)) := Channel.Slipwall]>
          (bcs (Channel.engine true))))
    Channel.u0 Channel.r_zero true [0; 0; 0]
  = compute_residual (Channel.engine true) Channel.u0 Channel.r_zero true [0; 0; 0].
Proof.
  apply (residual_ignores_periodic_condition (Channel.engine true)).
  vm_compute. eauto.
Defined.

(** ** The viscous flux and its Jacobians *)

(** A loop that alters, in both arrays of a pair, the entry whose index
    it computes from the counter: an entry that no index hits stays. *)
Lemma pair_alter_loop_frame {A : Type} (fa fb : nat -> A -> A) (idx : nat -> nat)
    (l : list nat) (d : list A * list A) (k : nat) :
  (forall i, In i l -> idx i <> k) ->
  let d' := fold_left (fun '(a, b) i =>
                (alter (fa i) (idx i) a, alter (fb i) (idx i) b)) l d in
  fst d' !! k = fst d !! k /\ snd d' !! k = snd d !! k /\
  length (fst d') = length (fst d) /\ length (snd d') = length (snd d).
Proof.
  cbv zeta. revert d. induction l as [|i l IH]; intros [a b] Hk.
  - cbn. repeat split.
  - cbn [fold_left].
    destruct (IH (alter (fa i) (idx i) a, alter (fb i) (idx i) b))
      as (Ha & Hb & Hla & Hlb).
    { intros j Hj. apply Hk. now right. }
    cbn [fst snd] in *. rewrite Ha, Hb, Hla, Hlb, !length_alter.
    rewrite !list_lookup_alter_ne by (apply Hk; now left). repeat split.
Qed.

(** X13. [computeViscousFluxApproximateJacobian] changes the diagonal of
    the two blocks only: every diagonal entry of both blocks is reduced
    by the same amount mu / (rho d), with rho the mean density of the two
    states and d the distance between the cell centres; the entries off
    the diagonal stay as they were. *)
Theorem approximate_viscous_jacobian_is_diagonal (E : FlowFV) (iface : nat)
    (ul ur dvfi dvfj : list a_real) (i j : nat) :
  (i < NVARS)%nat -> (j < NVARS)%nat ->
  fst (computeViscousFluxApproximateJacobian E iface ul ur dvfi dvfj)
    !! (i * NVARS + j)%nat
  = (if (i =? j)%nat then diagonal_shift E iface ul ur else id)
    <$> dvfi !! (i * NVARS + j)%nat /\
  snd (computeViscousFluxApproximateJacobian E iface ul ur dvfi dvfj)
    !! (i * NVARS + j)%nat
  = (if (i =? j)%nat then diagonal_shift E iface ul ur else id)
    <$> dvfj !! (i * NVARS + j)%nat.
Proof.
  intros Hi Hj.
  unfold computeViscousFluxApproximateJacobian, diagonal_shift, for_range.
  assert (NVARS = 4%nat) as HN by reflexivity.
  assert (i < 4 /\ j < 4)%nat as Hij by lia. clear Hi Hj.
  cbn [Nat.sub NVARS seq fold_left fst snd Nat.mul Nat.add].
  destruct Hij as [Hi Hj].
  destruct i as [|[|[|[|i]]]]; [| | | |lia];
    (destruct j as [|[|[|[|j]]]]; [| | | |lia]);
    cbn [Nat.mul Nat.add Nat.eqb];
    repeat first [ rewrite list_lookup_alter_ne by lia
                 | rewrite list_lookup_alter_eq ];
    (split; [destruct (dvfi !! _) | destruct (dvfj !! _)]; reflexivity).
Qed.

Lemma approximate_viscous_jacobian_is_diagonal_witness :
  fst (computeViscousFluxApproximateJacobian (Channel.engine false) 8
         [1; 0.5; 0; 2.5] [2; 1; 0; 5] (zeros block_size) (zeros block_size))
    !! (1 * NVARS + 1)%nat
  = (if (1 =? 1)%nat
     then diagonal_shift (Channel.engine false) 8 [1; 0.5; 0; 2.5] [2; 1; 0; 5]
     else id)
    <$> zeros block_size !! (1 * NVARS + 1)%nat /\
  snd (computeViscousFluxApproximateJacobian (Channel.engine false) 8
         [1; 0.5; 0; 2.5] [2; 1; 0; 5] (zeros block_size) (zeros block_size))
    !! (1 * NVARS + 1)%nat
  = (if (1 =? 1)%nat
     then diagonal_shift (Channel.engine false) 8 [1; 0.5; 0; 2.5] [2; 1; 0; 5]
     else id)
    <$> zeros block_size !! (1 * NVARS + 1)%nat.
Proof.
  apply (approximate_viscous_jacobian_is_diagonal (Channel.engine false) 8
           [1; 0.5; 0; 2.5] [2; 1; 0; 5] (zeros block_size) (zeros block_size) 1 1);
    unfold NVARS; lia.
Defined.

(** X14. The viscous flux Jacobian never touches the mass row: the first
    NVARS entries of the two blocks passed to
    [computeViscousFluxJacobian] come back unchanged, and the blocks
    keep their size. *)
Theorem viscous_jacobian_keeps_mass_row (E : FlowFV) (iface : nat)
    (ul ur dvfi dvfj : list a_real) (k : nat) :
  (k < NVARS)%nat ->
  fst (computeViscousFluxJacobian E iface ul ur dvfi dvfj) !! k = dvfi !! k /\
  snd (computeViscousFluxJacobian E iface ul ur dvfi dvfj) !! k = dvfj !! k /\
  length (fst (computeViscousFluxJacobian E iface ul ur dvfi dvfj)) = length dvfi /\
  length (snd (computeViscousFluxJacobian E iface ul ur dvfi dvfj)) = length dvfj.
Proof.
  intros Hk. assert (k < 4)%nat as Hk4 by exact Hk. clear Hk.
  unfold computeViscousFluxJacobian.
  destruct (getFaceGradientAndJacobian_thinLayer _ _ _ _ _ _ _ _)
    as [[grad dgradl] dgradr].
  destruct (if constVisc E then _ else _) as [[[dmul dmur] dkdl] dkdr].
  destruct (getJacobianStress _ _ dmul _ _ _ _) as [stress dstressl].
  destruct (getJacobianStress _ _ dmur _ _ _ _) as [stress' dstressr].
  unfold for_range.
  cbn [Nat.sub NDIM NVARS seq fold_left Nat.add Nat.mul].
  cbn [fst snd]. rewrite !length_alter.
  rewrite !list_lookup_alter_ne by lia. repeat split.
Qed.

Lemma viscous_jacobian_keeps_mass_row_witness :
  fst (computeViscousFluxJacobian (Channel.engine false) 8 [1; 0.5; 0; 2.5]
         [2; 1; 0; 5] (zeros block_size) (zeros block_size)) !! 1%nat
  = zeros block_size !! 1%nat /\
  snd (computeViscousFluxJacobian (Channel.engine false) 8 [1; 0.5; 0; 2.5]
         [2; 1; 0; 5] (zeros block_size) (zeros block_size)) !! 1%nat
  = zeros block_size !! 1%nat /\
  length (fst (computeViscousFluxJacobian (Channel.engine false) 8 [1; 0.5; 0; 2.5]
                 [2; 1; 0; 5] (zeros block_size) (zeros block_size)))
  = length (zeros block_size) /\
  length (snd (computeViscousFluxJacobian (Channel.engine false) 8 [1; 0.5; 0; 2.5]
                 [2; 1; 0; 5] (zeros block_size) (zeros block_size)))
  = length (zeros block_size).
Proof.
  apply (viscous_jacobian_keeps_mass_row (Channel.engine false) 8).
  unfold NVARS. lia.
Defined.

(** ** The factories *)

(** X15. The inviscid-flux factory returns a flux object exactly for the
    seven names it recognizes, compared letter by letter (so in upper
    case); for every other name the pointer is null. It raises nothing
    either way. *)
Theorem inviscid_flux_factory_names (type : string) (p : IdealGasPhysics) :
  exists o msg,
    create_mutable_inviscidflux type p = Ok (o, msg) /\
    (is_Some o <-> In type recognized_fluxes).
Proof.
  unfold create_mutable_inviscidflux, recognized_fluxes.
  repeat match goal with
  | |- context [String.eqb type ?s] =>
      destruct (String.eqb_spec type s) as [->|?];
        [eexists _, _; split; [reflexivity|];
         split; [intros _; cbn; tauto | intros _; eauto] |]
  end.
  eexists _, _. split; [reflexivity|]. split.
  - intros [x Hx]. discriminate.
  - cbn. intros H. exfalso. intuition congruence.
Qed.

(** X16. The reconstruction factory returns an object exactly for the
    names NONE, WENO, VANALBADA, BARTHJESPERSEN and VENKATAKRISHNAN; for
    every other name it prints that the reconstruction is invalid and
    returns a null pointer, without raising an error. The const factory
    returns what the mutable one returns. *)
Theorem reconstruction_factory_names (type : string) (m : UMesh2dh) (rc : Array2d)
    (gr : GradArray) (param : a_real) :
  (exists o msg,
     create_mutable_reconstruction type m rc gr param = Ok (o, msg) /\
     (is_Some o <-> In type recognized_reconstructions)) /\
  (~ In type recognized_reconstructions ->
   create_mutable_reconstruction type m rc gr param
   = Ok (None, (" !ReconstructionFactory: Invalid reconstruction!!" ++ endl)%string)) /\
  create_const_reconstruction type m rc gr param
  = create_mutable_reconstruction type m rc gr param.
Proof.
  split; [|split; [|reflexivity]].
  - unfold create_mutable_reconstruction, recognized_reconstructions.
    repeat match goal with
    | |- context [String.eqb type ?s] =>
        destruct (String.eqb_spec type s) as [->|?];
          [eexists _, _; split; [reflexivity|];
           split; [intros _; cbn; tauto | intros _; eauto] |]
    end.
    eexists _, _. split; [reflexivity|]. split.
    + intros [x Hx]. discriminate.
    + cbn. intros H. exfalso. intuition congruence.
  - intros Hnot. unfold create_mutable_reconstruction.
    repeat match goal with
    | |- context [String.eqb type ?s] =>
        destruct (String.eqb_spec type s) as [->|?];
          [exfalso; apply Hnot; cbn; tauto |]
    end.
    reflexivity.
Qed.

Lemma reconstruction_factory_names_witness :
  create_mutable_reconstruction "MUSCL" Channel.mesh (Spatial_rc Channel.mesh)
    (Spatial_gr Channel.mesh) 0
  = Ok (None, (" !ReconstructionFactory: Invalid reconstruction!!" ++ endl)%string).
Proof.
  apply (proj1 (proj2 (reconstruction_factory_names "MUSCL" Channel.mesh
                         (Spatial_rc Channel.mesh) (Spatial_gr Channel.mesh) 0))).
  cbn. intros H. intuition discriminate.
Defined.

(** ** The output array of [computeSurfaceData] *)

Section Surface_rows.
Context (E : FlowFV) (lm : cmath) (u : MVector) (grad : GradArray) (iwbcm : Z).

Local Abbreviation av := (flowDirectionVector lm (aoa (pconfig E))).
Local Abbreviation flownormal := ([- av !!! 1%nat; av !!! 0%nat]).
Local Abbreviation pinf := (getFreestreamPressure (physics E)).
Local Abbreviation marked :=
  (fun f => Z.eqb (gintfacbtags (m E) f 0) iwbcm).
Local Abbreviation body :=
  (fun s iface =>
     if Z.eqb (gintfacbtags (m E) iface 0) iwbcm
     then surface_face E u grad av flownormal pinf s iface
     else s).

(** The loop visits the faces that carry the marker, and only those. *)
Lemma surface_loop_filter (fs : list nat) (s : surface_state) :
  fold_left body fs s
  = fold_left (surface_face E u grad av flownormal pinf) (List.filter marked fs) s.
Proof.
  revert s. induction fs as [|f fs IH]; intros s; [reflexivity|].
  cbn [fold_left List.filter].
  destruct (Z.eqb (gintfacbtags (m E) f 0) iwbcm); cbn [fold_left]; apply IH.
Qed.

(** The first NDIM entries of the row of a wall face: the mean of the
    two end points of the face, on a two-dimensional mesh. *)
Lemma surface_face_centre (s : surface_state) (f : nat) (r : list a_real) (j : nat) :
  gnnofa (m E) = 2%nat ->
  output s !! facecoun s = Some r -> (NDIM + 2 <= length r)%nat ->
  (j < NDIM)%nat ->
  at2 (output (surface_face E u grad av flownormal pinf s f)) (facecoun s) j
  = (0 + gcoords (m E) (gintfac (m E) f 2) j + gcoords (m E) (gintfac (m E) f 3) j)
    / 2.
Proof.
  intros Hnofa Hrow Hwide Hj.
  unfold surface_face. cbn [output]. rewrite Hnofa.
  unfold for_range, NDIM in *. cbn [seq fold_left Nat.sub]. unfold set2.
  rewrite !alter_alter.
  rewrite (at2_lookup _ _ _ _
             ltac:(rewrite list_lookup_alter_eq, Hrow; reflexivity)).
  change (double_of_int 2) with 2%float.
  destruct j as [|[|j]]; [| |lia].
  - rewrite !list_lookup_total_insert_ne by lia.
    rewrite list_lookup_total_insert_eq by lia. reflexivity.
  - rewrite !list_lookup_total_insert_ne by lia.
    rewrite list_lookup_total_insert_eq by (rewrite length_insert; lia).
    reflexivity.
Qed.

Lemma surface_rows_fold (fs : list nat) (s : surface_state) :
  gnnofa (m E) = 2%nat ->
  wide_rows (output s) ->
  (facecoun s + length fs <= length (output s))%nat ->
  let s' := fold_left (surface_face E u grad av flownormal pinf) fs s in
  facecoun s' = (facecoun s + length fs)%nat /\
  length (output s') = length (output s) /\
  (forall k f j, fs !! k = Some f -> (j < NDIM)%nat ->
     at2 (output s') (facecoun s + k) j
     = (0 + gcoords (m E) (gintfac (m E) f 2) j
        + gcoords (m E) (gintfac (m E) f 3) j) / 2) /\
  (forall k, (k < facecoun s \/ facecoun s + length fs <= k)%nat ->
     output s' !! k = output s !! k).
Proof.
  intros Hnofa. revert s. induction fs as [|f fs IH]; intros s Hwide Hroom.
  - cbn. split; [lia|]. split; [reflexivity|].
    split; [intros k g j Hk; discriminate | intros; reflexivity].
  - cbn [fold_left length] in *.
    destruct (lookup_lt_is_Some_2 (output s) (facecoun s)) as [r Hr]; [lia|].
    pose proof (surface_face_step E lm u grad s f r Hr (Hwide _ _ Hr))
      as (Hfc & _ & _ & _ & _ & _ & _ & Hlen & Hother & Hw).
    pose proof (surface_face_centre s f r) as Hcentre.
    set (s1 := surface_face E u grad av flownormal pinf s f) in *.
    destruct (IH s1) as (IHfc & IHlen & IHrows & IHkeep).
    { now apply Hw. }
    { rewrite Hfc, Hlen. lia. }
    split; [rewrite IHfc, Hfc; lia|]. split; [now rewrite IHlen|]. split.
    + intros [|k] g j Hk Hj.
      * injection Hk as <-. rewrite Nat.add_0_r.
        rewrite (at2_same_row _ (output s1) (facecoun s) j)
          by (apply IHkeep; rewrite Hfc; lia).
        apply Hcentre; [exact Hnofa | exact Hr | exact (Hwide _ _ Hr) | exact Hj].
      * replace (facecoun s + S k)%nat with (facecoun s1 + k)%nat
          by (rewrite Hfc; lia).
        now apply IHrows.
    + intros k Hk. rewrite IHkeep by (rewrite Hfc; lia).
      apply Hother. lia.
Qed.

End Surface_rows.

(** X17. What [computeSurfaceData] writes into the output array, on a
    two-dimensional mesh and with a row of at least NDIM + 2 entries for
    every face that carries the marker: the array keeps its number of
    rows; row [k] starts with the coordinates of the centre of the
    [k]-th such face, the mean of its two end points; and the rows from
    the number of such faces on are left as they were. *)
Theorem surface_data_rows (E : FlowFV) (lm : cmath) (u : MVector)
    (grad : GradArray) (iwbcm : Z) (out : MVector) :
  gnnofa (m E) = 2%nat ->
  wide_rows out ->
  (length (wall_faces E iwbcm) <= length out)%nat ->
  length (snd (computeSurfaceData E lm u grad iwbcm out)) = length out /\
  (forall k f j, wall_faces E iwbcm !! k = Some f -> (j < NDIM)%nat ->
     at2 (snd (computeSurfaceData E lm u grad iwbcm out)) k j
     = (0 + gcoords (m E) (gintfac (m E) f 2) j
        + gcoords (m E) (gintfac (m E) f 3) j) / 2) /\
  (forall k, (length (wall_faces E iwbcm) <= k)%nat ->
     snd (computeSurfaceData E lm u grad iwbcm out) !! k = out !! k).
Proof.
  intros Hnofa Hwide Hroom.
  unfold computeSurfaceData, surface_loop, for_range. rewrite Nat.sub_0_r.
  cbn [snd]. rewrite surface_loop_filter.
  pose proof (surface_rows_fold E lm u grad (wall_faces E iwbcm)
                {| facecoun := 0; totallen := 0; Cdf := 0; Cdp := 0; Cl := 0;
                   output := out |} Hnofa Hwide Hroom)
    as (_ & Hlen & Hrows & Hkeep).
  split; [exact Hlen|]. split.
  - intros k f j Hk Hj. apply (Hrows k f j Hk Hj).
  - intros k Hk. apply Hkeep. right. exact Hk.
Qed.

Lemma surface_data_rows_witness :
  length (snd (computeSurfaceData (Channel.engine false) Channel.libm Channel.u0
                 (Channel.grads_of true) 2 (zeros2 7 4)))
  = length (zeros2 7 4) /\
  (forall k f j, wall_faces (Channel.engine false) 2 !! k = Some f -> (j < NDIM)%nat ->
     at2 (snd (computeSurfaceData (Channel.engine false) Channel.libm Channel.u0
                 (Channel.grads_of true) 2 (zeros2 7 4))) k j
     = (0 + gcoords (m (Channel.engine false))
              (gintfac (m (Channel.engine false)) f 2) j
        + gcoords (m (Channel.engine false))
            (gintfac (m (Channel.engine false)) f 3) j) / 2) /\
  (forall k, (length (wall_faces (Channel.engine false) 2) <= k)%nat ->
     snd (computeSurfaceData (Channel.engine false) Channel.libm Channel.u0
            (Channel.grads_of true) 2 (zeros2 7 4)) !! k
     = zeros2 7 4 !! k).
Proof.
  apply (surface_data_rows (Channel.engine false)).
  - reflexivity.
  - intros k r Hk. apply list_elem_of_lookup_2 in Hk.
    apply elem_of_replicate in Hk as [-> _]. cbn. unfold NDIM. lia.
  - vm_compute. lia.
Defined.

(** X18. A marker that no boundary face carries: [computeSurfaceData]
    leaves the output array untouched and divides zero sums by a zero
    total length, so that the three coefficients it returns are NaN. *)
Theorem surface_data_without_faces (E : FlowFV) (lm : cmath) (u : MVector)
    (grad : GradArray) (iwbcm : Z) (out : MVector) :
  wall_faces E iwbcm = [] ->
  computeSurfaceData E lm u grad iwbcm out = ((nan, nan, nan), out).
Proof.
  intros Hnone.
  unfold computeSurfaceData, surface_loop, for_range. rewrite Nat.sub_0_r.
  rewrite surface_loop_filter. unfold wall_faces in Hnone. rewrite Hnone.
  reflexivity.
Qed.

Lemma surface_data_without_faces_witness :
  computeSurfaceData (Channel.engine false) Channel.libm Channel.u0
    (Channel.grads_of true) 3 (zeros2 6 4)
  = ((nan, nan, nan), zeros2 6 4).
Proof.
  apply (surface_data_without_faces (Channel.engine false)).
  reflexivity.
Defined.

(** ** The cell centres of the constructor of [Spatial] *)

(** A loop that writes entry [h i] at step [i], for an injective [h]. *)
Lemma for_range_insert_at {A : Type} (h : nat -> nat) (g : nat -> A) (n : nat)
    (a0 : list A) :
  (forall i j, (i < n)%nat -> (j < n)%nat -> h i = h j -> i = j) ->
  length (for_range 0 n (fun a i => <[h i := g i]> a) a0) = length a0 /\
  (forall i, (i < n)%nat -> (h i < length a0)%nat ->
     for_range 0 n (fun a i => <[h i := g i]> a) a0 !! h i = Some (g i)) /\
  (forall k, (forall i, (i < n)%nat -> h i <> k) ->
     for_range 0 n (fun a i => <[h i := g i]> a) a0 !! k = a0 !! k).
Proof.
  unfold for_range. rewrite Nat.sub_0_r.
  induction n as [|n IH]; intros Hinj.
  - cbn. split; [reflexivity|]. split; [lia | reflexivity].
  - destruct IH as (IHlen & IHhit & IHmiss).
    { intros i j Hi Hj. apply Hinj; lia. }
    rewrite seq_S, fold_left_app. cbn [fold_left Nat.add].
    split; [now rewrite length_insert|]. split.
    + intros i Hi Hlt. destruct (decide (i = n)) as [->|Hne].
      * apply list_lookup_insert_eq. now rewrite IHlen.
      * rewrite list_lookup_insert_ne.
        -- apply IHhit; [lia | exact Hlt].
        -- intros Heq. apply Hne. symmetry. apply Hinj; [lia | lia | exact Heq].
    + intros k Hk. rewrite list_lookup_insert_ne by (apply Hk; lia).
      apply IHmiss. intros i Hi. apply Hk. lia.
Qed.

Lemma cell_centres_lookup (m : UMesh2dh) (c : nat) :
  (c < gnelem m)%nat ->
  cell_centres m !! c = Some (tabulate NDIM (node_mean m c)).
Proof.
  intros Hc. unfold cell_centres. rewrite for_range_insert_lookup, zeros2_length.
  case_decide; [reflexivity | lia].
Qed.

(** X19. The cell centres that the constructor of [Spatial] computes, on
    a mesh whose boundary faces have distinct ghost cells numbered from
    [gnelem] on: the array has [gnelem + gnbface] rows; the centre of a
    real cell is the mean of its nodes; and the centre of the ghost cell
    of a boundary face is the reflection of the centre of the face's
    left cell about the midpoint of the face. *)
Theorem ghost_cell_centres_are_reflections (m : UMesh2dh) :
  (forall f, (f < gnbface m)%nat ->
     (gintfac m f 0 < gnelem m <= gintfac m f 1)%nat /\
     (gintfac m f 1 < gnelem m + gnbface m)%nat) ->
  (forall f f', (f < gnbface m)%nat -> (f' < gnbface m)%nat ->
     gintfac m f 1 = gintfac m f' 1 -> f = f') ->
  length (Spatial_rc m) = (gnelem m + gnbface m)%nat /\
  (forall c, (c < gnelem m)%nat ->
     Spatial_rc m !! c = Some (tabulate NDIM (node_mean m c))) /\
  (forall f, (f < gnbface m)%nat ->
     Spatial_rc m !! gintfac m f 1 = Some (reflected_centre m f)).
Proof.
  intros Hghost Hinj. unfold Spatial_rc.
  set (rchg := compute_ghost_cell_coords_about_midpoint m (cell_centres m)
                 (zeros2 (gnbface m) NDIM)).
  destruct (for_range_insert_at (fun iface => gintfac m iface 1)
              (fun iface => tabulate NDIM (fun idim => at2 rchg iface idim))
              (gnbface m) (cell_centres m) Hinj) as (Hlen & Hhit & Hmiss).
  assert (length (cell_centres m) = (gnelem m + gnbface m)%nat) as Hrc.
  { unfold cell_centres. now rewrite for_range_insert_length, zeros2_length. }
  split; [now rewrite Hlen|]. split.
  - intros c Hc. rewrite Hmiss.
    + now apply cell_centres_lookup.
    + intros i Hi. destruct (Hghost i Hi) as [Hrange _]. lia.
  - intros f Hf. destruct (Hghost f Hf) as [Hrange Hlt].
    rewrite Hhit by (rewrite ?Hrc; lia). f_equal.
    unfold reflected_centre. apply tabulate_ext. intros idim Hidim.
    assert (rchg !! f
            = Some (tabulate NDIM (fun idim =>
                2 * tabulate NDIM (fun idim =>
                      0.5 * (gcoords m (gintfac m f 2) idim
                             + gcoords m (gintfac m f 3) idim)) !!! idim
                - at2 (cell_centres m) (gintfac m f 0) idim))) as Hrow.
    { unfold rchg, compute_ghost_cell_coords_about_midpoint.
      rewrite for_range_insert_lookup, zeros2_length.
      case_decide; [reflexivity | lia]. }
    rewrite (at2_lookup _ _ _ _ Hrow).
    rewrite tabulate_lookup_total by exact Hidim.
    rewrite tabulate_lookup_total by exact Hidim.
    rewrite (at2_lookup _ _ _ _ (cell_centres_lookup m (gintfac m f 0) ltac:(lia))).
    now rewrite tabulate_lookup_total by exact Hidim.
Qed.

Lemma ghost_cell_centres_are_reflections_witness :
  length (Spatial_rc Channel.mesh) = (gnelem Channel.mesh + gnbface Channel.mesh)%nat /\
  (forall c, (c < gnelem Channel.mesh)%nat ->
     Spatial_rc Channel.mesh !! c = Some (tabulate NDIM (node_mean Channel.mesh c))) /\
  (forall f, (f < gnbface Channel.mesh)%nat ->
     Spatial_rc Channel.mesh !! gintfac Channel.mesh f 1
     = Some (reflected_centre Channel.mesh f)).
Proof.
  apply (ghost_cell_centres_are_reflections Channel.mesh).
  - intros f Hf. cbn in Hf.
    do 8 (destruct f as [|f]; [cbn; lia|]). lia.
  - intros f f' Hf Hf'. cbn in Hf, Hf'.
    do 8 (destruct f as [|f];
          [do 8 (destruct f' as [|f']; [cbn; intros; try reflexivity; lia|]); lia|]).
    lia.
Defined.

(** ** Second-order evaluations *)

(** X20. In a second-order evaluation, on a mesh whose boundary markers
    are all registered, gradients and reconstruction work on primitive
    variables: the gradient scheme receives the cell states and the ghost
    states converted to primitive variables, the reconstruction receives
    those and the gradients, and the two states of every interior face
    are its face values converted back to conserved variables. *)
Theorem second_order_interior_face_states (E : FlowFV) (u : MVector) :
  secondOrderRequested E = true ->
  markers_registered E = true ->
  (gnbface (m E) <= gnaface (m E))%nat ->
  exists ugc ug uleft uright grads,
    face_states E u = Ok (ug, uleft, uright, grads) /\
    compute_boundary_states E (boundary_left_states E u)
      (zeros2 (gnbface (m E)) NVARS) = Ok ugc /\
    ug = primitive_ghost_states E ugc /\
    (forall c, (c < gnelem (m E))%nat ->
       primitive_cell_states E u !! c
       = Some (getPrimitiveFromConserved (physics E) (row u c))) /\
    grads = compute_gradients (gradcomp E) (primitive_cell_states E u) ug
              (replicate (gnelem (m E)) (zeros2 NDIM NVARS)) /\
    forall f, (gnbface (m E) <= f < gnaface (m E))%nat ->
      uleft !! f
      = Some (getConservedFromPrimitive (physics E)
                (row (fst (compute_face_values (lim E) (primitive_cell_states E u)
                             ug grads (boundary_left_states E u)
                             (zeros2 (gnaface (m E)) NVARS))) f)) /\
      uright !! f
      = Some (getConservedFromPrimitive (physics E)
                (row (snd (compute_face_values (lim E) (primitive_cell_states E u)
                             ug grads (boundary_left_states E u)
                             (zeros2 (gnaface (m E)) NVARS))) f)).
Proof.
  intros H2 Hreg Hle.
  destruct (face_states_returns E u (markers_registered_spec E Hreg))
    as [[[[ug ul] ur] gr] Hfs].
  pose proof (face_states_inv E u ug ul ur gr Hfs) as (uright0 & Hur & Hphase).
  rewrite H2 in Hphase. destruct Hphase as (ugc & Hugc & Hso).
  unfold second_order_face_states, reconstructed_face_values in Hso.
  injection Hso as <- <- <- <-.
  eexists ugc, _, _, ur, _. split; [exact Hfs|]. split; [exact Hugc|].
  split; [reflexivity|]. split.
  { intros c Hc. unfold primitive_cell_states.
    rewrite for_range_insert_lookup, zeros2_length.
    case_decide; [reflexivity | lia]. }
  split; [reflexivity|].
  intros f Hf. split.
  - rewrite !for_range_alter_lookup.
    destruct (decide (0 <= f < gnbface (m E))%nat) as [Hlow|_]; [lia|].
    destruct (decide (gnbface (m E) <= f < gnaface (m E))%nat) as [_|Hout]; [|lia].
    rewrite tabulate_lookup by lia. reflexivity.
  - pose proof (compute_boundary_states_rows E _ _ _ Hur) as [_ Hrows].
    destruct (Hrows f) as [_ Hkeep]. rewrite Hkeep by lia.
    rewrite for_range_alter_lookup.
    destruct (decide (gnbface (m E) <= f < gnaface (m E))%nat) as [_|Hout]; [|lia].
    rewrite tabulate_lookup by lia. reflexivity.
Qed.

Lemma second_order_interior_face_states_witness :
  exists ugc ug uleft uright grads,
    face_states (Channel.engine true) Channel.u0 = Ok (ug, uleft, uright, grads) /\
    compute_boundary_states (Channel.engine true)
      (boundary_left_states (Channel.engine true) Channel.u0)
      (zeros2 (gnbface (m (Channel.engine true))) NVARS) = Ok ugc /\
    ug = primitive_ghost_states (Channel.engine true) ugc /\
    (forall c, (c < gnelem (m (Channel.engine true)))%nat ->
       primitive_cell_states (Channel.engine true) Channel.u0 !! c
       = Some (getPrimitiveFromConserved (physics (Channel.engine true))
                 (row Channel.u0 c))) /\
    grads
    = compute_gradients (gradcomp (Channel.engine true))
        (primitive_cell_states (Channel.engine true) Channel.u0) ug
        (replicate (gnelem (m (Channel.engine true))) (zeros2 NDIM NVARS)) /\
    forall f,
      (gnbface (m (Channel.engine true)) <= f
       < gnaface (m (Channel.engine true)))%nat ->
      uleft !! f
      = Some (getConservedFromPrimitive (physics (Channel.engine true))
                (row (fst (compute_face_values (lim (Channel.engine true))
                             (primitive_cell_states (Channel.engine true) Channel.u0)
                             ug grads
                             (boundary_left_states (Channel.engine true) Channel.u0)
                             (zeros2 (gnaface (m (Channel.engine true))) NVARS)))
                   f)) /\
      uright !! f
      = Some (getConservedFromPrimitive (physics (Channel.engine true))
                (row (snd (compute_face_values (lim (Channel.engine true))
                             (primitive_cell_states (Channel.engine true) Channel.u0)
                             ug grads
                             (boundary_left_states (Channel.engine true) Channel.u0)
                             (zeros2 (gnaface (m (Channel.engine true))) NVARS)))
                   f)).
Proof.
  apply (second_order_interior_face_states (Channel.engine true) Channel.u0).
  - reflexivity.
  - vm_compute. reflexivity.
  - cbn. lia.
Defined.

(** ** The thin-layer gradient *)

(** X21. The thin-layer gradient of a face is the compact difference
    (phi_R - phi_L) / d along the unit vector e between the two cell
    centres, and the modified-average gradient is made of it: the mean
    of the two cell gradients, less its component along e, plus the
    thin-layer gradient. *)
Theorem thin_layer_in_modified_average (m : UMesh2dh) (rc : Array2d)
    (nvars iface : nat) (ucl ucr dul dur : list a_real) (gradl gradr : Array2d)
    (i j : nat) :
  (i < nvars)%nat -> (j < NDIM)%nat ->
  at2 (fst (fst (getFaceGradientAndJacobian_thinLayer m rc nvars iface
                   ucl ucr dul dur))) j i
  = compact_difference m rc iface ucl ucr i * unit_direction m rc iface j /\
  at2 (getFaceGradient_modifiedAverage m rc nvars iface ucl ucr gradl gradr) j i
  = average_gradient gradl gradr i j
    - (0 + average_gradient gradl gradr i 0 * unit_direction m rc iface 0
       + average_gradient gradl gradr i 1 * unit_direction m rc iface 1)
      * unit_direction m rc iface j
    + at2 (fst (fst (getFaceGradientAndJacobian_thinLayer m rc nvars iface
                       ucl ucr dul dur))) j i.
Proof.
  intros Hi Hj.
  assert (at2 (fst (fst (getFaceGradientAndJacobian_thinLayer m rc nvars iface
                           ucl ucr dul dur))) j i
          = compact_difference m rc iface ucl ucr i * unit_direction m rc iface j)
    as Hthin.
  { unfold getFaceGradientAndJacobian_thinLayer. cbn [fst].
    rewrite at2_tabulate by assumption.
    rewrite centre_direction_spec by assumption.
    now rewrite centre_distance_spec. }
  split; [exact Hthin|]. rewrite Hthin.
  unfold getFaceGradient_modifiedAverage.
  rewrite at2_tabulate by assumption.
  rewrite tabulate_lookup_total by assumption.
  rewrite tabulate_lookup_total by assumption.
  rewrite centre_direction_spec by assumption.
  rewrite centre_distance_spec.
  unfold compact_difference, average_gradient.
  unfold dimDotProduct, for_range, NDIM. cbn [seq fold_left Nat.sub].
  rewrite !tabulate_lookup_total by (unfold NDIM; lia).
  rewrite (centre_direction_spec m rc iface 0) by (unfold NDIM; lia).
  rewrite (centre_direction_spec m rc iface 1) by (unfold NDIM; lia).
  reflexivity.
Qed.

Lemma thin_layer_in_modified_average_witness :
  at2 (fst (fst (getFaceGradientAndJacobian_thinLayer Channel.mesh
                   (Spatial_rc Channel.mesh) NVARS 8
                   [1; 0.5; 0; 1] [2; 0.5; 0; 1.5]
                   (zeros block_size) (zeros block_size)))) 0 3
  = compact_difference Channel.mesh (Spatial_rc Channel.mesh) 8
      [1; 0.5; 0; 1] [2; 0.5; 0; 1.5] 3
    * unit_direction Channel.mesh (Spatial_rc Channel.mesh) 8 0 /\
  at2 (getFaceGradient_modifiedAverage Channel.mesh (Spatial_rc Channel.mesh) NVARS 8
         [1; 0.5; 0; 1] [2; 0.5; 0; 1.5]
         [[1; 0; 0; 0.25]; [0; 0; 0; 0]] [[3; 0; 0; 0.75]; [0; 0; 0; 0]]) 0 3
  = average_gradient [[1; 0; 0; 0.25]; [0; 0; 0; 0]] [[3; 0; 0; 0.75]; [0; 0; 0; 0]] 3 0
    - (0 + average_gradient [[1; 0; 0; 0.25]; [0; 0; 0; 0]]
             [[3; 0; 0; 0.75]; [0; 0; 0; 0]] 3 0
           * unit_direction Channel.mesh (Spatial_rc Channel.mesh) 8 0
       + average_gradient [[1; 0; 0; 0.25]; [0; 0; 0; 0]]
           [[3; 0; 0; 0.75]; [0; 0; 0; 0]] 3 1
         * unit_direction Channel.mesh (Spatial_rc Channel.mesh) 8 1)
      * unit_direction Channel.mesh (Spatial_rc Channel.mesh) 8 0
    + at2 (fst (fst (getFaceGradientAndJacobian_thinLayer Channel.mesh
                       (Spatial_rc Channel.mesh) NVARS 8
                       [1; 0.5; 0; 1] [2; 0.5; 0; 1.5]
                       (zeros block_size) (zeros block_size)))) 0 3.
Proof.
  apply (thin_layer_in_modified_average Channel.mesh (Spatial_rc Channel.mesh)
           NVARS 8); unfold NVARS, NDIM; lia.
Defined.

(** ** What the Jacobian assembly reads *)

(** X22. The Jacobian assembly is that of the first-order scheme with the
    Jacobian flux. Two engines assemble the same blocks, or fail alike,
    as soon as they agree on the sizes, face connectivity, face metrics,
    normals and boundary markers of the mesh, on the cell centres, the
    viscous switch, the gas model, the Jacobian flux, the registry of
    boundary conditions and the viscosity switch. The order of the
    engine, the flux of the residual, the gradient scheme, the
    reconstruction, the periodic marker and the periodic map are not
    read. *)
Theorem jacobian_reads_first_order_data (E E' : FlowFV) (uvec : Vec) (A : Mat) :
  gnelem (m E) = gnelem (m E') ->
  gnbface (m E) = gnbface (m E') ->
  gnaface (m E) = gnaface (m E') ->
  gintfac (m E) = gintfac (m E') ->
  gfacemetric (m E) = gfacemetric (m E') ->
  gnormal (m E) = gnormal (m E') ->
  gintfacbtags (m E) = gintfacbtags (m E') ->
  rc E = rc E' ->
  viscous_sim (pconfig E) = viscous_sim (pconfig E') ->
  physics E = physics E' ->
  jflux E = jflux E' ->
  bcs E = bcs E' ->
  constVisc E = constVisc E' ->
  compute_jacobian E uvec A = compute_jacobian E' uvec A.
Proof.
  destruct E as [[] ? [] ? ? ? ? ? ? ? ?], E' as [[] ? [] ? ? ? ? ? ? ? ?].
  cbn [m rc pconfig physics jflux bcs constVisc gnelem gnbface gnaface gintfac
       gfacemetric gnormal gintfacbtags viscous_sim].
  intros. subst. reflexivity.
Qed.

Lemma jacobian_reads_first_order_data_witness :
  compute_jacobian (Channel.engine true) (Channel.vec Channel.u0) []
  = compute_jacobian
      (with_periodicity
         (with_reconstruction (Channel.engine false)
            {| compute_gradients := fun _ _ g => g |}
            {| compute_face_values := fun _ _ _ ufl ufr => (ufr, ufl) |})
         2 (fun f => f))
      (Channel.vec Channel.u0) [].
Proof.
  apply jacobian_reads_first_order_data; reflexivity.
Defined.
